(** * scope-state: path registry, dependency tracker, wrapper cache and
    batched persistence, embedded from the TypeScript sources.

    Conventions of the embedding.
    - A JavaScript string is a [string]; a Path is the segment array the
      code passes around ([list string]) and its registry key is the
      dot-joined string [join_dot].
    - A JavaScript [Map]/[Set] whose iteration order is observable is an
      association list / list in insertion order; a [WeakMap] or a [Set]
      only queried by key is a [gmap] / [gset].
    - A callback is identified by a number (function identity); calling it
      either returns or throws.
    - JavaScript numbers that count things are [Z]. *)

From Stdlib Require Import ZArith Lia Bool Ascii String List QArith Qround Sorted Permutation.
From stdpp Require Import base list strings gmap pretty.
Import ListNotations.

(* ===================================================================== *)
(** * JavaScript string primitives used by the sources                    *)
(* ===================================================================== *)
Module Js.

(** [s.startsWith(p)] *)
Fixpoint startsWith (s p : string) {struct p} : bool :=
  match p, s with
  | EmptyString, _ => true
  | String _ _, EmptyString => false
  | String c p', String d s' => if Ascii.eqb c d then startsWith s' p' else false
  end.

(** [s.split('.')]: never empty, [''.split('.')] is [['']]. *)
Fixpoint split_dot (s : string) : list string :=
  match s with
  | EmptyString => [EmptyString]
  | String c s' =>
      if Ascii.eqb c "." then EmptyString :: split_dot s'
      else match split_dot s' with
           | h :: t => String c h :: t
           | [] => [String c EmptyString]
           end
  end.

(** [a.join('.')] *)
Fixpoint join_dot (l : list string) : string :=
  match l with
  | [] => EmptyString
  | [x] => x
  | x :: (_ :: _) as r => x +:+ "." +:+ join_dot r
  end.

(** [a.slice(0, i)] for [0 <= i] *)
Definition slice0 {A} (i : nat) (a : list A) : list A := firstn i a.

(** [a.slice(0, -1)] *)
Definition slice_init {A} (a : list A) : list A := removelast a.

(** [path.length > 0 ? path[path.length - 1] : ''] *)
Definition last_or_empty (a : list string) : string := List.last a EmptyString.

(** ** [Number(s)] is not [NaN]

    The StringNumericLiteral grammar of ECMAScript, on the ASCII part of
    the white space class: optional white space around either nothing
    (the value is 0), a signed decimal literal (digits with an optional
    fraction and exponent, or [Infinity]) or an unsigned [0x]/[0o]/[0b]
    integer. *)
Definition is_ws (c : ascii) : bool :=
  match c with
  | "009" | "010" | "011" | "012" | "013" | " " => true
  | _ => false
  end%char.

Definition is_digit (c : ascii) : bool :=
  match c with
  | "0" | "1" | "2" | "3" | "4" | "5" | "6" | "7" | "8" | "9" => true
  | _ => false
  end%char.

Definition is_hex (c : ascii) : bool :=
  is_digit c ||
  match c with
  | "a" | "b" | "c" | "d" | "e" | "f"
  | "A" | "B" | "C" | "D" | "E" | "F" => true
  | _ => false
  end%char.

Definition is_oct (c : ascii) : bool :=
  match c with
  | "0" | "1" | "2" | "3" | "4" | "5" | "6" | "7" => true
  | _ => false
  end%char.

Definition is_bin (c : ascii) : bool :=
  match c with "0" | "1" => true | _ => false end%char.

Definition chars (s : string) : list ascii := list_ascii_of_string s.

Fixpoint drop_ws (l : list ascii) : list ascii :=
  match l with
  | c :: r => if is_ws c then drop_ws r else l
  | [] => []
  end.

Definition trim (l : list ascii) : list ascii :=
  rev (drop_ws (rev (drop_ws l))).

Fixpoint span_digits (l : list ascii) : list ascii * list ascii :=
  match l with
  | c :: r => if is_digit c then let '(d, t) := span_digits r in (c :: d, t)
              else ([], l)
  | [] => ([], [])
  end.

Definition nonempty_all (p : ascii -> bool) (l : list ascii) : bool :=
  match l with [] => false | _ => forallb p l end.

(** ExponentPart? at the end of a decimal literal *)
Definition exponent_opt (l : list ascii) : bool :=
  match l with
  | [] => true
  | c :: r =>
      if (Ascii.eqb c "e" || Ascii.eqb c "E")%bool then
        match r with
        | s :: r' =>
            if (Ascii.eqb s "+" || Ascii.eqb s "-")%bool
            then nonempty_all is_digit r'
            else nonempty_all is_digit r
        | [] => false
        end
      else false
  end.

(** StrUnsignedDecimalLiteral *)
Definition unsigned_decimal (l : list ascii) : bool :=
  if decide (l = chars "Infinity") then true
  else
    let '(ip, r) := span_digits l in
    match r with
    | c :: r' =>
        if Ascii.eqb c "." then
          let '(fp, r'') := span_digits r' in
          match ip, fp with
          | [], [] => false
          | _, _ => exponent_opt r''
          end
        else match ip with [] => false | _ => exponent_opt r end
    | [] => match ip with [] => false | _ => true end
    end.

Definition non_decimal (l : list ascii) : bool :=
  match l with
  | z :: x :: r =>
      if Ascii.eqb z "0" then
        if (Ascii.eqb x "x" || Ascii.eqb x "X")%bool then nonempty_all is_hex r
        else if (Ascii.eqb x "o" || Ascii.eqb x "O")%bool then nonempty_all is_oct r
        else if (Ascii.eqb x "b" || Ascii.eqb x "B")%bool then nonempty_all is_bin r
        else false
      else false
  | _ => false
  end.

(** [!isNaN(Number(s))] *)
Definition number_not_NaN (s : string) : bool :=
  match trim (chars s) with
  | [] => true
  | (c :: r) as l =>
      non_decimal l ||
      (if (Ascii.eqb c "+" || Ascii.eqb c "-")%bool then unsigned_decimal r
       else unsigned_decimal l)
  end.

(** A JavaScript string is truthy when it is not empty. *)
Definition truthy_str (s : string) : bool :=
  match s with EmptyString => false | _ => true end.

End Js.

(* ===================================================================== *)
(** * Path registry and notification fan-out (core/listeners.ts)          *)
(* ===================================================================== *)
Module Listeners.
Import Js.

(** A subscriber callback, by identity. *)
Definition Listener := nat.

(** [Map<string, Set<Listener>>], both in insertion order. *)
Definition PathListeners := list (string * list Listener).

Fixpoint map_get {V} (k : string) (m : list (string * V)) : option V :=
  match m with
  | [] => None
  | (k', v) :: r => if String.eqb k' k then Some v else map_get k r
  end.

Definition map_has {V} (k : string) (m : list (string * V)) : bool :=
  match map_get k m with Some _ => true | None => false end.

(** Update in place of the entry of [k] (its position is kept). *)
Fixpoint map_alter {V} (f : V -> V) (k : string) (m : list (string * V)) : list (string * V) :=
  match m with
  | [] => []
  | (k', v) :: r =>
      if String.eqb k' k then (k', f v) :: r else (k', v) :: map_alter f k r
  end.

(** [m.set(k, v)] *)
Definition map_set {V} (k : string) (v : V) (m : list (string * V)) : list (string * V) :=
  if map_has k m then map_alter (fun _ => v) k m else m ++ [(k, v)].

(** [m.delete(k)] *)
Definition map_delete {V} (k : string) (m : list (string * V)) : list (string * V) :=
  List.filter (fun e => negb (String.eqb (fst e) k)) m.

(** [s.add(l)] and [s.delete(l)] on a [Set] *)
Definition set_add (l : Listener) (s : list Listener) : list Listener :=
  if existsb (Nat.eqb l) s then s else s ++ [l].

Definition set_delete (l : Listener) (s : list Listener) : list Listener :=
  List.filter (fun x => negb (Nat.eqb l x)) s.

Record MonitoringConfig := {
  enabled : bool;
  verboseLogging : bool;
  logSubscriptions : bool;
  logStateChanges : bool;
  logTimings : bool;
  autoLeakDetection : bool
}.

(** The counters of [monitoringStats] that this module writes; the
    wall-clock timings are left out. *)
Record MonitoringStats := {
  totalSubscriptionsCreated : Z;
  totalSubscriptionsRemoved : Z;
  activeSubscriptions : Z;
  pathSubscriptionCounts : gmap string Z;
  renderCyclesSinceCheck : Z
}.

Record State := {
  pathListeners : PathListeners;
  monitoringStats : MonitoringStats
}.

Definition with_listeners (m : PathListeners) (st : State) : State :=
  {| pathListeners := m; monitoringStats := monitoringStats st |}.

Definition with_stats (s : MonitoringStats) (st : State) : State :=
  {| pathListeners := pathListeners st; monitoringStats := s |}.

(** [monitoringStats.pathSubscriptionCounts[path] || 0] *)
Definition count_of (path : string) (s : MonitoringStats) : Z :=
  default 0%Z (pathSubscriptionCounts s !! path).

Definition logSubscriptionAdded (cfg : MonitoringConfig) (path : string)
    (s : MonitoringStats) : MonitoringStats :=
  if negb (enabled cfg) || negb (logSubscriptions cfg) then s
  else {| totalSubscriptionsCreated := totalSubscriptionsCreated s + 1;
          totalSubscriptionsRemoved := totalSubscriptionsRemoved s;
          activeSubscriptions := activeSubscriptions s + 1;
          pathSubscriptionCounts :=
            <[path := (count_of path s + 1)%Z]> (pathSubscriptionCounts s);
          renderCyclesSinceCheck := renderCyclesSinceCheck s |}.

Definition logSubscriptionRemoved (cfg : MonitoringConfig) (path : string)
    (s : MonitoringStats) : MonitoringStats :=
  if negb (enabled cfg) || negb (logSubscriptions cfg) then s
  else {| totalSubscriptionsCreated := totalSubscriptionsCreated s;
          totalSubscriptionsRemoved := totalSubscriptionsRemoved s + 1;
          activeSubscriptions := activeSubscriptions s - 1;
          pathSubscriptionCounts :=
            <[path := (count_of path s - 1)%Z]> (pathSubscriptionCounts s);
          renderCyclesSinceCheck := renderCyclesSinceCheck s |}.

(** The closure returned by [subscribe(path, listener)]. *)
Definition unsubscribe (cfg : MonitoringConfig) (path : string) (listener : Listener)
    (st : State) : State :=
  (* pathListeners.get(path)?.delete(listener) *)
  let m1 := map_alter (set_delete listener) path (pathListeners st) in
  let s1 := logSubscriptionRemoved cfg path (monitoringStats st) in
  (* if (pathListeners.get(path)?.size === 0) pathListeners.delete(path) *)
  let m2 := match map_get path m1 with
            | Some [] => map_delete path m1
            | _ => m1
            end in
  {| pathListeners := m2; monitoringStats := s1 |}.

(** [subscribe(path, listener)]: the new state; the returned function is
    [unsubscribe cfg path listener]. *)
Definition subscribe (cfg : MonitoringConfig) (path : string) (listener : Listener)
    (st : State) : State :=
  let m0 := pathListeners st in
  let m1 := if map_has path m0 then m0 else map_set path [] m0 in
  let m2 := map_alter (set_add listener) path m1 in
  {| pathListeners := m2;
     monitoringStats := logSubscriptionAdded cfg path (monitoringStats st) |}.

(** ** Calling callbacks

    A run of callbacks is the list of calls made, in order, and how it
    ended: a callback that throws ends the run, since nothing in
    [notifyListeners] catches. A call is recorded with the registry key
    whose listener set it was taken from. *)
Definition Call := (string * Listener)%type.

Inductive Outcome := Returned | Threw (l : Listener).

Definition Run := (list Call * Outcome)%type.

Definition run_nil : Run := ([], Returned).

(** [a; b] *)
Definition run_seq (a : Run) (b : Run) : Run :=
  match a with
  | (t, Returned) => (t ++ fst b, snd b)
  | (t, Threw l) => (t, Threw l)
  end.

Section Notify.
(** Which callbacks throw when called. *)
Variable throws : Listener -> bool.
Variable cfg : MonitoringConfig.

(** [listeners.forEach(listener => listener())] *)
Fixpoint call_each (key : string) (ls : list Listener) : Run :=
  match ls with
  | [] => run_nil
  | l :: r =>
      if throws l then ([(key, l)], Threw l)
      else run_seq ([(key, l)], Returned) (call_each key r)
  end.

(** [if (pathListeners.has(k)) pathListeners.get(k)?.forEach(...)] *)
Definition notify_key (m : PathListeners) (k : string) : Run :=
  if map_has k m then
    match map_get k m with
    | Some ls => call_each k ls
    | None => run_nil
    end
  else run_nil.

(** [for (let i = path.length - 1; i >= 0; i--)], with [n] iterations
    left: the next one has [i = n - 1]. *)
Fixpoint notify_parents (m : PathListeners) (path : list string) (n : nat) : Run :=
  match n with
  | O => run_nil
  | S i => run_seq (notify_key m (join_dot (slice0 i path))) (notify_parents m path i)
  end.

(** [pathListeners.forEach((listeners, key) => { if (key.startsWith(prefix)) ... })] *)
Fixpoint notify_children (prefix : string) (entries : PathListeners) : Run :=
  match entries with
  | [] => run_nil
  | (key, listeners) :: r =>
      run_seq (if startsWith key prefix then call_each key listeners else run_nil)
              (notify_children prefix r)
  end.

(** [lastSegment && !isNaN(Number(lastSegment))] *)
Definition is_index_update (path : list string) : bool :=
  let lastSegment := last_or_empty path in
  truthy_str lastSegment && number_not_NaN lastSegment.

Definition notifyListeners (hasWindow : bool) (path : list string) (st : State)
    : State * Run :=
  if negb hasWindow then (st, run_nil)
  else
    let pathKey := join_dot path in
    let s := monitoringStats st in
    let s1 :=
      if enabled cfg && autoLeakDetection cfg then
        {| totalSubscriptionsCreated := totalSubscriptionsCreated s;
           totalSubscriptionsRemoved := totalSubscriptionsRemoved s;
           activeSubscriptions := activeSubscriptions s;
           pathSubscriptionCounts := pathSubscriptionCounts s;
           renderCyclesSinceCheck := renderCyclesSinceCheck s + 1 |}
      else s in
    let m := pathListeners st in
    let exact := notify_key m pathKey in
    let array :=
      if is_index_update path then notify_key m (join_dot (slice_init path))
      else run_nil in
    let parents := notify_parents m path (length path) in
    let children := notify_children (pathKey +:+ ".") m in
    (with_stats s1 st,
     run_seq exact (run_seq array (run_seq parents children))).

End Notify.

(** Total number of listeners and the subscribed paths. *)
Definition getListenerCount (st : State) : nat :=
  fold_left (fun total e => total + length (snd e)) (pathListeners st) 0.

Definition getActivePaths (st : State) : list string := map fst (pathListeners st).

End Listeners.

(* ===================================================================== *)
(** * Dependency tracker (core/tracking.ts)                               *)
(* ===================================================================== *)
Module Tracking.
Import Js.

(** The module variables, and the two sets of core/proxy.ts that
    [trackPathAccess] writes. *)
Record State := {
  currentPath : list string;
  isTracking : bool;
  skipTrackingDepth : Z;
  accessedPaths : gset string;
  selectorPaths : gset string
}.

Definition initial : State :=
  {| currentPath := []; isTracking := false; skipTrackingDepth := 0;
     accessedPaths := ∅; selectorPaths := ∅ |}.

(** What a selector does, as far as this module can see it: it reads
    through wrappers, may run code under [skipTracking], may itself call
    [trackDependencies] or [resetTracking], and in the end returns a value
    or throws. *)
Inductive Selector (V : Type) :=
  | Return (v : V)
  | Throw
  | Read (path : list string) (k : Selector V)
  | SkipTracking (body : Selector V) (k : Selector V)
  | Track (body : Selector V) (k : Selector V)
  | ResetTracking (k : Selector V).
Arguments Return {V} v.
Arguments Throw {V}.
Arguments Read {V} path k.
Arguments SkipTracking {V} body k.
Arguments Track {V} body k.
Arguments ResetTracking {V} k.

Record Tracked (V : Type) := { value : V; paths : list string }.
Arguments value {V} _.
Arguments paths {V} _.

Section Tracker.
(** [proxyConfig.maxPathLength] *)
Variable maxPathLength : Z.

(** [trackPathAccess(path)] *)
Definition trackPathAccess (path : list string) (st : State) : State :=
  if negb (isTracking st) || (0 <? skipTrackingDepth st)%Z then st
  else
    (* path[path.length - 1], undefined for the empty path *)
    match List.last (map Some path) None with
    | Some prop =>
        if truthy_str prop && (Z.of_nat (length path) <=? maxPathLength)%Z then
          let fullPath := join_dot path in
          {| currentPath := currentPath st ++ [prop];
             isTracking := isTracking st;
             skipTrackingDepth := skipTrackingDepth st;
             accessedPaths := {[fullPath]} ∪ accessedPaths st;
             selectorPaths := {[fullPath]} ∪ selectorPaths st |}
        else st
    | None => st
    end.

Definition resetTracking (st : State) : State :=
  {| currentPath := []; isTracking := false; skipTrackingDepth := 0;
     accessedPaths := accessedPaths st; selectorPaths := selectorPaths st |}.

Definition set_depth (d : Z) (st : State) : State :=
  {| currentPath := currentPath st; isTracking := isTracking st;
     skipTrackingDepth := d;
     accessedPaths := accessedPaths st; selectorPaths := selectorPaths st |}.

(** The first three statements of [trackDependencies]. *)
Definition start_tracking (st : State) : State :=
  {| currentPath := []; isTracking := true; skipTrackingDepth := 0;
     accessedPaths := accessedPaths st; selectorPaths := selectorPaths st |}.

(** [segment && segment.length < 100] *)
Definition keep_segment (segment : string) : bool :=
  truthy_str segment && (String.length segment <? 100).

(** What follows the call of the selector in [trackDependencies]. *)
Definition stop_tracking {V} (v : V) (st : State) : State * Tracked V :=
  let st1 := {| currentPath := currentPath st; isTracking := false;
                skipTrackingDepth := skipTrackingDepth st;
                accessedPaths := accessedPaths st;
                selectorPaths := selectorPaths st |} in
  let cleanedPaths := List.filter keep_segment (currentPath st1) in
  ({| currentPath := []; isTracking := isTracking st1;
      skipTrackingDepth := skipTrackingDepth st1;
      accessedPaths := accessedPaths st1; selectorPaths := selectorPaths st1 |},
   {| value := v; paths := cleanedPaths |}).

(** [trackDependencies], given how the selector runs: there is no
    [finally], a selector that throws leaves the state as it is at the
    throw. [None] is a thrown exception. *)
Definition track_with {V} (selector : State -> State * option V) (st : State)
    : State * option (Tracked V) :=
  let '(st1, r) := selector (start_tracking st) in
  match r with
  | Some v => let '(st2, t) := stop_tracking v st1 in (st2, Some t)
  | None => (st1, None)
  end.

(** Running a selector; [skipTracking] has a [finally]. *)
Fixpoint run {V} (f : Selector V) (st : State) : State * option V :=
  match f with
  | Return v => (st, Some v)
  | Throw => (st, None)
  | Read path k => run k (trackPathAccess path st)
  | SkipTracking body k =>
      let '(st1, r) := run body (set_depth (skipTrackingDepth st + 1) st) in
      let st2 := set_depth (skipTrackingDepth st1 - 1) st1 in
      match r with
      | Some _ => run k st2
      | None => (st2, None)
      end
  | Track body k =>
      let '(st1, r) := track_with (run body) st in
      match r with
      | Some _ => run k st1
      | None => (st1, None)
      end
  | ResetTracking k => run k (resetTracking st)
  end.

Definition trackDependencies {V} (selector : Selector V) (st : State)
    : State * option (Tracked V) :=
  track_with (run selector) st.

Definition isCurrentlyTracking (st : State) : bool :=
  isTracking st && (skipTrackingDepth st =? 0)%Z.

End Tracker.

(** A selector that reads the given paths in turn and returns [v]. *)
Fixpoint reads {V} (ps : list (list string)) (v : V) : Selector V :=
  match ps with
  | [] => Return v
  | p :: r => Read p (reads r v)
  end.

End Tracking.

(* ===================================================================== *)
(** * Wrapper cache and wrapping (core/proxy.ts, config, index.ts)        *)
(* ===================================================================== *)
Module Proxy.
Import Js.

(** Object identity. *)
Definition ObjId := nat.

Inductive Value :=
  | VUndefined
  | VNull
  | VBool (b : bool)
  | VNumber (n : Z)
  | VString (s : string)
  | VFunction (f : nat)
  | VObject (o : ObjId).

(** [target === null || typeof target !== 'object'] is false *)
Definition as_object (v : Value) : option ObjId :=
  match v with VObject o => Some o | _ => None end.

(** What wrapping looks at in an object, and what it does to it. *)
Record ObjInfo := {
  isArray : bool;
  isExtensible : bool;
  (** the helper methods were attached by addObjectMethods/addArrayMethods *)
  hasHelpers : bool;
  (** for a [Proxy] made here: its target *)
  proxyTarget : option ObjId
}.

Record ProxyConfig := {
  enabled : bool;
  maxDepth : Z;
  selectiveProxying : bool;
  preProxyPaths : list string;
  prioritizeUIObjects : bool;
  memoryThreshold : Q;
  targetMemoryUsage : Q;
  disableProxyingUnderPressure : bool;
  maxProxyCacheSize : Z;
  ultraSelectiveProxying : bool;
  forceMemoryCheck : bool;
  aggressiveMemoryManagement : bool;
  priorityPaths : list string
}.

(** The fields above of [defaultProxyConfig]. *)
Definition defaultProxyConfig : ProxyConfig :=
  {| enabled := true; maxDepth := 5; selectiveProxying := false;
     preProxyPaths := []; prioritizeUIObjects := true;
     memoryThreshold := 1%Q; targetMemoryUsage := 3000%Q;
     disableProxyingUnderPressure := false; maxProxyCacheSize := 5000;
     ultraSelectiveProxying := false; forceMemoryCheck := true;
     aggressiveMemoryManagement := false; priorityPaths := [] |}.

(** [proxyCacheLRU]: two parallel arrays and the bound. *)
Record LRU := {
  keys : list ObjId;
  timestamp : list Z;
  maxSize : Z
}.

Record MemoryPressure := {
  isUnderPressure : bool;
  lastCheckTime : Z;
  highUsageCount : Z
}.

Record State := {
  heap : gmap ObjId ObjInfo;
  nextId : ObjId;
  (** [proxyCache]: target to proxy *)
  proxyCache : gmap ObjId ObjId;
  proxyPathMap : gmap ObjId (list string);
  cacheHits : Z;
  cacheMisses : Z;
  totalProxiesCreated : Z;
  activeCachedProxies : Z;
  proxyCacheLRU : LRU;
  memoryPressure : MemoryPressure;
  accessedPaths : gset string;
  modifiedPaths : gset string;
  subscribedPaths : gset string;
  selectorPaths : gset string
}.

Definition set_cache (c : gmap ObjId ObjId) (active : Z) (st : State) : State :=
  {| heap := heap st; nextId := nextId st; proxyCache := c;
     proxyPathMap := proxyPathMap st; cacheHits := cacheHits st;
     cacheMisses := cacheMisses st; totalProxiesCreated := totalProxiesCreated st;
     activeCachedProxies := active; proxyCacheLRU := proxyCacheLRU st;
     memoryPressure := memoryPressure st; accessedPaths := accessedPaths st;
     modifiedPaths := modifiedPaths st; subscribedPaths := subscribedPaths st;
     selectorPaths := selectorPaths st |}.

Definition set_lru (l : LRU) (st : State) : State :=
  {| heap := heap st; nextId := nextId st; proxyCache := proxyCache st;
     proxyPathMap := proxyPathMap st; cacheHits := cacheHits st;
     cacheMisses := cacheMisses st; totalProxiesCreated := totalProxiesCreated st;
     activeCachedProxies := activeCachedProxies st; proxyCacheLRU := l;
     memoryPressure := memoryPressure st; accessedPaths := accessedPaths st;
     modifiedPaths := modifiedPaths st; subscribedPaths := subscribedPaths st;
     selectorPaths := selectorPaths st |}.

Definition set_pressure (m : MemoryPressure) (st : State) : State :=
  {| heap := heap st; nextId := nextId st; proxyCache := proxyCache st;
     proxyPathMap := proxyPathMap st; cacheHits := cacheHits st;
     cacheMisses := cacheMisses st; totalProxiesCreated := totalProxiesCreated st;
     activeCachedProxies := activeCachedProxies st; proxyCacheLRU := proxyCacheLRU st;
     memoryPressure := m; accessedPaths := accessedPaths st;
     modifiedPaths := modifiedPaths st; subscribedPaths := subscribedPaths st;
     selectorPaths := selectorPaths st |}.

(** ** The recency index *)

(** [keys.findIndex(k => k === key)] *)
Fixpoint findIndex (key : ObjId) (ks : list ObjId) : option nat :=
  match ks with
  | [] => None
  | k :: r => if Nat.eqb k key then Some 0
              else option_map S (findIndex key r)
  end.

(** The loop of [evictOldest] from index [i] on, with the oldest so far. *)
Fixpoint oldest_from (ts : list Z) (i : nat) (oldestIndex : nat) (oldestTime : Z) : nat :=
  match ts with
  | [] => oldestIndex
  | t :: r =>
      if (t <? oldestTime)%Z then oldest_from r (S i) i t
      else oldest_from r (S i) oldestIndex oldestTime
  end.

Definition oldestIndex (ts : list Z) : nat :=
  match ts with
  | [] => 0
  | t0 :: r => oldest_from r 1 0 t0
  end.

(** [a.splice(i, 1)] *)
Definition splice1 {A} (i : nat) (a : list A) : list A :=
  firstn i a ++ skipn (S i) a.

(** [this.timestamp[index] = now] *)
Definition touch_at (index : nat) (now : Z) (l : LRU) : LRU :=
  {| keys := keys l; timestamp := <[index := now]> (timestamp l); maxSize := maxSize l |}.

Definition lru_touch (key : ObjId) (now : Z) (l : LRU) : LRU :=
  match findIndex key (keys l) with
  | Some index => touch_at index now l
  | None => l
  end.

Definition evictOldest (st : State) : State :=
  let l := proxyCacheLRU st in
  match keys l with
  | [] => st
  | _ =>
      let i := oldestIndex (timestamp l) in
      let st1 :=
        match keys l !! i with
        | Some oldestKey =>
            if decide (is_Some (proxyCache st !! oldestKey))
            then set_cache (delete oldestKey (proxyCache st))
                           (activeCachedProxies st - 1) st
            else st
        | None => st
        end in
      set_lru {| keys := splice1 i (keys l);
                 timestamp := splice1 i (timestamp l);
                 maxSize := maxSize l |} st1
  end.

(** [proxyCacheLRU.add(key, proxy)] for an object key *)
Definition lru_add (key : ObjId) (now : Z) (st : State) : State :=
  let l := proxyCacheLRU st in
  match findIndex key (keys l) with
  | Some index => set_lru (touch_at index now l) st
  | None =>
      let l1 := {| keys := keys l ++ [key];
                   timestamp := timestamp l ++ [now];
                   maxSize := maxSize l |} in
      let st1 := set_lru l1 st in
      if (maxSize l1 <? Z.of_nat (length (keys l1)))%Z then evictOldest st1 else st1
  end.

Definition lru_size (st : State) : nat := length (keys (proxyCacheLRU st)).

(** [clearProxyCache()] *)
Definition clearProxyCache (st : State) : State :=
  {| heap := heap st; nextId := nextId st; proxyCache := ∅;
     proxyPathMap := proxyPathMap st; cacheHits := 0;
     cacheMisses := 0; totalProxiesCreated := totalProxiesCreated st;
     activeCachedProxies := 0;
     proxyCacheLRU := {| keys := []; timestamp := [];
                         maxSize := maxSize (proxyCacheLRU st) |};
     memoryPressure := memoryPressure st; accessedPaths := accessedPaths st;
     modifiedPaths := modifiedPaths st; subscribedPaths := subscribedPaths st;
     selectorPaths := selectorPaths st |}.

(** ** Memory pressure; the arithmetic is on exact rationals. *)
Definition estimateMemoryUsage (st : State) : Q :=
  let proxyCacheSize := (inject_Z (Z.of_nat (lru_size st)) * 2)%Q in
  let pathStatsSize :=
    (inject_Z (Z.of_nat (size (accessedPaths st) + size (modifiedPaths st)
                         + size (subscribedPaths st))) * (2 # 10))%Q in
  (400 + proxyCacheSize + pathStatsSize)%Q.

Definition Qgtb (a b : Q) : bool := negb (Qle_bool a b).

Definition checkInterval : Z := 5000.

Definition memoryPressure_check (cfg : ProxyConfig) (now : Z) (st : State)
    : State * bool :=
  let mp := memoryPressure st in
  if negb (forceMemoryCheck cfg) && (now - lastCheckTime mp <? checkInterval)%Z
  then (st, isUnderPressure mp)
  else
    let estimatedUsageMB := estimateMemoryUsage st in
    let thresholdMB := (targetMemoryUsage cfg * memoryThreshold cfg)%Q in
    let under0 := Qgtb estimatedUsageMB thresholdMB in
    let '(under, high) :=
      if aggressiveMemoryManagement cfg && Qgtb estimatedUsageMB (thresholdMB * (8 # 10))%Q
      then let h := (highUsageCount mp + 1)%Z in
           (if (2 <? h)%Z then true else under0, h)
      else (under0, 0%Z) in
    (set_pressure {| isUnderPressure := under; lastCheckTime := now;
                     highUsageCount := high |} st,
     under).

(** [paths.some(p => pathStr === p || pathStr.startsWith(`${p}.`))] *)
Definition under_some (paths : list string) (pathStr : string) : bool :=
  existsb (fun p => String.eqb pathStr p || startsWith pathStr (p +:+ ".")) paths.

Definition isHighPriorityPath (cfg : ProxyConfig) (path : list string) : bool :=
  if negb (prioritizeUIObjects cfg) then false
  else under_some (priorityPaths cfg) (join_dot path).

(** ** [createAdvancedProxy(target, path, depth)] *)

Definition set_heap (h : gmap ObjId ObjInfo) (next : ObjId) (st : State) : State :=
  {| heap := h; nextId := next; proxyCache := proxyCache st;
     proxyPathMap := proxyPathMap st; cacheHits := cacheHits st;
     cacheMisses := cacheMisses st; totalProxiesCreated := totalProxiesCreated st;
     activeCachedProxies := activeCachedProxies st; proxyCacheLRU := proxyCacheLRU st;
     memoryPressure := memoryPressure st; accessedPaths := accessedPaths st;
     modifiedPaths := modifiedPaths st; subscribedPaths := subscribedPaths st;
     selectorPaths := selectorPaths st |}.

Definition set_counters (hits misses total active : Z) (st : State) : State :=
  {| heap := heap st; nextId := nextId st; proxyCache := proxyCache st;
     proxyPathMap := proxyPathMap st; cacheHits := hits;
     cacheMisses := misses; totalProxiesCreated := total;
     activeCachedProxies := active; proxyCacheLRU := proxyCacheLRU st;
     memoryPressure := memoryPressure st; accessedPaths := accessedPaths st;
     modifiedPaths := modifiedPaths st; subscribedPaths := subscribedPaths st;
     selectorPaths := selectorPaths st |}.

Definition set_pathMap (m : gmap ObjId (list string)) (st : State) : State :=
  {| heap := heap st; nextId := nextId st; proxyCache := proxyCache st;
     proxyPathMap := m; cacheHits := cacheHits st;
     cacheMisses := cacheMisses st; totalProxiesCreated := totalProxiesCreated st;
     activeCachedProxies := activeCachedProxies st; proxyCacheLRU := proxyCacheLRU st;
     memoryPressure := memoryPressure st; accessedPaths := accessedPaths st;
     modifiedPaths := modifiedPaths st; subscribedPaths := subscribedPaths st;
     selectorPaths := selectorPaths st |}.

(** A new object. *)
Definition alloc (info : ObjInfo) (st : State) : State * ObjId :=
  let id := nextId st in
  (set_heap (<[id := info]> (heap st)) (S id) st, id).

Definition info_of (o : ObjId) (st : State) : ObjInfo :=
  default {| isArray := false; isExtensible := true; hasHelpers := false;
             proxyTarget := None |} (heap st !! o).

(** [isUnderPressure && proxyConfig.disableProxyingUnderPressure &&
     depth > 0 && !isHighPriorityPath(path)] *)
Definition sheds_under_pressure (cfg : ProxyConfig) (isUnder : bool)
    (path : list string) (depth : Z) : bool :=
  isUnder && disableProxyingUnderPressure cfg && (0 <? depth)%Z
  && negb (isHighPriorityPath cfg path).

(** The test of the ultra-selective block. *)
Definition skips_unselected (cfg : ProxyConfig) (st : State)
    (path : list string) (depth : Z) : bool :=
  let pathKey := join_dot path in
  ultraSelectiveProxying cfg && (0 <? depth)%Z
  && (negb (bool_decide (pathKey ∈ selectorPaths st))
      && negb (isHighPriorityPath cfg path)
      && negb (under_some (preProxyPaths cfg) pathKey)).

(** The cache-hit branch. *)
Definition cache_hit (now : Z) (o : ObjId) (st : State) : State :=
  set_lru (lru_touch o now (proxyCacheLRU st))
    (set_counters (cacheHits st + 1) (cacheMisses st) (totalProxiesCreated st)
                  (activeCachedProxies st) st).

(** The cache-miss branch, from the counters on. *)
Definition cache_miss (now : Z) (o : ObjId) (path : list string) (st : State)
    : State * Value :=
  let st := set_counters (cacheHits st) (cacheMisses st + 1)
              (totalProxiesCreated st + 1) (activeCachedProxies st + 1) st in
  let info := info_of o st in
  (* a target that is not extensible is cloned *)
  let '(st, t) :=
    if isExtensible info then (st, o)
    else alloc {| isArray := isArray info; isExtensible := true;
                  hasHelpers := hasHelpers info; proxyTarget := None |} st in
  let tinfo := info_of t st in
  (* addObjectMethods / addArrayMethods define the helpers on the target *)
  let st := set_heap (<[t := {| isArray := isArray tinfo;
                                isExtensible := isExtensible tinfo;
                                hasHelpers := true;
                                proxyTarget := proxyTarget tinfo |}]> (heap st))
                     (nextId st) st in
  (* new Proxy(target, handlers) *)
  let '(st, proxy) :=
    alloc {| isArray := isArray tinfo; isExtensible := true; hasHelpers := true;
             proxyTarget := Some t |} st in
  (* proxyCache.set(target, proxy); proxyCacheLRU.add(target, proxy) *)
  let st := set_cache (<[t := proxy]> (proxyCache st)) (activeCachedProxies st) st in
  let st := lru_add t now st in
  (* proxyPathMap.set(proxy, [...path]) *)
  let st := set_pathMap (<[proxy := path]> (proxyPathMap st)) st in
  (st, VObject proxy).

(** [now] is the reading of [Date.now()] during the call. *)
Definition createAdvancedProxy (cfg : ProxyConfig) (now : Z)
    (target : Value) (path : list string) (depth : Z) (st : State) : State * Value :=
  match as_object target with
  | None => (st, target)
  | Some o =>
      if negb (enabled cfg) then (st, target)
      else
        let '(st, isUnder) := memoryPressure_check cfg now st in
        if sheds_under_pressure cfg isUnder path depth then (st, target)
        else if skips_unselected cfg st path depth then (st, target)
        else
          match proxyCache st !! o with
          | Some cached => (cache_hit now o st, VObject cached)
          | None =>
              if selectiveProxying cfg && (maxDepth cfg <? depth)%Z then (st, target)
              else cache_miss now o path st
          end
  end.

(** One of the two rules that return the target unwrapped before the
    cache is looked at applies. *)
Definition gated (cfg : ProxyConfig) (now : Z) (path : list string) (depth : Z)
    (st : State) : bool :=
  let '(st1, isUnder) := memoryPressure_check cfg now st in
  sheds_under_pressure cfg isUnder path depth || skips_unselected cfg st1 path depth.

(** ** Module load and [configure]

    [proxyConfig] is a copy of the defaults when core/proxy.ts is loaded,
    and the object literal of [proxyCacheLRU] reads
    [proxyConfig.maxProxyCacheSize] then. *)
Definition proxyConfig_at_load : ProxyConfig := defaultProxyConfig.

Definition state_at_load : State :=
  {| heap := ∅; nextId := 0; proxyCache := ∅; proxyPathMap := ∅;
     cacheHits := 0; cacheMisses := 0; totalProxiesCreated := 0;
     activeCachedProxies := 0;
     proxyCacheLRU := {| keys := []; timestamp := [];
                         maxSize := maxProxyCacheSize proxyConfig_at_load |};
     memoryPressure := {| isUnderPressure := false; lastCheckTime := 0;
                          highUsageCount := 0 |};
     accessedPaths := ∅; modifiedPaths := ∅; subscribedPaths := ∅;
     selectorPaths := ∅ |}.

(** [configure({ proxy: { maxProxyCacheSize: n } })]:
    [Object.assign(proxyConfig, config.proxy)] writes the configuration
    object and nothing else. *)
Definition configure_maxProxyCacheSize (n : Z) (cfg : ProxyConfig) : ProxyConfig :=
  {| enabled := enabled cfg; maxDepth := maxDepth cfg;
     selectiveProxying := selectiveProxying cfg; preProxyPaths := preProxyPaths cfg;
     prioritizeUIObjects := prioritizeUIObjects cfg;
     memoryThreshold := memoryThreshold cfg; targetMemoryUsage := targetMemoryUsage cfg;
     disableProxyingUnderPressure := disableProxyingUnderPressure cfg;
     maxProxyCacheSize := n;
     ultraSelectiveProxying := ultraSelectiveProxying cfg;
     forceMemoryCheck := forceMemoryCheck cfg;
     aggressiveMemoryManagement := aggressiveMemoryManagement cfg;
     priorityPaths := priorityPaths cfg |}.

(** A fresh plain object of the application. *)
Definition new_object (array extensible : bool) (st : State) : State * ObjId :=
  alloc {| isArray := array; isExtensible := extensible; hasHelpers := false;
           proxyTarget := None |} st.

(** [presets.minimal] turns ultra-selective wrapping on. *)
Definition ultraSelective (cfg : ProxyConfig) : ProxyConfig :=
  {| enabled := enabled cfg; maxDepth := maxDepth cfg;
     selectiveProxying := selectiveProxying cfg; preProxyPaths := preProxyPaths cfg;
     prioritizeUIObjects := prioritizeUIObjects cfg;
     memoryThreshold := memoryThreshold cfg; targetMemoryUsage := targetMemoryUsage cfg;
     disableProxyingUnderPressure := disableProxyingUnderPressure cfg;
     maxProxyCacheSize := maxProxyCacheSize cfg;
     ultraSelectiveProxying := true;
     forceMemoryCheck := forceMemoryCheck cfg;
     aggressiveMemoryManagement := aggressiveMemoryManagement cfg;
     priorityPaths := priorityPaths cfg |}.

(** Wrapping the values of a list in turn, at depth 0 and path [["x"]],
    the clock advancing by one each time. *)
Fixpoint wrap_all (cfg : ProxyConfig) (now : Z) (targets : list Value) (st : State) : State :=
  match targets with
  | [] => st
  | t :: r => wrap_all cfg (now + 1) r (fst (createAdvancedProxy cfg now t ["x"] 0 st))
  end.

(** Allocating [n] plain extensible objects. *)
Fixpoint new_objects (n : nat) (st : State) : State * list Value :=
  match n with
  | O => (st, [])
  | S n' =>
      let '(st1, o) := new_object false true st in
      let '(st2, r) := new_objects n' st1 in
      (st2, VObject o :: r)
  end.

End Proxy.

(* ===================================================================== *)
(** * Batched persistence and hydration (persistence/advanced.ts)         *)
(* ===================================================================== *)
Module Persistence.
Import Js.

(** ** Plain data

    An object or array is its own data properties in insertion order (an
    array has the keys "0", "1", ...); the prototype chain is not
    modelled. A BigInt is the primitive [JSON.stringify] throws on. An
    absent property is [None] ([undefined]). *)
#[warnings="-register-all"]
Inductive Json :=
  | JNull
  | JBool (b : bool)
  | JNum (n : Z)
  | JStr (s : string)
  | JBigInt (n : Z)
  | JObject (array : bool) (props : list (string * Json)).

Definition obj (props : list (string * Json)) : Json := JObject false props.

(** [v && typeof v === 'object'] *)
Definition is_object (v : Json) : bool :=
  match v with JObject _ _ => true | _ => false end.

(** [v[k]] *)
Definition get_prop (v : Json) (k : string) : option Json :=
  match v with
  | JObject _ props => Listeners.map_get k props
  | _ => None
  end.

(** [k in v] for an object *)
Definition has_prop (v : Json) (k : string) : bool :=
  match get_prop v k with Some _ => true | None => false end.

(** [v[k] = x] on an object; [None] is the TypeError that strict mode
    raises when [v] is a primitive. *)
Definition set_prop (v : Json) (k : string) (x : Json) : option Json :=
  match v with
  | JObject a props => Some (JObject a (Listeners.map_set k x props))
  | _ => None
  end.

(** Reading along a path. *)
Fixpoint get_path (v : Json) (path : list string) : option Json :=
  match path with
  | [] => Some v
  | seg :: rest =>
      match get_prop v seg with
      | Some c => get_path c rest
      | None => None
      end
  end.

(** [JSON.stringify(v)] throws *)
Fixpoint unserializable (v : Json) : bool :=
  match v with
  | JBigInt _ => true
  | JObject _ props =>
      (fix any (l : list (string * Json)) : bool :=
         match l with
         | [] => false
         | (_, x) :: r => unserializable x || any r
         end) props
  | _ => false
  end.

(** A stored string, by what [JSON.parse] makes of it: the empty string,
    or a text that parses to a value or is rejected ([None]). *)
Inductive Stored :=
  | SEmpty
  | SText (parsed : option Json).

(** [JSON.stringify(v)]: the text that parses back to [v]; [None] when
    it throws. *)
Definition stringify (v : Json) : option Stored :=
  if unserializable v then None else Some (SText (Some v)).

Definition PERSISTED_STATE_KEY : string := "persisted_state".

Record PersistenceConfig := {
  enabled : bool;
  (** [undefined] or an array *)
  paths : option (list string);
  blacklist : list string;
  batchDelay : Z
}.

Definition defaultPersistenceConfig : PersistenceConfig :=
  {| enabled := true; paths := Some []; blacklist := []; batchDelay := 300 |}.

(** [configuredPaths && configuredPaths.length > 0] *)
Definition configured_paths (cfg : PersistenceConfig) : list string :=
  default [] (paths cfg).

Definition getPersistenceRoot (cfg : PersistenceConfig) (changePath : string) : string :=
  match List.find (fun configPath =>
                     String.eqb changePath configPath
                     || startsWith changePath (configPath +:+ "."))
                  (configured_paths cfg) with
  | Some configPath => configPath
  | None => hd EmptyString (split_dot changePath)
  end.

(** The blacklist loop, [i] from [1] to [segments.length], with [n]
    iterations left. *)
Fixpoint blacklisted_from (bl : list string) (segments : list string) (i n : nat) : bool :=
  match n with
  | O => false
  | S n' =>
      let ancestor := join_dot (slice0 i segments) in
      if existsb (fun b => String.eqb b ancestor) bl then true
      else blacklisted_from bl segments (S i) n'
  end.

Definition shouldPersistPath (cfg : PersistenceConfig) (path : string) : bool :=
  if negb (enabled cfg) then false
  else
    let segments := split_dot path in
    if blacklisted_from (blacklist cfg) segments 1 (length segments) then false
    else
      match paths cfg with
      | None | Some [] => true
      | Some ps =>
          existsb (fun persistedPath =>
                     String.eqb path persistedPath
                     || startsWith path (persistedPath +:+ ".")
                     || startsWith persistedPath (path +:+ "."))
                  ps
      end.

(** ** The batch *)

Record Batch := {
  (** [Set<string>] in insertion order *)
  roots : list string;
  (** the pending debounce timer *)
  timeoutId : option nat;
  isPersisting : bool
}.

(** What the storage adapter's [setItem] does when called. While it
    runs it may write to the store (the write reaches
    [addToPersistenceBatch]) or call [persistenceAPI.flushBatch()]; then
    it returns, returns a promise that is rejected later, or throws. *)
Inductive Reentry :=
  | ReWrite (path : list string)
  | ReFlush.

Inductive SetResult := SetReturns | SetRejects | SetThrows.

Record SetBehaviour := { reentry : list Reentry; result : SetResult }.

(** What happened, in order. *)
Inductive Event :=
  | EvFlushBegin (snapshot : list string)
  | EvFlushEnd
  | EvSetItem (key : string) (serialized : Stored)
  | EvSliceFailed (root : string)
  | EvTimerSet (id : nat)
  | EvTimerCleared (id : nat).

Record State := {
  batch : Batch;
  isHydrating : bool;
  hasHydrated : bool;
  globalStoreRef : option Json;
  nextTimer : nat;
  events : list Event
}.

Definition set_batch (b : Batch) (st : State) : State :=
  {| batch := b; isHydrating := isHydrating st; hasHydrated := hasHydrated st;
     globalStoreRef := globalStoreRef st; nextTimer := nextTimer st;
     events := events st |}.

Definition emit (e : Event) (st : State) : State :=
  {| batch := batch st; isHydrating := isHydrating st; hasHydrated := hasHydrated st;
     globalStoreRef := globalStoreRef st; nextTimer := nextTimer st;
     events := events st ++ [e] |}.

Definition set_add_str (x : string) (s : list string) : list string :=
  if existsb (String.eqb x) s then s else s ++ [x].

Definition schedulePersistenceBatch (st : State) : State :=
  let st1 := match timeoutId (batch st) with
             | Some id => emit (EvTimerCleared id) st
             | None => st
             end in
  let id := nextTimer st1 in
  emit (EvTimerSet id)
    {| batch := {| roots := roots (batch st1); timeoutId := Some id;
                   isPersisting := isPersisting (batch st1) |};
       isHydrating := isHydrating st1; hasHydrated := hasHydrated st1;
       globalStoreRef := globalStoreRef st1; nextTimer := S id;
       events := events st1 |}.

Definition addToPersistenceBatch (cfg : PersistenceConfig) (path : list string)
    (st : State) : State :=
  if negb (enabled cfg) || isHydrating st || negb (hasHydrated st) then st
  else
    let pathKey := join_dot path in
    if shouldPersistPath cfg pathKey then
      let root := getPersistenceRoot cfg pathKey in
      let b := batch st in
      schedulePersistenceBatch
        (set_batch {| roots := set_add_str root (roots b); timeoutId := timeoutId b;
                      isPersisting := isPersisting b |} st)
    else st.

(** The value to persist for a root: [None] when the loop or the test
    after it returns early. *)
Fixpoint navigate (value : option Json) (segments : list string) : option Json :=
  match segments with
  | [] => value
  | segment :: rest =>
      match value with
      | None | Some JNull => None
      | Some v => navigate (get_prop v segment) rest
      end
  end.

(** [`${PERSISTED_STATE_KEY}_${rootPath}`] *)
Definition storage_key (rootPath : string) : string :=
  PERSISTED_STATE_KEY +:+ "_" +:+ rootPath.

(** [clearTimeout(timeoutId); timeoutId = null] when a timer is pending,
    as [persistenceAPI.flushBatch] does before it processes the batch. *)
Definition clear_timer (s : State) : State :=
  match timeoutId (batch s) with
  | Some id =>
      emit (EvTimerCleared id)
        (set_batch {| roots := roots (batch s); timeoutId := None;
                      isPersisting := isPersisting (batch s) |} s)
  | None => s
  end.

Section Flush.
Variable cfg : PersistenceConfig.
Variable hasWindow : bool.

(** The part of [persistSlice] before the [try]: the value to write,
    [None] when it returns early. *)
Definition slice_value (rootPath : string) (st : State) : option Json :=
  if negb (enabled cfg) then None
  else
    match globalStoreRef st with
    | None => None
    | Some store => navigate (Some store) (split_dot rootPath)
    end.

(** The adapter in use. *)
Variable setItem : string -> Stored -> SetBehaviour.

Section Slice.
(** [persistenceAPI.flushBatch()] called from inside the adapter. *)
Variable flushBatch : State -> option State.

Fixpoint reenter (acts : list Reentry) (st : State) : option State :=
  match acts with
  | [] => Some st
  | ReWrite path :: r => reenter r (addToPersistenceBatch cfg path st)
  | ReFlush :: r =>
      match flushBatch st with
      | Some st1 => reenter r st1
      | None => None
      end
  end.

Definition persistSlice (rootPath : string) (st : State) : option State :=
  match slice_value rootPath st with
  | None => Some st
  | Some value =>
      (* try { ... } catch *)
      match stringify value with
      | None => Some (emit (EvSliceFailed rootPath) st)
      | Some serialized =>
          let storageKey := storage_key rootPath in
          let b := setItem storageKey serialized in
          match reenter (reentry b) (emit (EvSetItem storageKey serialized) st) with
          | None => None
          | Some st1 =>
              match result b with
              | SetReturns => Some st1
              | SetRejects | SetThrows => Some (emit (EvSliceFailed rootPath) st1)
              end
          end
      end
  end.

(** [roots.forEach(root => persistSlice(root))] *)
Fixpoint persist_all (rs : list string) (st : State) : option State :=
  match rs with
  | [] => Some st
  | root :: r =>
      match persistSlice root st with
      | Some st1 => persist_all r st1
      | None => None
      end
  end.
End Slice.

(** [processPersistenceBatch()]. The fuel bounds the nesting of flushes
    started from inside the adapter; [None] is fuel exhausted. *)
Fixpoint processPersistenceBatch (fuel : nat) (st : State) : option State :=
  if negb hasWindow then Some st
  else if isPersisting (batch st) || Nat.eqb (length (roots (batch st))) 0 then Some st
  else
    match fuel with
    | O => None
    | S fuel' =>
        let b := batch st in
        let st1 := set_batch {| roots := roots b; timeoutId := timeoutId b;
                                isPersisting := true |} st in
        (* const roots = Array.from(persistenceBatch.roots); roots.clear() *)
        let snapshot := roots b in
        let st2 := emit (EvFlushBegin snapshot)
                     (set_batch {| roots := []; timeoutId := timeoutId b;
                                   isPersisting := true |} st1) in
        let flushBatch s := processPersistenceBatch fuel' (clear_timer s) in
        match persist_all flushBatch snapshot st2 with
        | None => None
        | Some st3 =>
            (* finally *)
            let b3 := batch st3 in
            let st4 := emit EvFlushEnd
                         (set_batch {| roots := roots b3; timeoutId := timeoutId b3;
                                       isPersisting := false |} st3) in
            if negb (Nat.eqb (length (roots (batch st4))) 0)
            then Some (schedulePersistenceBatch st4)
            else Some st4
        end
    end.

(** The debounce timer fires. *)
Definition timer_fires (fuel : nat) (st : State) : option State :=
  let b := batch st in
  processPersistenceBatch fuel
    (set_batch {| roots := roots b; timeoutId := None;
                  isPersisting := isPersisting b |} st).

(** [persistenceAPI.flushBatch()] *)
Definition flushBatch (fuel : nat) (st : State) : option State :=
  processPersistenceBatch fuel (clear_timer st).

End Flush.

(** ** Hydration *)

(** The adapter as hydration reads it. *)
Record Adapter := {
  (** it has a [warmCache] method (a cached adapter) *)
  hasWarmCache : bool;
  (** its reads return promises *)
  returnsPromises : bool;
  (** [keys()], [None] for a null result *)
  allKeys : option (list string);
  (** [getItem(key)], [None] for [null] *)
  getItem : string -> option Stored
}.

(** [v[k] = x] on a value known to be an object *)
Definition put (v : Json) (k : string) (x : Json) : Json :=
  match v with
  | JObject a props => JObject a (Listeners.map_set k x props)
  | _ => v
  end.

(** [Object.keys(parsed)] with the values; [None] is the TypeError on
    [null]. A string has its characters as indexed properties. *)
Fixpoint char_entries (i : nat) (s : string) : list (string * Json) :=
  match s with
  | EmptyString => []
  | String c r => (pretty i, JStr (String c EmptyString)) :: char_entries (S i) r
  end.

Definition own_entries (parsed : Json) : option (list (string * Json)) :=
  match parsed with
  | JNull => None
  | JObject _ props => Some props
  | JStr s => Some (char_entries 0 s)
  | _ => Some []
  end.

(** [Object.keys(parsed).forEach(key => { if (key in t) t[key] = parsed[key] })] *)
Definition apply_blob (entries : list (string * Json)) (t : Json) : Json :=
  fold_left (fun t e => if has_prop t (fst e) then put t (fst e) (snd e) else t)
            entries t.

Definition SLICE_PREFIX : string := PERSISTED_STATE_KEY +:+ "_".

(** [key.replace(`${PERSISTED_STATE_KEY}_`, '')] for a key that starts
    with the prefix *)
Fixpoint drop_chars (n : nat) (s : string) : string :=
  match n, s with
  | S n', String _ r => drop_chars n' r
  | _, _ => s
  end.

Definition path_of_key (key : string) : string :=
  drop_chars (String.length SLICE_PREFIX) key.

Definition depth_of (key : string) : nat := length (split_dot key).

(** [sort((a, b) => a.split('.').length - b.split('.').length)], stable *)
Fixpoint insert_by_depth (x : string) (l : list string) : list string :=
  match l with
  | [] => [x]
  | y :: r => if depth_of x <=? depth_of y then x :: y :: r
              else y :: insert_by_depth x r
  end.

Fixpoint sort_by_depth (l : list string) : list string :=
  match l with
  | [] => []
  | x :: r => insert_by_depth x (sort_by_depth r)
  end.

Definition slice_keys (all : list string) : list string :=
  sort_by_depth (List.filter (fun key => startsWith key SLICE_PREFIX) all).

(** [Array.from(hydratedRoots).some(root => pathStr.startsWith(root + '.'))] *)
Definition is_child_of_hydrated (hydratedRoots : list string) (pathStr : string) : bool :=
  existsb (fun root => startsWith pathStr (root +:+ ".")) hydratedRoots.

(** The write of a slice in [mergePersistedIntoState]: intermediate
    objects are copied, anything else on the way is replaced by [{}]. *)
Fixpoint merge_write (current : Json) (segments : list string) (parsedValue : Json) : Json :=
  match segments with
  | [] => current
  | [lastKey] => put current lastKey parsedValue
  | seg :: rest =>
      let child :=
        match get_prop current seg with
        | Some (JObject a props) => JObject a props
        | _ => obj []
        end in
      put current seg (merge_write child rest parsedValue)
  end.

(** The write of a slice in [hydrateState]: a missing or null
    intermediate becomes [{}]; [false] is the TypeError of assigning to a
    property of a primitive, with the writes made before it kept. *)
Fixpoint hydrate_write (current : Json) (path : list string) (parsedValue : Json)
    : Json * bool :=
  match path with
  | [] => (current, true)
  | [lastKey] =>
      match set_prop current lastKey parsedValue with
      | Some c => (c, true)
      | None => (current, false)
      end
  | seg :: rest =>
      let step :=
        match get_prop current seg with
        | None | Some JNull =>
            match set_prop current seg (obj []) with
            | Some c => Some (c, obj [])
            | None => None
            end
        | Some child => Some (current, child)
        end in
      match step with
      | None => (current, false)
      | Some (cur1, child) =>
          let '(child', ok) := hydrate_write child rest parsedValue in
          (put cur1 seg child', ok)
      end
  end.

Record Hydration := {
  target : Json;
  hydratedRoots : list string
}.

(** One iteration of the slice loop of [mergePersistedIntoState]. *)
Definition merge_slice (cfg : PersistenceConfig) (a : Adapter) (h : Hydration)
    (key : string) : Hydration :=
  let pathStr := path_of_key key in
  if negb (shouldPersistPath cfg pathStr) then h
  else if is_child_of_hydrated (hydratedRoots h) pathStr then h
  else
    match getItem a key with
    | Some (SText (Some parsedValue)) =>
        {| target := merge_write (target h) (split_dot pathStr) parsedValue;
           hydratedRoots := set_add_str pathStr (hydratedRoots h) |}
    | _ => h
    end.

(** The full-state blob, where a malformed blob is skipped. *)
Definition merge_blob (a : Adapter) (merged : Json) : Json :=
  match getItem a PERSISTED_STATE_KEY with
  | Some (SText (Some parsed)) =>
      match own_entries parsed with
      | Some entries => apply_blob entries merged
      | None => merged
      end
  | _ => merged
  end.

(** [mergePersistedIntoState(initialState)]: the merged state and the
    hydrated roots, or [None] for the [null] result; [hasHydrated] is set
    on success. *)
Definition mergePersistedIntoState (cfg : PersistenceConfig) (hasWindow : bool)
    (a : Adapter) (initialState : list (string * Json)) (st : State)
    : State * option Hydration :=
  if negb hasWindow then (st, None)
  else if hasWarmCache a then (st, None)
  else if returnsPromises a then (st, None)
  else
    let merged := merge_blob a (obj initialState) in
    match allKeys a with
    | None => (st, None)
    | Some all =>
        let h := fold_left (merge_slice cfg a)
                   (slice_keys all) {| target := merged; hydratedRoots := [] |} in
        ({| batch := batch st; isHydrating := isHydrating st; hasHydrated := true;
            globalStoreRef := globalStoreRef st; nextTimer := nextTimer st;
            events := events st |},
         Some h)
    end.

(** One iteration of the slice loop of [hydrateState]. *)
Definition hydrate_slice (a : Adapter) (h : Hydration) (key : string) : Hydration :=
  let pathStr := path_of_key key in
  if is_child_of_hydrated (hydratedRoots h) pathStr then h
  else
    match getItem a key with
    | Some (SText (Some parsedValue)) =>
        let '(t, ok) := hydrate_write (target h) (split_dot pathStr) parsedValue in
        {| target := t;
           hydratedRoots := if ok then set_add_str pathStr (hydratedRoots h)
                            else hydratedRoots h |}
    | _ => h
    end.

(** [hydrateState(store)] on the write target it picks: the store after
    it, the hydrated roots and the promised result. The reads of the
    adapter are what they are after [warmCache]. *)
Definition hydrateState (a : Adapter) (writeTarget : option Json) (st : State)
    : State * option Hydration * bool :=
  match writeTarget with
  | None => (st, None, false)
  | Some t =>
      let finally :=
        {| batch := batch st; isHydrating := false; hasHydrated := true;
           globalStoreRef := globalStoreRef st; nextTimer := nextTimer st;
           events := events st |} in
      let blob :=
        match getItem a PERSISTED_STATE_KEY with
        | Some (SText None) => None
        | Some (SText (Some parsed)) =>
            match own_entries parsed with
            | Some entries => Some (apply_blob entries t)
            | None => None
            end
        | _ => Some t
        end in
      match blob with
      | None => (finally, Some {| target := t; hydratedRoots := [] |}, false)
      | Some t1 =>
          match allKeys a with
          | None => (finally, Some {| target := t1; hydratedRoots := [] |}, true)
          | Some all =>
              let h := fold_left (hydrate_slice a) (slice_keys all)
                         {| target := t1; hydratedRoots := [] |} in
              (finally, Some h, true)
          end
      end
  end.

End Persistence.

(* ===================================================================== *)
(** * The notification rule of the specification                          *)
(* ===================================================================== *)
Module FanoutSpec.
Import Js Listeners.

(** All prefixes of a segment array, shortest first. *)
Fixpoint inits {A} (l : list A) : list (list A) :=
  match l with
  | [] => [[]]
  | x :: r => [] :: map (cons x) (inits r)
  end.

(** The strict ancestors of a Path, from the nearest to the root. *)
Definition strict_ancestors (P : list string) : list (list string) :=
  rev (removelast (inits P)).

(** On registry keys: [k] lies strictly below [p]. *)
Definition strict_descendant (k p : string) : Prop :=
  exists rest, k = p +:+ "." +:+ rest.

Definition strict_descendantb (k p : string) : bool := startsWith k (p +:+ ".").


(** The subscribers on a path, as calls. *)
Definition subscribers_on (m : PathListeners) (k : string) : list Call :=
  map (pair k) (default [] (map_get k m)).

Definition descendant_subscribers (m : PathListeners) (p : string) : list Call :=
  flat_map (fun e => if strict_descendantb (fst e) p
                     then map (pair (fst e)) (snd e) else []) m.

(** The final segment counts as an array index when it is a non-empty
    string that [Number] reads as a number. *)
Definition numeric_index (P : list string) : bool :=
  let s := List.last P EmptyString in
  truthy_str s && number_not_NaN s.

(** The calls due for a write to [P]: exact, array parent, ancestors
    nearest first, descendants. *)
Definition fanout (m : PathListeners) (P : list string) : list Call :=
  subscribers_on m (join_dot P)
  ++ (if numeric_index P then subscribers_on m (join_dot (removelast P)) else [])
  ++ flat_map (fun A => subscribers_on m (join_dot A)) (strict_ancestors P)
  ++ descendant_subscribers m (join_dot P).

(** The calls made out of a list of due calls when a throw ends the run. *)
Fixpoint until_throw (throws : Listener -> bool) (due : list Call) : Run :=
  match due with
  | [] => run_nil
  | c :: r =>
      if throws (snd c) then ([c], Threw (snd c))
      else (c :: fst (until_throw throws r), snd (until_throw throws r))
  end.

End FanoutSpec.

(** Concrete registries used in the examples below. *)
Module ListenersExamples.
Import Listeners.

Definition quiet : MonitoringConfig :=
  {| enabled := true; verboseLogging := false; logSubscriptions := false;
     logStateChanges := false; logTimings := false; autoLeakDetection := false |}.

Definition no_stats : MonitoringStats :=
  {| totalSubscriptionsCreated := 0; totalSubscriptionsRemoved := 0;
     activeSubscriptions := 0; pathSubscriptionCounts := ∅;
     renderCyclesSinceCheck := 0 |}.

Definition empty_state : State :=
  {| pathListeners := []; monitoringStats := no_stats |}.

(** Subscribers 1..5 on "items", "items.2", "items.2.x", "other" and the
    root, subscribed in that order. *)
Definition items_state : State :=
  subscribe quiet "" 5
    (subscribe quiet "other" 4
       (subscribe quiet "items.2.x" 3
          (subscribe quiet "items.2" 2
             (subscribe quiet "items" 1 empty_state)))).

(** Two subscribers on "a"; the first one throws. *)
Definition two_on_a : State :=
  subscribe quiet "a" 2 (subscribe quiet "a" 1 empty_state).

Definition first_throws (l : Listener) : bool := Nat.eqb l 1.
Definition nobody_throws (l : Listener) : bool := false.

End ListenersExamples.

(** The configuration of the allow/blacklist example of the
    specification. *)
Module PersistenceExamples.
Import Persistence.

Definition user_only : PersistenceConfig :=
  {| enabled := true; paths := Some ["user"]; blacklist := ["user.secret"];
     batchDelay := 300 |}.

Definition empty_batch : Batch :=
  {| roots := []; timeoutId := None; isPersisting := false |}.

(** After the first hydration, nothing pending. *)
Definition idle (store : Json) : State :=
  {| batch := empty_batch; isHydrating := false; hasHydrated := true;
     globalStoreRef := Some store; nextTimer := 0; events := [] |}.

End PersistenceExamples.

Module TrackingExamples.
Import Tracking.

(** A property name of 100 characters. *)
Definition long_name : string :=
  "aaaaaaaaaaaaaaaaaaaaaaaaaaaaaaaaaaaaaaaaaaaaaaaaaaaaaaaaaaaaaaaaaaaaaaaaaaaaaaaaaaaaaaaaaaaaaaaaaaaa".

(** [() => $[long_name]] *)
Definition reads_long : Selector nat := reads [[long_name]] 0.

(** [() => $.user.name] *)
Definition reads_user_name : Selector nat := reads [["user"]; ["user"; "name"]] 7.

(** [skipTracking(() => trackDependencies(() => { throw ... }))] *)
Definition throws_under_skip : Selector nat :=
  SkipTracking (Track Throw (Return 0)) (Return 0).

End TrackingExamples.

(* ===================================================================== *)
(** * What a flush is expected to do                                      *)
(* ===================================================================== *)
Module FlushSpec.
Import Js Persistence.

(** The [setItem] calls recorded in a list of events. *)
Definition set_calls (evs : list Event) : list (string * Stored) :=
  flat_map (fun e => match e with EvSetItem k v => [(k, v)] | _ => [] end) evs.





End FlushSpec.

Module FlushSpecMore.
Import Js Persistence FlushSpec.




End FlushSpecMore.

Module FlushExamples.
Import Persistence PersistenceExamples.

Definition store : Json :=
  obj [("user", obj [("name", JStr "Ann")]);
       ("todos", JObject true [("0", JStr "milk")]);
       ("session", obj [("id", JBigInt 7)])].

(** Writing "user" fails in the adapter, and while it runs the
    application writes [todos.1] and asks for a flush; the other writes
    succeed. *)
Definition adapter (key : string) (serialized : Stored) : SetBehaviour :=
  if String.eqb key "persisted_state_user"
  then {| reentry := [ReWrite ["todos"; "1"]; ReFlush]; result := SetThrows |}
  else {| reentry := []; result := SetReturns |}.

(** "user", "session" and "todos" are pending and the timer 0 is armed. *)
Definition pending : State :=
  {| batch := {| roots := ["user"; "session"; "todos"]; timeoutId := Some 0;
                 isPersisting := false |};
     isHydrating := false; hasHydrated := true;
     globalStoreRef := Some store; nextTimer := 1; events := [] |}.

End FlushExamples.

(* ===================================================================== *)
(** * What hydration is expected to do                                    *)
(* ===================================================================== *)
Module HydrationSpec.
Import Js Persistence FanoutSpec.

(** The stored slice entry of root [r] holds the JSON text of [v]. *)
Definition slice_entry (a : Adapter) (r : string) (v : Json) : Prop :=
  getItem a (storage_key r) = Some (SText (Some v)).

(** Every hydrated root holds the value of its slice entry, whatever the
    full-state blob said. *)
Definition slices_win (a : Adapter) (h : Hydration) : Prop :=
  forall r, In r (hydratedRoots h) ->
            exists v, slice_entry a r v /\ get_path (target h) (split_dot r) = Some v.

(** No entry below a hydrated root was applied. *)
Definition children_skipped (h : Hydration) : Prop :=
  forall r p, In p (hydratedRoots h) -> strict_descendant r p ->
              ~ In r (hydratedRoots h).

(** The root was applied, or skipped for an applied parent. *)
Definition covered (h : Hydration) (r : string) : Prop :=
  In r (hydratedRoots h)
  \/ exists p, In p (hydratedRoots h) /\ strict_descendant r p.

(** The storage of the precedence example: the blob says "X", the slice
    of "user" says "Y". *)
Definition example_adapter : Adapter :=
  {| hasWarmCache := false; returnsPromises := false;
     allKeys := Some ["persisted_state"; "persisted_state_user"];
     getItem := fun key =>
       if String.eqb key "persisted_state"
       then Some (SText (Some (obj [("user", obj [("name", JStr "X")])])))
       else if String.eqb key "persisted_state_user"
       then Some (SText (Some (obj [("name", JStr "Y")])))
       else None |}.

Definition example_initial : list (string * Json) :=
  [("user", obj [("name", JStr "Z")])].

Definition not_hydrated : State :=
  {| batch := {| roots := []; timeoutId := None; isPersisting := false |};
     isHydrating := false; hasHydrated := false;
     globalStoreRef := None; nextTimer := 0; events := [] |}.

End HydrationSpec.

(* ===================================================================== *)
(** * Notions used in the proofs                                          *)
(* ===================================================================== *)
Module Notions.
Import Js Listeners FanoutSpec.

(** The registry after the closure returned by [subscribe] has run. *)
Definition after_unsubscribe (path : string) (l : Listener) (m : PathListeners)
    : PathListeners :=
  let m1 := map_alter (set_delete l) path m in
  match map_get path m1 with
  | Some [] => map_delete path m1
  | _ => m1
  end.

(** [p] or one of its dot-prefix ancestors is a blacklist entry. *)
Definition blacklisted (cfg : Persistence.PersistenceConfig) (p : string) : Prop :=
  exists b, In b (Persistence.blacklist cfg) /\ (b = p \/ strict_descendant p b).

(** [p] is an allow-listed path, below one or above one. *)
Definition allowed (cfg : Persistence.PersistenceConfig) (p : string) : Prop :=
  exists a, In a (Persistence.configured_paths cfg) /\
            (p = a \/ strict_descendant p a \/ strict_descendant a p).

(** Every captured segment is a non-empty string. *)
Definition all_truthy (st : Tracking.State) : Prop :=
  Forall (fun s => truthy_str s = true) (Tracking.currentPath st).

(** What one read captures while tracking is on and nothing is skipped. *)
Definition captured_by (maxPathLength : Z) (path : list string) : list string :=
  match List.last (map Some path) None with
  | Some prop =>
      if truthy_str prop && (Z.of_nat (length path) <=? maxPathLength)%Z
      then [prop] else []
  | None => []
  end.

(** The two arrays of the recency index run in parallel and the index is
    within its bound. *)
Definition lru_ok (st : Proxy.State) : Prop :=
  let l := Proxy.proxyCacheLRU st in
  length (Proxy.keys l) = length (Proxy.timestamp l)
  /\ (Z.of_nat (length (Proxy.keys l)) <= Proxy.maxSize l)%Z.



(** Two segment arrays that part ways at some segment. *)
Inductive diverge : list string -> list string -> Prop :=
  | diverge_here (s s' : string) (r r' : list string) :
      s <> s' -> diverge (s :: r) (s' :: r')
  | diverge_next (s : string) (r r' : list string) :
      diverge r r' -> diverge (s :: r) (s :: r').

(** No dot in a string. *)
Fixpoint no_dot (p : string) : bool :=
  match p with
  | EmptyString => true
  | String c r => negb (Ascii.eqb c ".") && no_dot r
  end.

(** The order of the slice keys. *)
Definition by_depth (a b : string) : Prop :=
  Persistence.depth_of a <= Persistence.depth_of b.

Definition is_obj (v : Persistence.Json) : Prop :=
  exists a props, v = Persistence.JObject a props.

Section Outcome.
Import Persistence HydrationSpec.

(** What one iteration of a slice loop did with key [k]: nothing, a
    write of the entry, or a write that failed on a primitive. *)
Inductive outcome (a : Adapter) (h : Hydration) (k : string) (h' : Hydration) : Prop :=
  | skipped : h' = h -> outcome a h k h'
  | wrote (v : Json) :
      is_child_of_hydrated (hydratedRoots h) (path_of_key k) = false ->
      hydratedRoots h' = set_add_str (path_of_key k) (hydratedRoots h) ->
      getItem a k = Some (SText (Some v)) ->
      get_path (target h') (split_dot (path_of_key k)) = Some v ->
      (forall segs, diverge (split_dot (path_of_key k)) segs ->
                    get_path (target h') segs = get_path (target h) segs) ->
      outcome a h k h'
  | failed :
      is_child_of_hydrated (hydratedRoots h) (path_of_key k) = false ->
      hydratedRoots h' = hydratedRoots h ->
      get_path (target h) (split_dot (path_of_key k)) = None ->
      (forall segs, diverge (split_dot (path_of_key k)) segs ->
                    get_path (target h') segs = get_path (target h) segs) ->
      outcome a h k h'.

(** The invariant of the slice loops, with the keys still to come. *)
Definition inv (a : Adapter) (good : Json -> Prop) (h : Hydration)
    (rest : list string) : Prop :=
  good (target h)
  /\ slices_win a h
  /\ (forall r k, In r (hydratedRoots h) -> In k rest ->
                  depth_of r <= depth_of (path_of_key k))
  /\ children_skipped h.
End Outcome.

End Notions.

(* ===================================================================== *)
(** * More of core/listeners.ts, core/monitoring.ts and hooks/useScope.ts *)
(* ===================================================================== *)
Module Registry.
Import Js Listeners.

(** [clearAllListeners()] *)
Definition clearAllListeners (st : State) : State := with_listeners [] st.

(** A caller of the registry: [subscribe(path, listener)], or a call of
    the closure that such a call returned. *)
Inductive Op :=
  | Sub (path : string) (listener : Listener)
  | Unsub (path : string) (listener : Listener).

Definition apply_op (cfg : MonitoringConfig) (st : State) (op : Op) : State :=
  match op with
  | Sub path listener => subscribe cfg path listener st
  | Unsub path listener => unsubscribe cfg path listener st
  end.

Definition apply_ops (cfg : MonitoringConfig) (ops : list Op) (st : State) : State :=
  fold_left (apply_op cfg) ops st.




(** The registry and the counters when core/listeners.ts is loaded. *)
Definition at_load : State :=
  {| pathListeners := [];
     monitoringStats := {| totalSubscriptionsCreated := 0;
                           totalSubscriptionsRemoved := 0;
                           activeSubscriptions := 0;
                           pathSubscriptionCounts := ∅;
                           renderCyclesSinceCheck := 0 |} |}.

End Registry.

Module Monitoring.
Import Js Listeners.

(** The report of [monitorAPI.checkForLeaks]; a message of
    [mismatchedCounts] is kept as the three values it prints, and the
    summary line, which repeats the counts, is left out. *)
Record LeakReport := {
  orphanedListeners : nat;
  mismatchedCounts : list (string * nat * Z);
  emptyPaths : list string;
  totalListeners : nat
}.

(** The body of the [forEach] of [checkForLeaks]. *)
Definition leak_step (s : MonitoringStats) (r : LeakReport)
    (e : string * list Listener) : LeakReport :=
  let path := fst e in
  let size := length (snd e) in
  let trackedCount := count_of path s in
  let orphan := (0 <? size) && (trackedCount <=? 0)%Z in
  {| orphanedListeners :=
       if orphan then orphanedListeners r + size else orphanedListeners r;
     mismatchedCounts :=
       if orphan then mismatchedCounts r ++ [(path, size, trackedCount)]
       else mismatchedCounts r;
     emptyPaths := if size =? 0 then emptyPaths r ++ [path] else emptyPaths r;
     totalListeners := totalListeners r + size |}.

(** [monitorAPI.checkForLeaks(logReport)]; [None] is [null]. *)
Definition checkForLeaks (hasWindow : bool) (st : State) : option LeakReport :=
  if negb hasWindow then None
  else Some (fold_left (leak_step (monitoringStats st)) (pathListeners st)
               {| orphanedListeners := 0; mismatchedCounts := [];
                  emptyPaths := []; totalListeners := 0 |}).

(** [monitorAPI.cleanupEmptyListeners()]: the [forEach] visits, in
    order, the entries that are still in the map when it reaches them,
    and deletes by key. *)
Fixpoint cleanup_from (entries : PathListeners) (m : PathListeners) (cleanedCount : nat)
    : PathListeners * nat :=
  match entries with
  | [] => (m, cleanedCount)
  | (path, listeners) :: r =>
      if map_has path m && (length listeners =? 0)
      then cleanup_from r (map_delete path m) (S cleanedCount)
      else cleanup_from r m cleanedCount
  end.

Definition cleanupEmptyListeners (st : State) : State * nat :=
  let '(m, cleanedCount) := cleanup_from (pathListeners st) (pathListeners st) 0 in
  (with_listeners m st, cleanedCount).

(** [monitorAPI.getListenerInfo()] *)
Definition getListenerInfo (st : State) : list (string * nat) :=
  map (fun e => (fst e, length (snd e))) (pathListeners st).

End Monitoring.

Module Hooks.
Import Js Listeners.

(** The subscription keys that the effect of [useScope] computes from
    the tracked segments. *)
Definition pathKeys (trackedPaths : list string) : list string :=
  if 0 <? length trackedPaths
  then map (fun index => join_dot (slice0 (index + 1) trackedPaths))
           (seq 0 (length trackedPaths))
  else [""].

(** The effect: each key is added to [pathUsageStats.subscribedPaths]
    and [handleChange] is subscribed on it. *)
Definition effect (cfg : MonitoringConfig) (handleChange : Listener)
    (trackedPaths : list string) (s : State * gset string) : State * gset string :=
  fold_left (fun s pathKey =>
               (subscribe cfg pathKey handleChange (fst s), {[pathKey]} ∪ snd s))
            (pathKeys trackedPaths) s.

(** Its cleanup calls the closures in the same order. *)
Definition cleanup (cfg : MonitoringConfig) (handleChange : Listener)
    (trackedPaths : list string) (st : State) : State :=
  fold_left (fun st pathKey => unsubscribe cfg pathKey handleChange st)
            (pathKeys trackedPaths) st.

End Hooks.

(** Configurations and call sequences used in the examples below. *)
Module RegistryExamples.
Import Js Listeners Registry.

(** [presets.development]: subscriptions are logged. *)
Definition development : MonitoringConfig :=
  {| enabled := true; verboseLogging := true; logSubscriptions := true;
     logStateChanges := true; logTimings := false; autoLeakDetection := true |}.


(** Two callbacks on "a", the closure of the first called twice. *)
Definition closure_twice : list Op := [Sub "a" 1; Sub "a" 2; Unsub "a" 1; Unsub "a" 1].


End RegistryExamples.

(* ===================================================================== *)
(** * Selectors for the statements about core/tracking.ts                 *)
(* ===================================================================== *)
Module Selectors.
Import Js Tracking.

(** A selector that reads the given paths in turn and goes on as [k]. *)
Fixpoint reads_then {V} (ps : list (list string)) (k : Selector V) : Selector V :=
  match ps with
  | [] => k
  | p :: r => Read p (reads_then r k)
  end.


(** The reads that [trackPathAccess] records while tracking is on and
    nothing is skipped: a non-empty last segment, and a path of at most
    [maxPathLength] segments. *)
Definition recorded (maxPathLength : Z) (path : list string) : bool :=
  match List.last (map Some path) None with
  | Some prop => truthy_str prop && (Z.of_nat (length path) <=? maxPathLength)%Z
  | None => false
  end.


End Selectors.

(* ===================================================================== *)
(** * More of core/proxy.ts, and [activate] of index.ts                   *)
(* ===================================================================== *)
Module ProxyMemory.
Import Js Proxy.

(** [a[i]] for each index of a list, for indices within the array. *)
Definition at_indices {A} (a : list A) (indices : list nat) : list A :=
  omap (fun i => a !! i) indices.

(** [this.timestamp[i]]. The two arrays of the recency index have the
    same length whenever [evictPercentage] runs (every method keeps them
    so), so the indices [0 .. keys.length - 1] are within both. *)
Definition time_at (ts : list Z) (i : nat) : Z := default 0%Z (ts !! i).

(** [indices.sort((a, b) => this.timestamp[a] - this.timestamp[b])]; the
    sort of JavaScript is stable. *)
Fixpoint insert_by_time (ts : list Z) (a : nat) (l : list nat) : list nat :=
  match l with
  | [] => [a]
  | b :: r => if (time_at ts a <=? time_at ts b)%Z then a :: b :: r
              else b :: insert_by_time ts a r
  end.

Fixpoint sort_by_time (ts : list Z) (l : list nat) : list nat :=
  match l with
  | [] => []
  | a :: r => insert_by_time ts a (sort_by_time ts r)
  end.

(** [Math.ceil(this.keys.length * percent)], on exact rationals. *)
Definition evict_count (len : nat) (percent : Q) : Z :=
  Qceiling (inject_Z (Z.of_nat len) * percent).

(** The first loop of [evictPercentage], over the keys it visits: the
    cache after it and the number of entries deleted. *)
Definition evict_keys (ks : list ObjId) (cache : gmap ObjId ObjId)
    : gmap ObjId ObjId * Z :=
  fold_left (fun ce key =>
               if decide (is_Some (fst ce !! key))
               then (delete key (fst ce), (snd ce + 1)%Z)
               else ce)
            ks (cache, 0%Z).

(** [proxyCacheLRU.evictPercentage(percent)]: the state after it and the
    number it returns. *)
Definition evictPercentage (percent : Q) (st : State) : State * Z :=
  let l := proxyCacheLRU st in
  let count := evict_count (length (keys l)) percent in
  if (count <=? 0)%Z then (st, 0%Z)
  else
    let indices := sort_by_time (timestamp l) (seq 0 (length (keys l))) in
    let n := Z.to_nat count in
    let '(cache, evicted) :=
      evict_keys (at_indices (keys l) (firstn n indices)) (proxyCache st) in
    let rest := skipn n indices in
    let l' := {| keys := at_indices (keys l) rest;
                 timestamp := at_indices (timestamp l) rest;
                 maxSize := maxSize l |} in
    (set_cache cache (activeCachedProxies st - evicted) (set_lru l' st), evicted).

Record MemoryReport := {
  proxiesEvicted : Z;
  currentMemoryEstimate : Q;
  selectorPathsRemaining : nat
}.

(** [optimizeMemoryUsage(aggressive)]; the call of [global.gc], where
    there is one, and the logging are left out. *)
Definition optimizeMemoryUsage (aggressive : bool) (st : State) : State * MemoryReport :=
  let st1 :=
    {| heap := heap st; nextId := nextId st; proxyCache := proxyCache st;
       proxyPathMap := proxyPathMap st; cacheHits := cacheHits st;
       cacheMisses := cacheMisses st; totalProxiesCreated := totalProxiesCreated st;
       activeCachedProxies := activeCachedProxies st;
       proxyCacheLRU := proxyCacheLRU st; memoryPressure := memoryPressure st;
       accessedPaths := ∅; modifiedPaths := ∅;
       subscribedPaths := subscribedPaths st; selectorPaths := selectorPaths st |} in
  let '(st2, evictedCount) :=
    if aggressive then evictPercentage (8 # 10) st1 else evictPercentage (4 # 10) st1 in
  (st2, {| proxiesEvicted := evictedCount;
           currentMemoryEstimate := estimateMemoryUsage st2;
           selectorPathsRemaining := size (selectorPaths st2) |}).

(** [selectorPaths.add(k)] *)
Definition add_selector (k : string) (st : State) : State :=
  {| heap := heap st; nextId := nextId st; proxyCache := proxyCache st;
     proxyPathMap := proxyPathMap st; cacheHits := cacheHits st;
     cacheMisses := cacheMisses st; totalProxiesCreated := totalProxiesCreated st;
     activeCachedProxies := activeCachedProxies st;
     proxyCacheLRU := proxyCacheLRU st; memoryPressure := memoryPressure st;
     accessedPaths := accessedPaths st; modifiedPaths := modifiedPaths st;
     subscribedPaths := subscribedPaths st;
     selectorPaths := {[k]} ∪ selectorPaths st |}.

(** [activate(obj)] of index.ts: the path of the wrapper and its parent
    paths become selector paths. *)
Definition activate (obj : Value) (st : State) : State :=
  match as_object obj with
  | None => st
  | Some o =>
      match proxyPathMap st !! o with
      | None => st
      | Some path =>
          fold_left (fun s i => add_selector (join_dot (slice0 i path)) s)
                    (seq 1 (length path - 1))
                    (add_selector (join_dot path) st)
      end
  end.


(** A recency index of five entries, touched at the times given. *)
Definition five_entries : State :=
  set_cache (list_to_map [(10, 110); (11, 111); (12, 112); (13, 113); (14, 114)]) 5
    (set_lru {| keys := [10; 11; 12; 13; 14]; timestamp := [50; 20; 40; 10; 30]%Z;
                maxSize := 5000 |} state_at_load).

End ProxyMemory.

Module ProxyNotions.
Import Js Proxy.

(** The index pairs keys and timestamps, and no timestamp is later than
    [now]. *)
Definition aligned (st : State) : Prop :=
  length (keys (proxyCacheLRU st)) = length (timestamp (proxyCacheLRU st)).

Definition not_after (now : Z) (st : State) : Prop :=
  List.Forall (fun t => (t <= now)%Z) (timestamp (proxyCacheLRU st)).

(** The entries of the index, key with timestamp. *)
Definition entries (st : State) : list (ObjId * Z) :=
  combine (keys (proxyCacheLRU st)) (timestamp (proxyCacheLRU st)).

End ProxyNotions.

(* ===================================================================== *)
(** * persistence/adapters.ts                                             *)
(* ===================================================================== *)
Module Adapters.
Import Js Listeners.

(** The [StorageAdapter] interface, for adapters whose methods return
    at once: [S] is what the adapter holds, [V] what it stores (strings
    in the source). [getItem] returns [None] for [null]; [clear] is
    optional. *)
Class StorageAdapter (V S : Type) := {
  getItem : string -> S -> option V;
  setItem : string -> V -> S -> S;
  removeItem : string -> S -> S;
  keys : S -> list string;
  clear : option (S -> S)
}.

(** [createMemoryAdapter()]: a [Map] in insertion order. *)
Definition MemoryStore (V : Type) := list (string * V).

#[export] Instance createMemoryAdapter {V} : StorageAdapter V (MemoryStore V) := {|
  getItem key store := map_get key store;
  setItem key value store := map_set key value store;
  removeItem key store := map_delete key store;
  keys store := map fst store;
  clear := Some (fun _ => [])
|}.

(** [createCachedAdapter(backingAdapter)]: the cache and the backing
    store. *)
Definition Cached (V S : Type) := (MemoryStore V * S)%type.

#[export] Instance createCachedAdapter {V S} `{StorageAdapter V S}
    : StorageAdapter V (Cached V S) := {|
  getItem key s := map_get key (fst s);
  setItem key value s := (map_set key value (fst s), setItem key value (snd s));
  removeItem key s := (map_delete key (fst s), removeItem key (snd s));
  keys s := map fst (fst s);
  clear := Some (fun s => ([], match clear with
                               | Some backingClear => backingClear (snd s)
                               | None => snd s
                               end))
|}.

(** The adapter as [createCachedAdapter] returns it: the cache is
    empty. *)
Definition cold {V S} (backing : S) : Cached V S := ([], backing).

(** [warmCache()], over a backing adapter whose [keys] and [getItem]
    return at once, with nothing else running between the reads. *)
Definition warmCache {V S} `{StorageAdapter V S} (s : Cached V S) : Cached V S :=
  (fold_left (fun cache key =>
                match getItem key (snd s) with
                | Some value => map_set key value cache
                | None => cache
                end)
             (keys (snd s)) (fst s),
   snd s).

(** [window.localStorage], as far as the adapter can tell: its entries
    in the order of [key(i)], whether access is denied (every access
    throws then), and whether a write is refused for lack of room. *)
Record WebStorage := {
  entries : list (string * string);
  denied : bool;
  noRoom : bool
}.

Definition with_entries (e : list (string * string)) (ws : WebStorage) : WebStorage :=
  {| entries := e; denied := denied ws; noRoom := noRoom ws |}.

(** [key && key.startsWith(prefix)] *)
Definition ours (prefix key : string) : bool :=
  truthy_str key && startsWith key prefix.

(** [key.slice(prefix.length)] *)
Fixpoint slice_from (n : nat) (s : string) : string :=
  match n, s with
  | S n', String _ r => slice_from n' r
  | _, _ => s
  end.

(** [createLocalStorageAdapter(prefix)]: every method catches what
    [localStorage] throws. *)
Definition localStorageAdapter (prefix : string) : StorageAdapter string WebStorage := {|
  getItem key ws :=
    if denied ws then None else map_get (prefix +:+ key) (entries ws);
  setItem key value ws :=
    if denied ws || noRoom ws then ws
    else with_entries (map_set (prefix +:+ key) value (entries ws)) ws;
  removeItem key ws :=
    if denied ws then ws
    else with_entries (map_delete (prefix +:+ key) (entries ws)) ws;
  keys ws :=
    if denied ws then []
    else map (slice_from (String.length prefix))
             (List.filter (ours prefix) (map fst (entries ws)));
  clear := Some (fun ws =>
    if denied ws then ws
    else with_entries
           (fold_left (fun e key => map_delete key e)
                      (List.filter (ours prefix) (map fst (entries ws)))
                      (entries ws)) ws)
|}.

(** [if (adapter.clear) adapter.clear()] *)
Definition clear_if_any {V S} `{StorageAdapter V S} (s : S) : S :=
  match clear with
  | Some f => f s
  | None => s
  end.

(** A browser store shared by an application with the default prefix
    and another one. *)
Definition shared_storage : WebStorage :=
  {| entries := [("scope_state:persisted_state_user", "{}");
                 ("other:token", "t");
                 ("scope_state:persistence_config", "{}")];
     denied := false; noRoom := false |}.

End Adapters.

Module AdapterNotions.
Import Js Listeners Adapters.

(** What reads and writes of a map-like adapter satisfy. *)
Record lawful {V S} `{StorageAdapter V S} : Prop := {
  get_set_same : forall key value s, getItem key (setItem key value s) = Some value;
  get_set_other : forall key key' value s,
    key' <> key -> getItem key' (setItem key value s) = getItem key' s;
  get_remove_same : forall key s, getItem key (removeItem key s) = None;
  get_remove_other : forall key key' s,
    key' <> key -> getItem key' (removeItem key s) = getItem key' s;
  keys_listed : forall key s, getItem key s <> None -> In key (keys s)
}.
Arguments lawful V S {_}.

(** Every read of the cached adapter gives what the backing adapter
    holds. *)
Definition coherent {V S} `{StorageAdapter V S} (s : Cached V S) : Prop :=
  forall key, getItem key s = getItem key (snd s).

(** Writes and removals on an adapter. *)
Inductive Write (V : Type) :=
  | Put (key : string) (value : V)
  | Remove (key : string).
Arguments Put {V} key value.
Arguments Remove {V} key.

Definition apply_write {V S} `{StorageAdapter V S} (s : S) (w : Write V) : S :=
  match w with
  | Put key value => setItem key value s
  | Remove key => removeItem key s
  end.

Definition apply_writes {V S} `{StorageAdapter V S} (ws : list (Write V)) (s : S) : S :=
  fold_left apply_write ws s.

(** What the last write to [key] in [ws] left there, [before] when there
    is none. *)
Fixpoint last_write {V} (key : string) (ws : list (Write V)) (before : option V)
    : option V :=
  match ws with
  | [] => before
  | Put key' value :: r =>
      last_write key r (if String.eqb key' key then Some value else before)
  | Remove key' :: r =>
      last_write key r (if String.eqb key' key then None else before)
  end.

End AdapterNotions.

(* ===================================================================== *)
(** * persistence/advanced.ts: the API, over a memory adapter             *)
(* ===================================================================== *)
Module PersistenceApi.
Import Js Listeners Adapters Persistence.

Definition PERSISTENCE_CONFIG_KEY : string := "persistence_config".

(** [Array.from(new Set(l))] *)
Definition dedupe (l : list string) : list string :=
  fold_left (fun acc x => set_add_str x acc) l [].

(** [paths.includes(p)] *)
Definition includes (paths : list string) (p : string) : bool :=
  existsb (String.eqb p) paths.

(** An array of strings. *)
Definition json_strings (l : list string) : Json :=
  JObject true (imap (fun i s => (pretty i, JStr s)) l).

(** The configuration without [storageAdapter] and [autoHydrate], as
    [JSON.stringify] sees it: an undefined [paths] is left out. *)
Definition config_json (cfg : PersistenceConfig) : Json :=
  obj ([("enabled", JBool (enabled cfg))]
       ++ match paths cfg with
          | Some ps => [("paths", json_strings ps)]
          | None => []
          end
       ++ [("blacklist", json_strings (blacklist cfg));
           ("batchDelay", JNum (batchDelay cfg))]).

(** The persistence layer in a browser, with a memory adapter in use:
    [persistenceConfig], the state of the module, and the store of the
    adapter. *)
Record Session := {
  config : PersistenceConfig;
  pstate : State;
  storage : Adapters.MemoryStore Stored
}.

Definition with_config (c : PersistenceConfig) (x : Session) : Session :=
  {| config := c; pstate := pstate x; storage := storage x |}.

Definition with_pstate (s : State) (x : Session) : Session :=
  {| config := config x; pstate := s; storage := storage x |}.

Definition with_storage (s : Adapters.MemoryStore Stored) (x : Session) : Session :=
  {| config := config x; pstate := pstate x; storage := s |}.

(** [savePersistenceConfig()] *)
Definition savePersistenceConfig (x : Session) : Session :=
  match stringify (config_json (config x)) with
  | Some serialized =>
      with_storage (Adapters.setItem PERSISTENCE_CONFIG_KEY serialized (storage x)) x
  | None => x
  end.

(** [paths.forEach(path => adapter.removeItem(`${PERSISTED_STATE_KEY}_${path}`))] *)
Definition remove_slices (paths : list string) (s : Adapters.MemoryStore Stored)
    : Adapters.MemoryStore Stored :=
  fold_left (fun s path => Adapters.removeItem (storage_key path) s) paths s.

(** [persistenceAPI.setEnabled(enabled)] *)
Definition setEnabled (b : bool) (x : Session) : Session :=
  let cfg := config x in
  savePersistenceConfig
    (with_config {| enabled := b; paths := paths cfg; blacklist := blacklist cfg;
                    batchDelay := batchDelay cfg |} x).

(** [persistenceAPI.persistPaths(paths)] *)
Definition persistPaths (ps : list string) (x : Session) : Session :=
  let cfg := config x in
  let cfg' := {| enabled := enabled cfg;
                 paths := Some (dedupe (default [] (paths cfg) ++ ps));
                 blacklist := blacklist cfg; batchDelay := batchDelay cfg |} in
  let x1 := savePersistenceConfig (with_config cfg' x) in
  with_pstate
    (fold_left (fun st path => addToPersistenceBatch cfg' (split_dot path) st)
               ps (pstate x1)) x1.

(** [persistenceAPI.unpersistPaths(paths)] *)
Definition unpersistPaths (ps : list string) (x : Session) : Session :=
  let cfg := config x in
  let x1 := match paths cfg with
            | Some l =>
                savePersistenceConfig
                  (with_config
                     {| enabled := enabled cfg;
                        paths := Some (List.filter (fun p => negb (includes ps p)) l);
                        blacklist := blacklist cfg; batchDelay := batchDelay cfg |} x)
            | None => x
            end in
  with_storage (remove_slices ps (storage x1)) x1.

(** [persistenceAPI.blacklistPaths(paths)] *)
Definition blacklistPaths (ps : list string) (x : Session) : Session :=
  let cfg := config x in
  let x1 := savePersistenceConfig
              (with_config {| enabled := enabled cfg; paths := paths cfg;
                              blacklist := dedupe (blacklist cfg ++ ps);
                              batchDelay := batchDelay cfg |} x) in
  with_storage (remove_slices ps (storage x1)) x1.

(** [persistenceAPI.unblacklistPaths(paths)] *)
Definition unblacklistPaths (ps : list string) (x : Session) : Session :=
  let cfg := config x in
  savePersistenceConfig
    (with_config {| enabled := enabled cfg; paths := paths cfg;
                    blacklist := List.filter (fun p => negb (includes ps p))
                                             (blacklist cfg);
                    batchDelay := batchDelay cfg |} x).

(** [persistenceAPI.setBatchDelay(delay)] *)
Definition setBatchDelay (delay : Z) (x : Session) : Session :=
  let cfg := config x in
  savePersistenceConfig
    (with_config {| enabled := enabled cfg; paths := paths cfg;
                    blacklist := blacklist cfg; batchDelay := delay |} x).

(** [persistenceAPI.reset()]: the memory adapter has [clear]. *)
Definition reset (x : Session) : Session :=
  savePersistenceConfig
    (with_config defaultPersistenceConfig
       (with_storage (Adapters.clear_if_any (storage x)) x)).



(** [setItem] of the memory adapter returns at once and calls nothing
    back. *)
Definition memory_setItem (key : string) (serialized : Stored) : SetBehaviour :=
  {| reentry := []; result := SetReturns |}.

(** What the [setItem] calls among the events leave in the store of the
    adapter. *)
Definition replay (evs : list Event) (s : Adapters.MemoryStore Stored)
    : Adapters.MemoryStore Stored :=
  fold_left (fun s e => match e with
                        | EvSetItem key serialized => Adapters.setItem key serialized s
                        | _ => s
                        end) evs s.

(** [persistenceAPI.flushBatch()] *)
Definition flushBatch (fuel : nat) (x : Session) : option Session :=
  match Persistence.flushBatch (config x) true memory_setItem fuel (pstate x) with
  | Some final =>
      Some (with_storage
              (replay (skipn (length (events (pstate x))) (events final)) (storage x))
              (with_pstate final x))
  | None => None
  end.

(** The writes of the store that reach [addToPersistenceBatch], one
    after the other. *)
Definition writes (cfg : PersistenceConfig) (paths : list (list string)) (st : State)
    : State :=
  fold_left (fun st path => addToPersistenceBatch cfg path st) paths st.

(** The memory adapter, as hydration reads it. *)
Definition reads_of (s : Adapters.MemoryStore Stored) : Adapter :=
  {| hasWarmCache := false; returnsPromises := false;
     allKeys := Some (Adapters.keys s);
     Persistence.getItem := fun key => Adapters.getItem key s |}.

(** A store with a profile, the password blacklisted. *)
Definition profile_store : Json :=
  obj [("user", obj [("name", JStr "Ann"); ("password", JStr "pw")]);
       ("draft", JStr "x")].


Definition hydrated (store : Json) : State :=
  {| batch := {| roots := []; timeoutId := None; isPersisting := false |};
     isHydrating := false; hasHydrated := true;
     globalStoreRef := Some store; nextTimer := 0; events := [] |}.



(** A storage left by an earlier version of the application. *)
Definition old_storage : Session :=
  {| config := defaultPersistenceConfig;
     pstate := hydrated profile_store;
     storage := [("persisted_state_user", SText (Some (obj [("name", JStr "Bob")])));
                 ("persisted_state_user.password", SText (Some (JStr "old")))] |}.

End PersistenceApi.

Module PersistenceNotions.
Import Js Listeners Persistence PersistenceApi.

(** The timers set and not cleared since, oldest first. *)
Definition armed_step (acc : list nat) (e : Event) : list nat :=
  match e with
  | EvTimerSet id => acc ++ [id]
  | EvTimerCleared id => List.filter (fun i => negb (Nat.eqb i id)) acc
  | _ => acc
  end.

Definition armed (evs : list Event) : list nat := fold_left armed_step evs [].

(** The timer the batch holds. *)
Definition held (st : State) : list nat :=
  match timeoutId (batch st) with
  | Some id => [id]
  | None => []
  end.

(** A write that passes [shouldPersistPath]. *)
Definition accepted (cfg : PersistenceConfig) (path : list string) : bool :=
  shouldPersistPath cfg (join_dot path).

(** The guard of [addToPersistenceBatch] lets a write through. *)
Definition gate_open (cfg : PersistenceConfig) (st : State) : bool :=
  enabled cfg && negb (isHydrating st) && hasHydrated st.

(** The roots of the writes that qualify, each once, in order. *)
Definition roots_of (cfg : PersistenceConfig) (paths : list (list string))
    (before : list string) : list string :=
  fold_left (fun acc path =>
               if shouldPersistPath cfg (join_dot path)
               then set_add_str (getPersistenceRoot cfg (join_dot path)) acc
               else acc) paths before.

(** [p] is [q] or below it. *)
Definition under (p q : string) : Prop :=
  p = q \/ FanoutSpec.strict_descendant p q.

End PersistenceNotions.

(* ===================================================================== *)
(** * Notions used by the statements about the registry                  *)
(* ===================================================================== *)
Module RegistryNotions.
Import Js Listeners.

(** What a [Map] of non-empty [Set]s is: no key twice, no listener twice
    in a set, no empty set. *)
Definition registry_ok (m : PathListeners) : Prop :=
  NoDup (map fst m)
  /\ List.Forall (fun e => snd e <> [] /\ NoDup (snd e)) m.

Definition subscribed (m : PathListeners) (k : string) (l : Listener) : Prop :=
  In l (default [] (map_get k m)).

Definition subscribedb (m : PathListeners) (k : string) (l : Listener) : bool :=
  existsb (Nat.eqb l) (default [] (map_get k m)).




End RegistryNotions.

(* ===================================================================== *)
(** * Proofs                                                              *)
(* ===================================================================== *)

Module JsFacts.
Import Js.

Lemma append_cons (c : ascii) (a b : string) : String c a +:+ b = String c (a +:+ b).
Proof. reflexivity. Qed.

Lemma append_nil_l (b : string) : "" +:+ b = b.
Proof. reflexivity. Qed.

Lemma append_assoc (a b c : string) : (a +:+ b) +:+ c = a +:+ (b +:+ c).
Proof.
  induction a as [|x a IH]; [reflexivity|].
  rewrite !append_cons. now rewrite IH.
Qed.

Lemma append_nil_r (a : string) : a +:+ "" = a.
Proof. induction a as [|x a IH]; [reflexivity | rewrite append_cons; now rewrite IH]. Qed.

Lemma startsWith_spec (s p : string) :
  startsWith s p = true <-> exists r, s = p +:+ r.
Proof.
  revert s. induction p as [|c p IH]; intros s; simpl.
  - split; [intros _; now exists s | reflexivity].
  - destruct s as [|d s].
    + split; [discriminate | intros [r H]; discriminate].
    + destruct (Ascii.eqb_spec c d) as [->|Hne].
      * rewrite IH. split; intros [r H]; exists r.
        -- rewrite append_cons. now rewrite H.
        -- rewrite append_cons in H. now inversion H.
      * split; [discriminate | intros [r H]; rewrite append_cons in H; inversion H; congruence].
Qed.

Lemma startsWith_refl (s : string) : startsWith s s = true.
Proof. apply startsWith_spec. exists "". now rewrite append_nil_r. Qed.

Lemma split_dot_nonempty (s : string) : split_dot s <> [].
Proof.
  induction s as [|c s IH]; simpl; [discriminate|].
  destruct (Ascii.eqb c "."); [discriminate|].
  destruct (split_dot s); discriminate.
Qed.

Lemma join_dot_cons (x : string) (l : list string) :
  l <> [] -> join_dot (x :: l) = x +:+ "." +:+ join_dot l.
Proof. destruct l; [congruence | reflexivity]. Qed.

Lemma join_dot_app (l1 l2 : list string) :
  l1 <> [] -> l2 <> [] ->
  join_dot (l1 ++ l2) = join_dot l1 +:+ "." +:+ join_dot l2.
Proof.
  induction l1 as [|x l1 IH]; intros H1 H2; [congruence|].
  destruct l1 as [|y l1].
  - simpl app. now rewrite join_dot_cons.
  - change ((x :: y :: l1) ++ l2) with (x :: ((y :: l1) ++ l2)).
    rewrite join_dot_cons by (simpl; discriminate).
    rewrite IH by (auto; discriminate).
    rewrite (join_dot_cons x (y :: l1)) by discriminate.
    now rewrite !append_assoc.
Qed.

Lemma join_split (s : string) : join_dot (split_dot s) = s.
Proof.
  induction s as [|c s IH]; [reflexivity|].
  simpl. destruct (Ascii.eqb_spec c ".") as [->|Hne].
  - rewrite join_dot_cons by apply split_dot_nonempty. now rewrite IH.
  - pose proof (split_dot_nonempty s) as Hn.
    destruct (split_dot s) as [|h t]; [congruence|].
    destruct t as [|h' t]; simpl in *; now rewrite <- IH.
Qed.

Lemma split_dot_app (a r : string) :
  split_dot (a +:+ "." +:+ r) = split_dot a ++ split_dot r.
Proof.
  induction a as [|c a IH]; [reflexivity|].
  change (String c a +:+ "." +:+ r) with (String c (a +:+ "." +:+ r)).
  simpl. destruct (Ascii.eqb c ".").
  - now rewrite IH.
  - rewrite IH. pose proof (split_dot_nonempty a) as Hn.
    destruct (split_dot a); [congruence | reflexivity].
Qed.

Example number_examples :
  map Js.number_not_NaN ["2"; "007"; "1e3"; " 5 "; "-1"; "0x1F"; ".5"; "5."; "Infinity";
                         ""; "name"; "1a"; "e3"; "."; "0x"; "+-1"; "1 2"]
  = [true; true; true; true; true; true; true; true; true;
     true; false; false; false; false; false; false; false].
Proof. reflexivity. Qed.

Example split_examples :
  map Js.split_dot [""; "a"; "a.b"; "a."; ".a"; "user.prefs.theme"]
  = [[""]; ["a"]; ["a"; "b"]; ["a"; ""]; [""; "a"]; ["user"; "prefs"; "theme"]].
Proof. reflexivity. Qed.

End JsFacts.

Module ListenersFacts.
Import Js Listeners FanoutSpec JsFacts.

Lemma inits_firstn {A} (l : list A) :
  inits l = map (fun i => firstn i l) (seq 0 (S (length l))).
Proof.
  induction l as [|x l IH]; [reflexivity|].
  cbn [inits]. rewrite IH. cbn [length].
  change (seq 0 (S (S (length l)))) with (0 :: seq 1 (S (length l))).
  cbn [map firstn]. f_equal.
  rewrite <- seq_shift, !map_map. reflexivity.
Qed.

Lemma strict_ancestors_firstn (P : list string) :
  strict_ancestors P = map (fun i => firstn i P) (rev (seq 0 (length P))).
Proof.
  unfold strict_ancestors. rewrite inits_firstn.
  rewrite seq_S, map_app. cbn [map].
  rewrite removelast_last. now rewrite map_rev.
Qed.

Section Runs.
Variable throws : Listener -> bool.
Variable cfg : MonitoringConfig.

Lemma until_throw_app (a b : list Call) :
  run_seq (until_throw throws a) (until_throw throws b) = until_throw throws (a ++ b).
Proof.
  induction a as [|c a IH]; cbn [until_throw app].
  - unfold run_seq, run_nil. cbn. now destruct (until_throw throws b).
  - destruct (throws (snd c)); [reflexivity|].
    rewrite <- IH. unfold run_seq.
    destruct (until_throw throws a) as [t [|l]]; reflexivity.
Qed.

Lemma call_each_until (k : string) (ls : list Listener) :
  call_each throws k ls = until_throw throws (map (pair k) ls).
Proof.
  induction ls as [|l ls IH]; [reflexivity|].
  cbn [call_each map until_throw snd]. destruct (throws l); [reflexivity|].
  rewrite IH. unfold run_seq. cbn. reflexivity.
Qed.

Lemma notify_key_until (m : PathListeners) (k : string) :
  notify_key throws m k = until_throw throws (subscribers_on m k).
Proof.
  unfold notify_key, subscribers_on, map_has.
  destruct (map_get k m) as [ls|]; [apply call_each_until | reflexivity].
Qed.

Lemma notify_parents_until (m : PathListeners) (P : list string) (n : nat) :
  notify_parents throws m P n
  = until_throw throws
      (flat_map (fun A => subscribers_on m (join_dot A))
                (map (fun i => firstn i P) (rev (seq 0 n)))).
Proof.
  induction n as [|n IH]; [reflexivity|].
  cbn [notify_parents]. rewrite seq_S, rev_app_distr. cbn [rev app map flat_map].
  rewrite <- until_throw_app, notify_key_until, IH. reflexivity.
Qed.

Lemma notify_children_until (prefix : string) (m : PathListeners) (p : string) :
  prefix = p +:+ "." ->
  notify_children throws prefix m = until_throw throws (descendant_subscribers m p).
Proof.
  intros ->. unfold descendant_subscribers, strict_descendantb.
  induction m as [|[k ls] m IH]; [reflexivity|].
  cbn [notify_children flat_map fst snd]. rewrite <- until_throw_app, IH.
  destruct (startsWith k (p +:+ ".")); [now rewrite call_each_until | reflexivity].
Qed.

(** The run of [notifyListeners] in a browser: the due calls, up to the
    first callback that throws. *)
Lemma notifyListeners_run (P : list string) (st : State) :
  snd (notifyListeners throws cfg true P st)
  = until_throw throws (fanout (pathListeners st) P).
Proof.
  unfold notifyListeners, fanout. cbn [negb]. cbv zeta. cbn [snd].
  rewrite (notify_key_until (pathListeners st) (join_dot P)).
  rewrite notify_parents_until.
  rewrite (notify_children_until _ _ (join_dot P)) by reflexivity.
  rewrite <- strict_ancestors_firstn.
  unfold is_index_update, numeric_index, last_or_empty, slice_init.
  rewrite <- !until_throw_app.
  destruct (truthy_str _ && number_not_NaN _); [|reflexivity].
  now rewrite notify_key_until.
Qed.

Lemma notifyListeners_registry (hasWindow : bool) (P : list string) (st : State) :
  pathListeners (fst (notifyListeners throws cfg hasWindow P st)) = pathListeners st.
Proof. unfold notifyListeners. destruct hasWindow; reflexivity. Qed.

Lemma until_throw_quiet (due : list Call) :
  (forall c, In c due -> throws (snd c) = false) ->
  until_throw throws due = (due, Returned).
Proof.
  induction due as [|c due IH]; intros H; [reflexivity|].
  cbn [until_throw]. rewrite (H c) by now left.
  rewrite IH by (intros; apply H; now right). reflexivity.
Qed.

Lemma until_throw_at (pre post : list Call) (c : Call) :
  (forall x, In x pre -> throws (snd x) = false) ->
  throws (snd c) = true ->
  until_throw throws (pre ++ c :: post) = (pre ++ [c], Threw (snd c)).
Proof.
  intros Hpre Hc. induction pre as [|x pre IH]; cbn [app until_throw].
  - now rewrite Hc.
  - rewrite (Hpre x) by now left.
    rewrite IH by (intros; apply Hpre; now right). reflexivity.
Qed.
End Runs.

(** Membership in the groups. *)
Lemma map_get_In {V} (k : string) (m : list (string * V)) (v : V) :
  map_get k m = Some v -> In (k, v) m.
Proof.
  induction m as [|[k' v'] m IH]; cbn; [discriminate|].
  destruct (String.eqb_spec k' k) as [->|Hne]; [intros [= ->]; now left | auto].
Qed.

Lemma In_map_get {V} (k : string) (m : list (string * V)) (v : V) :
  NoDup (map fst m) -> In (k, v) m -> map_get k m = Some v.
Proof.
  induction m as [|[k' v'] m IH]; cbn; [tauto|].
  intros Hnd [H|H].
  - injection H as -> ->. now rewrite String.eqb_refl.
  - apply NoDup_cons in Hnd as [Hnotin Hnd].
    destruct (String.eqb_spec k' k) as [->|Hne]; [|auto].
    exfalso. apply Hnotin. apply list_elem_of_In, in_map_iff. now exists (k, v).
Qed.



Lemma strict_descendantb_spec (k p : string) :
  strict_descendantb k p = true <-> strict_descendant k p.
Proof.
  unfold strict_descendantb, strict_descendant. rewrite startsWith_spec.
  split; intros [r H]; exists r; [now rewrite <- append_assoc | now rewrite append_assoc].
Qed.





End ListenersFacts.

Module ListenersClaims.
Import Js Listeners FanoutSpec JsFacts ListenersFacts ListenersExamples.



(** C2, as stated, fails: with two subscribers on "a" of which the first
    throws, the second is due and is not called. *)
Lemma notify_isolation_counterexample :
  In ("a", 2) (fanout (pathListeners two_on_a) ["a"])
  /\ ~ In ("a", 2) (fst (snd (notifyListeners first_throws quiet true ["a"] two_on_a)))
  /\ snd (snd (notifyListeners first_throws quiet true ["a"] two_on_a)) = Threw 1.
Proof.
  split; [vm_compute; auto|]. split; [|reflexivity].
  vm_compute. intros [H|[]]. discriminate H.
Qed.

(** C2, amended. A callback that throws ends the fan-out: the exception
    leaves [notifyListeners], the subscribers due before the thrower have
    been called and those due after it are not called. *)
Theorem notifyListeners_throw_propagates
    (throws : Listener -> bool) (cfg : MonitoringConfig)
    (P : list string) (st : State) (pre post : list Call) (c : Call) :
  fanout (pathListeners st) P = pre ++ c :: post ->
  (forall x, In x pre -> throws (snd x) = false) ->
  throws (snd c) = true ->
  snd (notifyListeners throws cfg true P st) = (pre ++ [c], Threw (snd c)).
Proof.
  intros Hdue Hpre Hc. rewrite notifyListeners_run, Hdue.
  now apply until_throw_at.
Qed.

Lemma notifyListeners_throw_propagates_witness :
  snd (notifyListeners first_throws quiet true ["a"] two_on_a) = ([("a", 1)], Threw 1).
Proof.
  apply (notifyListeners_throw_propagates first_throws quiet ["a"] two_on_a
           [] [("a", 2)] ("a", 1)).
  - reflexivity.
  - intros x [].
  - reflexivity.
Defined.

(** C10. Without a [window], [notifyListeners] calls nobody and leaves
    the registry, and the whole state, as it was. *)
Theorem notifyListeners_no_window
    (throws : Listener -> bool) (cfg : MonitoringConfig)
    (P : list string) (st : State) :
  notifyListeners throws cfg false P st = (st, ([], Returned)).
Proof. reflexivity. Qed.

End ListenersClaims.

Module RegistryFacts.
Import Js Listeners FanoutSpec Notions JsFacts ListenersFacts ListenersExamples.

Lemma map_get_alter_same {V} (f : V -> V) (k : string) (m : list (string * V)) :
  map_get k (map_alter f k m) = option_map f (map_get k m).
Proof.
  induction m as [|[k' v] m IH]; [reflexivity|].
  cbn. destruct (String.eqb_spec k' k) as [->|Hne]; cbn.
  - now rewrite String.eqb_refl.
  - destruct (String.eqb_spec k' k); [congruence | assumption].
Qed.

Lemma map_get_alter_other {V} (f : V -> V) (k k' : string) (m : list (string * V)) :
  k' <> k -> map_get k' (map_alter f k m) = map_get k' m.
Proof.
  intros Hne. induction m as [|[k0 v] m IH]; [reflexivity|].
  cbn. destruct (String.eqb_spec k0 k) as [->|Hk]; cbn.
  - destruct (String.eqb_spec k k'); [congruence | reflexivity].
  - destruct (String.eqb_spec k0 k'); [reflexivity | assumption].
Qed.

Lemma map_alter_fixed {V} (f : V -> V) (k : string) (m : list (string * V)) :
  (forall v, map_get k m = Some v -> f v = v) -> map_alter f k m = m.
Proof.
  induction m as [|[k' v] m IH]; intros H; [reflexivity|].
  cbn in *. destruct (String.eqb_spec k' k) as [->|Hne].
  - now rewrite (H v).
  - now rewrite IH.
Qed.

Lemma map_get_delete_same {V} (k : string) (m : list (string * V)) :
  map_get k (map_delete k m) = None.
Proof.
  induction m as [|[k' v] m IH]; [reflexivity|].
  unfold map_delete in *. cbn.
  destruct (String.eqb_spec k' k) as [->|Hne]; cbn; [assumption|].
  destruct (String.eqb_spec k' k); [congruence | assumption].
Qed.

Lemma map_get_delete_other {V} (k k' : string) (m : list (string * V)) :
  k' <> k -> map_get k' (map_delete k m) = map_get k' m.
Proof.
  intros Hne. induction m as [|[k0 v] m IH]; [reflexivity|].
  unfold map_delete in *. cbn.
  destruct (String.eqb_spec k0 k) as [->|Hk]; cbn.
  - destruct (String.eqb_spec k k'); [congruence | assumption].
  - destruct (String.eqb_spec k0 k'); [reflexivity | assumption].
Qed.


Lemma in_set_delete (l l' : Listener) (s : list Listener) :
  In l' (set_delete l s) <-> In l' s /\ l' <> l.
Proof.
  unfold set_delete. rewrite filter_In, negb_true_iff, Nat.eqb_neq.
  split; intros [H1 H2]; split; auto.
Qed.

Lemma unsubscribe_registry (cfg : MonitoringConfig) (path : string) (l : Listener) (st : State) :
  pathListeners (unsubscribe cfg path l st) = after_unsubscribe path l (pathListeners st).
Proof. reflexivity. Qed.




Lemma after_unsubscribe_same (path : string) (l : Listener) (m : PathListeners) :
  default [] (map_get path (after_unsubscribe path l m))
  = set_delete l (default [] (map_get path m)).
Proof.
  unfold after_unsubscribe. cbv zeta. rewrite map_get_alter_same.
  destruct (map_get path m) as [ls|] eqn:E; cbn [option_map].
  - destruct (set_delete l ls) as [|x r] eqn:Es.
    + now rewrite map_get_delete_same.
    + rewrite map_get_alter_same, E. cbn. now rewrite Es.
  - rewrite map_get_alter_same, E. reflexivity.
Qed.

Lemma after_unsubscribe_other (path p' : string) (l : Listener) (m : PathListeners) :
  p' <> path ->
  map_get p' (after_unsubscribe path l m) = map_get p' m.
Proof.
  intros Hne. unfold after_unsubscribe. cbv zeta.
  destruct (map_get path (map_alter (set_delete l) path m)) as [[|x r]|].
  - rewrite map_get_delete_other by assumption. now apply map_get_alter_other.
  - now apply map_get_alter_other.
  - now apply map_get_alter_other.
Qed.



End RegistryFacts.

Module UnsubscribeClaims.
Import Js Listeners FanoutSpec Notions JsFacts ListenersFacts ListenersExamples RegistryFacts.



End UnsubscribeClaims.

Module PersistFacts.
Import Js Persistence FanoutSpec Notions JsFacts ListenersFacts.

(** The joined prefixes of [split_dot p] are [p] and its dot-prefix
    ancestors. *)
Lemma prefix_of_split (p b : string) :
  (exists j, 1 <= j <= length (split_dot p) /\ b = join_dot (firstn j (split_dot p)))
  <-> b = p \/ strict_descendant p b.
Proof.
  split.
  - intros [j [[Hj1 Hj2] ->]].
    destruct (Nat.eq_dec j (length (split_dot p))) as [->|Hne].
    + left. now rewrite firstn_all, join_split.
    + right. exists (join_dot (skipn j (split_dot p))).
      rewrite <- join_dot_app.
      * now rewrite firstn_skipn, join_split.
      * intros H. apply (f_equal (@length _)) in H. rewrite length_firstn in H.
        cbn in H. lia.
      * intros H. apply (f_equal (@length _)) in H. rewrite length_skipn in H.
        cbn in H. lia.
  - intros [->|[rest ->]].
    + exists (length (split_dot p)). split.
      * pose proof (split_dot_nonempty p). destruct (split_dot p); [congruence | cbn; lia].
      * now rewrite firstn_all, join_split.
    + exists (length (split_dot b)). rewrite split_dot_app. split.
      * rewrite length_app. pose proof (split_dot_nonempty b).
        destruct (split_dot b); [congruence | cbn; lia].
      * rewrite firstn_app, Nat.sub_diag, firstn_all. cbn [firstn].
        now rewrite app_nil_r, join_split.
Qed.

Lemma blacklisted_from_spec (bl segments : list string) (i n : nat) :
  blacklisted_from bl segments i n = true <->
  exists j, i <= j < i + n /\ In (join_dot (firstn j segments)) bl.
Proof.
  revert i. induction n as [|n IH]; intros i; cbn [blacklisted_from].
  - split; [discriminate | intros [j [Hj _]]; lia].
  - unfold slice0.
    destruct (existsb _ bl) eqn:E.
    + split; [intros _ | reflexivity].
      apply existsb_exists in E as [b [Hb Hbe]].
      apply String.eqb_eq in Hbe. subst b. exists i. split; [lia | assumption].
    + rewrite IH. split.
      * intros [j [Hj Hin]]. exists j. split; [lia | assumption].
      * intros [j [Hj Hin]].
        destruct (Nat.eq_dec j i) as [->|Hne].
        -- exfalso. apply not_true_iff_false in E. apply E.
           apply existsb_exists. eexists. split; [exact Hin | apply String.eqb_refl].
        -- exists j. split; [lia | assumption].
Qed.

Lemma blacklist_loop_spec (cfg : PersistenceConfig) (p : string) :
  blacklisted_from (blacklist cfg) (split_dot p) 1 (length (split_dot p)) = true
  <-> blacklisted cfg p.
Proof.
  rewrite blacklisted_from_spec. unfold blacklisted. split.
  - intros [j [Hj Hin]]. eexists. split; [exact Hin|].
    apply prefix_of_split. exists j. split; [lia | reflexivity].
  - intros [b [Hin Hb]]. apply prefix_of_split in Hb as [j [Hj ->]].
    exists j. split; [lia | assumption].
Qed.

Lemma allow_test_spec (ps : list string) (p : string) :
  existsb (fun persistedPath =>
             String.eqb p persistedPath
             || startsWith p (persistedPath +:+ ".")
             || startsWith persistedPath (p +:+ ".")) ps = true
  <-> exists a, In a ps /\ (p = a \/ strict_descendant p a \/ strict_descendant a p).
Proof.
  rewrite existsb_exists. split; intros [a [Hin H]]; exists a; (split; [assumption|]).
  - apply orb_true_iff in H as [H|H]; [apply orb_true_iff in H as [H|H]|].
    + left. now apply String.eqb_eq.
    + right; left. now apply strict_descendantb_spec.
    + right; right. now apply strict_descendantb_spec.
  - destruct H as [->|[H|H]].
    + now rewrite String.eqb_refl.
    + apply strict_descendantb_spec in H. unfold strict_descendantb in H.
      rewrite H. now rewrite orb_true_r.
    + apply strict_descendantb_spec in H. unfold strict_descendantb in H.
      rewrite H. now rewrite orb_true_r.
Qed.

Lemma shouldPersistPath_cases (cfg : PersistenceConfig) (p : string) :
  shouldPersistPath cfg p = true <->
  enabled cfg = true /\ ~ blacklisted cfg p /\
  (configured_paths cfg = [] \/ allowed cfg p).
Proof.
  unfold shouldPersistPath, allowed, configured_paths.
  destruct (enabled cfg); cbn [negb]; [|intuition discriminate].
  pose proof (blacklist_loop_spec cfg p) as Hb.
  destruct (blacklisted_from _ _ _ _).
  - split; [discriminate|]. intros [_ [Hn _]]. exfalso. apply Hn. now apply Hb.
  - assert (Hnb : ~ blacklisted cfg p) by (intros H; apply Hb in H; discriminate).
    destruct (paths cfg) as [[|a ps]|]; cbn [default].
    + intuition.
    + rewrite allow_test_spec. split.
      * intros H. auto.
      * intros [_ [_ [H|H]]]; [discriminate | assumption].
    + intuition.
Qed.

End PersistFacts.

Module PersistClaims.
Import Js Persistence FanoutSpec Notions JsFacts ListenersFacts PersistFacts PersistenceExamples.

(** C3. [shouldPersistPath(p)] is false when persistence is disabled;
    false when [p] or a dot-prefix ancestor of [p] is a blacklist entry;
    otherwise true when no allow-list is configured; otherwise true
    exactly when [p] is an allow-listed path, a strict descendant of one
    or a strict ancestor of one. With allow-list ["user"] and blacklist
    ["user.secret"], a write to "user.secret" never changes the state of
    the batch, and once hydration is over a write to "user.name" adds the
    root "user" and arms the timer. *)
Theorem shouldPersistPath_spec (cfg : PersistenceConfig) (p : string) :
  (enabled cfg = false -> shouldPersistPath cfg p = false)
  /\ (blacklisted cfg p -> shouldPersistPath cfg p = false)
  /\ (enabled cfg = true -> ~ blacklisted cfg p -> configured_paths cfg = [] ->
      shouldPersistPath cfg p = true)
  /\ (enabled cfg = true -> ~ blacklisted cfg p -> configured_paths cfg <> [] ->
      (shouldPersistPath cfg p = true <-> allowed cfg p))
  /\ (forall st, addToPersistenceBatch user_only ["user"; "secret"] st = st)
  /\ (forall st, isHydrating st = false -> hasHydrated st = true ->
        let st' := addToPersistenceBatch user_only ["user"; "name"] st in
        getPersistenceRoot user_only "user.name" = "user"
        /\ roots (batch st') = set_add_str "user" (roots (batch st))
        /\ In "user" (roots (batch st'))
        /\ timeoutId (batch st') = Some (nextTimer st)).
Proof.
  pose proof (shouldPersistPath_cases cfg p) as Hc.
  split; [|split; [|split; [|split; [|split]]]].
  - intros He. apply not_true_iff_false. intros H. apply Hc in H as [H _]. congruence.
  - intros Hb. apply not_true_iff_false. intros H. apply Hc in H as [_ [H _]]. auto.
  - intros He Hb Hp. apply Hc. auto.
  - intros He Hb Hp. rewrite Hc. split; [intros [_ [_ [H|H]]]; tauto | auto].
  - intros st. unfold addToPersistenceBatch.
    destruct (negb (enabled user_only) || isHydrating st || negb (hasHydrated st));
      reflexivity.
  - intros st Hh Hd st'. subst st'. unfold addToPersistenceBatch.
    rewrite Hh, Hd.
    change (shouldPersistPath user_only (join_dot ["user"; "name"])) with true.
    change (getPersistenceRoot user_only (join_dot ["user"; "name"])) with "user".
    cbn [enabled user_only negb orb].
    split; [reflexivity|]. split.
    + unfold schedulePersistenceBatch. cbn [set_batch batch timeoutId roots].
      destruct (timeoutId (batch st)); reflexivity.
    + split.
      * unfold schedulePersistenceBatch. cbn [set_batch batch timeoutId roots].
        assert (H : In "user" (set_add_str "user" (roots (batch st)))).
        { unfold set_add_str. destruct (existsb _ _) eqn:E.
          - apply existsb_exists in E as [x [Hx He]]. apply String.eqb_eq in He. now subst.
          - apply in_app_iff. right. now left. }
        destruct (timeoutId (batch st)); exact H.
      * unfold schedulePersistenceBatch. cbn [set_batch batch timeoutId roots].
        destruct (timeoutId (batch st)); reflexivity.
Qed.

Lemma shouldPersistPath_spec_witness :
  shouldPersistPath user_only "user.secret.token" = false
  /\ shouldPersistPath user_only "user.name" = true
  /\ roots (batch (addToPersistenceBatch user_only ["user"; "name"] (idle (obj []))))
     = ["user"].
Proof.
  split; [|split].
  - destruct (shouldPersistPath_spec user_only "user.secret.token") as [_ [H _]].
    apply H. exists "user.secret". split; [now left|].
    right. exists "token". reflexivity.
  - destruct (shouldPersistPath_spec user_only "user.name") as [_ [_ [_ [H _]]]].
    apply H.
    + reflexivity.
    + intros [b [[<-|[]] [Hb|[r Hb]]]]; discriminate Hb.
    + discriminate.
    + exists "user". split; [now left|]. right; left. exists "name". reflexivity.
  - destruct (shouldPersistPath_spec user_only "") as [_ [_ [_ [_ [_ H]]]]].
    destruct (H (idle (obj [])) eq_refl eq_refl) as [_ [Hr _]].
    rewrite Hr. reflexivity.
Defined.

End PersistClaims.

Module TrackingFacts.
Import Js Tracking Notions.

Section Facts.
Variable maxPathLength : Z.

Lemma trackPathAccess_truthy (path : list string) (st : State) :
  all_truthy st -> all_truthy (trackPathAccess maxPathLength path st).
Proof.
  unfold trackPathAccess, all_truthy. intros H.
  destruct (negb (isTracking st) || (0 <? skipTrackingDepth st)%Z); [assumption|].
  destruct (List.last (map Some path) None) as [prop|]; [|assumption].
  destruct (truthy_str prop) eqn:E; [|assumption].
  destruct (Z.of_nat (length path) <=? maxPathLength)%Z; [|assumption].
  cbn. apply Forall_app. split; [assumption | now constructor].
Qed.

Lemma run_truthy {V} (f : Selector V) (st : State) :
  all_truthy st -> all_truthy (fst (run maxPathLength f st)).
Proof.
  revert st. induction f as [v| |path k IHk|body IHb k IHk|body IHb k IHk|k IHk];
    intros st H; cbn [run].
  - assumption.
  - assumption.
  - apply IHk. now apply trackPathAccess_truthy.
  - specialize (IHb (set_depth (skipTrackingDepth st + 1) st) H).
    destruct (run maxPathLength body _) as [st1 r]. cbn [fst] in IHb.
    destruct r; [apply IHk; exact IHb | exact IHb].
  - unfold track_with.
    assert (H0 : all_truthy (start_tracking st)) by constructor.
    specialize (IHb (start_tracking st) H0).
    destruct (run maxPathLength body _) as [st1 r]. cbn [fst] in IHb.
    destruct r as [v|]; cbn.
    + apply IHk. constructor.
    + exact IHb.
  - apply IHk. constructor.
Qed.

Lemma filter_keep_truthy (l : list string) :
  Forall (fun s => truthy_str s = true) l ->
  List.filter keep_segment l = List.filter (fun s => String.length s <? 100) l.
Proof.
  induction 1 as [|s l Hs Hl IH]; [reflexivity|].
  cbn [List.filter]. unfold keep_segment at 1. rewrite Hs, IH. reflexivity.
Qed.

Lemma run_reads {V} (ps : list (list string)) (v : V) (st : State) :
  isTracking st = true -> skipTrackingDepth st = 0%Z ->
  snd (run maxPathLength (reads ps v) st) = Some v
  /\ currentPath (fst (run maxPathLength (reads ps v) st))
     = currentPath st ++ flat_map (captured_by maxPathLength) ps.
Proof.
  revert st. induction ps as [|p ps IH]; intros st Ht Hd; cbn [reads run].
  - cbn. now rewrite app_nil_r.
  - assert (Hs : isTracking (trackPathAccess maxPathLength p st) = true
                 /\ skipTrackingDepth (trackPathAccess maxPathLength p st) = 0%Z
                 /\ currentPath (trackPathAccess maxPathLength p st)
                    = currentPath st ++ captured_by maxPathLength p).
    { unfold trackPathAccess, captured_by. rewrite Ht, Hd. cbn.
      destruct (List.last (map Some p) None) as [prop|];
        [|now rewrite app_nil_r].
      destruct (truthy_str prop && _); cbn; [auto | now rewrite app_nil_r]. }
    destruct Hs as [Ht' [Hd' Hc]].
    destruct (IH _ Ht' Hd') as [Hv Hp]. split; [assumption|].
    rewrite Hp, Hc. cbn [flat_map]. now rewrite app_assoc.
Qed.
End Facts.

End TrackingFacts.

Module TrackingClaims.
Import Js Tracking Notions TrackingFacts TrackingExamples.

(** C8, as stated, fails twice. A selector that reads a property whose
    name has 100 characters captures that segment, and
    [trackDependencies] returns the empty list. After
    [skipTracking(() => trackDependencies(() => { throw }))] tracking is
    active and the skip counter is -1, not zero, and [trackPathAccess]
    captures. *)
Lemma track_counterexample :
  (let st1 := fst (run 20 reads_long (start_tracking initial)) in
   currentPath st1 = [long_name]
   /\ option_map paths (snd (trackDependencies 20 reads_long initial)) = Some [])
  /\ (let st := fst (run 20 throws_under_skip initial) in
      isTracking st = true /\ skipTrackingDepth st = (-1)%Z
      /\ currentPath (trackPathAccess 20 ["a"] st) = ["a"]
      /\ trackPathAccess 20 ["a"] st <> st).
Proof.
  split.
  - cbv zeta. split; reflexivity.
  - cbv zeta. repeat split. intros H. apply (f_equal currentPath) in H. discriminate H.
Qed.

(** C8, amended. For a selector that returns, [trackDependencies] starts
    from tracking mode on and an empty buffer, runs the selector once,
    leaves tracking mode off and the buffer empty, and returns the
    selector's result with the captured segments shorter than 100
    characters. [trackPathAccess] changes nothing when tracking mode is
    off or the skip counter is positive. *)
Theorem trackDependencies_spec
    (maxPathLength : Z) {V} (f : Selector V) (st st1 : State) (v : V) :
  run maxPathLength f (start_tracking st) = (st1, Some v) ->
  (isTracking (start_tracking st) = true /\ currentPath (start_tracking st) = [])
  /\ (exists st2,
        trackDependencies maxPathLength f st
        = (st2, Some {| value := v;
                        paths := List.filter (fun s => String.length s <? 100)
                                             (currentPath st1) |})
        /\ isTracking st2 = false /\ currentPath st2 = []
        /\ skipTrackingDepth st2 = skipTrackingDepth st1
        /\ accessedPaths st2 = accessedPaths st1
        /\ selectorPaths st2 = selectorPaths st1)
  /\ (forall path s,
        isTracking s = false \/ (0 < skipTrackingDepth s)%Z ->
        trackPathAccess maxPathLength path s = s).
Proof.
  intros Hrun. split; [split; reflexivity|]. split.
  - assert (H0 : all_truthy (start_tracking st)) by constructor.
    pose proof (run_truthy maxPathLength f (start_tracking st) H0) as H.
    rewrite Hrun in H. cbn [fst] in H.
    unfold trackDependencies, track_with. rewrite Hrun.
    unfold stop_tracking. cbn [currentPath].
    rewrite (filter_keep_truthy _ H).
    eexists. split; [reflexivity | repeat split].
  - intros path s [H|H]; unfold trackPathAccess.
    + now rewrite H.
    + apply Z.ltb_lt in H. rewrite H. now rewrite orb_true_r.
Qed.

Lemma trackDependencies_spec_witness :
  snd (trackDependencies 20 reads_user_name initial)
  = Some {| value := 7; paths := ["user"; "name"] |}.
Proof.
  destruct (trackDependencies_spec 20 reads_user_name initial
              (fst (run 20 reads_user_name (start_tracking initial))) 7 eq_refl)
    as [_ [[st2 [H _]] _]].
  rewrite H. reflexivity.
Defined.

End TrackingClaims.

Module ProxyFacts.
Import Js Proxy Notions.

(** ** The oldest entry *)

Lemma oldest_from_spec (ts : list Z) (i best : nat) (bt : Z) :
  best < i ->
  let r := oldest_from ts i best bt in
  (r = best \/ i <= r < i + length ts)
  /\ exists rt,
       (r = best /\ rt = bt \/ ts !! (r - i) = Some rt /\ i <= r)
       /\ (rt <= bt)%Z
       /\ forall j t, ts !! j = Some t -> (rt <= t)%Z.
Proof.
  revert i best bt. induction ts as [|t ts IH]; intros i best bt Hlt; cbn [oldest_from].
  - cbn. split; [now left|]. exists bt. split; [now left|]. split; [lia|].
    intros j t H. rewrite lookup_nil in H. discriminate.
  - destruct (t <? bt)%Z eqn:E.
    + apply Z.ltb_lt in E.
      destruct (IH (S i) i t ltac:(lia)) as [Hr [rt [Hrt [Hle Hmin]]]].
      cbn [length]. split.
      * destruct Hr as [->|Hr]; right; lia.
      * exists rt. split; [|split; [lia|]].
        -- right. destruct Hrt as [[-> ->]|[Hl Hi]].
           ++ rewrite Nat.sub_diag. cbn. split; [reflexivity | lia].
           ++ split; [|lia].
              replace (oldest_from ts (S i) i t - i)
                with (S (oldest_from ts (S i) i t - S i)) by lia.
              exact Hl.
        -- intros [|j] t' H; cbn in H.
           ++ injection H as <-. lia.
           ++ now apply (Hmin j).
    + apply Z.ltb_ge in E.
      destruct (IH (S i) best bt ltac:(lia)) as [Hr [rt [Hrt [Hle Hmin]]]].
      cbn [length]. split.
      * destruct Hr as [->|Hr]; [now left | right; lia].
      * exists rt. split; [|split; [lia|]].
        -- destruct Hrt as [[-> ->]|[Hl Hi]]; [now left | right].
           split; [|lia].
           replace (oldest_from ts (S i) best bt - i)
             with (S (oldest_from ts (S i) best bt - S i)) by lia.
           exact Hl.
        -- intros [|j] t' H; cbn in H.
           ++ injection H as <-. lia.
           ++ now apply (Hmin j).
Qed.

(** The index [evictOldest] picks holds a smallest timestamp. *)
Lemma oldestIndex_min (ts : list Z) :
  ts <> [] ->
  oldestIndex ts < length ts
  /\ exists t0, ts !! oldestIndex ts = Some t0
                /\ forall j t, ts !! j = Some t -> (t0 <= t)%Z.
Proof.
  destruct ts as [|t0 ts]; [congruence|]. intros _. unfold oldestIndex.
  destruct (oldest_from_spec ts 1 0 t0 ltac:(lia)) as [Hr [rt [Hrt [Hle Hmin]]]].
  cbn zeta in *. split.
  - cbn [length]. destruct Hr as [->|Hr]; lia.
  - exists rt. split.
    + destruct Hrt as [[-> ->]|[Hl Hi]]; [reflexivity|].
      replace (oldest_from ts 1 0 t0) with (S (oldest_from ts 1 0 t0 - 1)) by lia.
      exact Hl.
    + intros [|j] t H; cbn in H; [injection H as <-; lia | now apply (Hmin j)].
Qed.

Lemma length_splice1 {A} (i : nat) (a : list A) :
  i < length a -> length (splice1 i a) = length a - 1.
Proof.
  intros H. unfold splice1. rewrite length_app, length_firstn, length_skipn. lia.
Qed.

(** ** The invariant of the recency index *)

Lemma findIndex_lt (key : ObjId) (ks : list ObjId) (i : nat) :
  findIndex key ks = Some i -> i < length ks.
Proof.
  revert i. induction ks as [|k ks IH]; intros i; cbn; [discriminate|].
  destruct (Nat.eqb k key); [intros [= <-]; lia|].
  destruct (findIndex key ks) as [j|]; cbn; [|discriminate].
  intros [= <-]. specialize (IH j eq_refl). lia.
Qed.

Lemma evictOldest_size (st : State) :
  length (keys (proxyCacheLRU st)) = length (timestamp (proxyCacheLRU st)) ->
  let st' := evictOldest st in
  length (keys (proxyCacheLRU st')) = length (keys (proxyCacheLRU st)) - 1
  /\ length (timestamp (proxyCacheLRU st')) = length (keys (proxyCacheLRU st'))
  /\ maxSize (proxyCacheLRU st') = maxSize (proxyCacheLRU st).
Proof.
  intros Hlen. unfold evictOldest. cbv zeta.
  destruct (keys (proxyCacheLRU st)) as [|k ks] eqn:Ek.
  - rewrite ?Ek. cbn in *. auto.
  - assert (Hne : timestamp (proxyCacheLRU st) <> []).
    { intros H. rewrite H in Hlen. discriminate. }
    destruct (oldestIndex_min _ Hne) as [Hi _].
    set (i := oldestIndex _) in *.
    assert (Hk : i < length (k :: ks)) by (rewrite Hlen; exact Hi).
    destruct ((k :: ks) !! i) as [old|];
      [destruct (decide (is_Some (proxyCache st !! old)))|];
      cbn [set_lru set_cache proxyCacheLRU keys timestamp maxSize];
      rewrite !length_splice1 by assumption; rewrite Hlen; auto.
Qed.

Lemma lru_add_ok (key : ObjId) (now : Z) (st : State) :
  lru_ok st -> lru_ok (lru_add key now st).
Proof.
  unfold lru_ok. cbv zeta. intros [Hlen Hb]. unfold lru_add. cbv zeta.
  destruct (findIndex key (keys (proxyCacheLRU st))) as [i|] eqn:E.
  - cbn. rewrite length_insert. auto.
  - match goal with |- context [if ?c then _ else _] => destruct c eqn:Ec end.
    + match goal with |- context [evictOldest ?s] =>
        destruct (evictOldest_size s) as [H1 [H2 H3]] end.
      { cbn. rewrite !length_app. cbn. lia. }
      cbv zeta in *. rewrite H3, H1. split; [now rewrite H2|].
      cbn. rewrite length_app. cbn. lia.
    + apply Z.ltb_ge in Ec. cbn in *. rewrite !length_app in *. cbn in *. split; lia.
Qed.

Lemma memoryPressure_check_lru (cfg : ProxyConfig) (now : Z) (st : State) :
  proxyCacheLRU (fst (memoryPressure_check cfg now st)) = proxyCacheLRU st
  /\ proxyCache (fst (memoryPressure_check cfg now st)) = proxyCache st
  /\ selectorPaths (fst (memoryPressure_check cfg now st)) = selectorPaths st
  /\ cacheHits (fst (memoryPressure_check cfg now st)) = cacheHits st.
Proof.
  unfold memoryPressure_check. cbv zeta.
  destruct (negb (forceMemoryCheck cfg) && _); [auto|].
  destruct (aggressiveMemoryManagement cfg && _); cbn; auto.
Qed.

Lemma lru_touch_ok (o : ObjId) (now : Z) (l : LRU) :
  length (keys (lru_touch o now l)) = length (keys l)
  /\ length (timestamp (lru_touch o now l)) = length (timestamp l)
  /\ maxSize (lru_touch o now l) = maxSize l.
Proof.
  unfold lru_touch. destruct (findIndex o (keys l)); cbn; [|auto].
  rewrite length_insert. auto.
Qed.

Lemma lru_ok_ext (s s' : State) :
  proxyCacheLRU s' = proxyCacheLRU s -> lru_ok s -> lru_ok s'.
Proof. unfold lru_ok. now intros ->. Qed.

Lemma cache_miss_ok (now : Z) (o : ObjId) (path : list string) (st : State) :
  lru_ok st -> lru_ok (fst (cache_miss now o path st)).
Proof.
  intros Hok. unfold cache_miss. cbv zeta.
  destruct (isExtensible _); cbn [alloc fst snd];
    (eapply lru_ok_ext; [reflexivity|];
     apply lru_add_ok; revert Hok; now apply lru_ok_ext).
Qed.

(** Wrapping keeps the recency index within [maxSize]. *)
Lemma createAdvancedProxy_ok (cfg : ProxyConfig) (now : Z) (target : Value)
    (path : list string) (depth : Z) (st : State) :
  lru_ok st -> lru_ok (fst (createAdvancedProxy cfg now target path depth st)).
Proof.
  intros Hok. unfold createAdvancedProxy.
  destruct (as_object target) as [o|]; [|assumption].
  destruct (negb (enabled cfg)); [assumption|].
  destruct (memoryPressure_check_lru cfg now st) as [Hl _].
  destruct (memoryPressure_check cfg now st) as [st1 under]. cbn [fst] in Hl.
  assert (Hok1 : lru_ok st1) by (revert Hok; now apply lru_ok_ext).
  destruct (sheds_under_pressure cfg under path depth); [assumption|].
  destruct (skips_unselected cfg st1 path depth); [assumption|].
  destruct (proxyCache st1 !! o) as [w|].
  - cbn [fst]. unfold lru_ok, cache_hit in *. cbn.
    destruct (lru_touch_ok o now (proxyCacheLRU st1)) as [H1 [H2 H3]].
    rewrite H1, H2, H3. exact Hok1.
  - destruct (selectiveProxying cfg && _); [assumption|].
    now apply cache_miss_ok.
Qed.

Lemma wrap_all_ok (cfg : ProxyConfig) (now : Z) (targets : list Value) (st : State) :
  lru_ok st -> lru_ok (wrap_all cfg now targets st).
Proof.
  revert now st. induction targets as [|t r IH]; intros now st H; [assumption|].
  cbn [wrap_all]. apply IH. now apply createAdvancedProxy_ok.
Qed.

End ProxyFacts.

Module WrapFacts.
Import Js Proxy Notions ProxyFacts.

Lemma gates_closed_at_root (cfg : ProxyConfig) (now : Z) (path : list string)
    (depth : Z) (st : State) :
  (depth <= 0)%Z -> gated cfg now path depth st = false.
Proof.
  intros Hd. unfold gated, sheds_under_pressure, skips_unselected.
  destruct (memoryPressure_check cfg now st) as [st1 under].
  assert (E : (0 <? depth)%Z = false) by (apply Z.ltb_ge; lia).
  rewrite E. now rewrite !andb_false_r.
Qed.

Lemma createAdvancedProxy_hit (cfg : ProxyConfig) (now : Z) (o w : ObjId)
    (path : list string) (depth : Z) (st : State) :
  enabled cfg = true ->
  gated cfg now path depth st = false ->
  proxyCache st !! o = Some w ->
  createAdvancedProxy cfg now (VObject o) path depth st
  = (cache_hit now o (fst (memoryPressure_check cfg now st)), VObject w).
Proof.
  intros He Hg Hc. unfold createAdvancedProxy, gated in *. cbn [as_object].
  rewrite He. cbn [negb].
  destruct (memoryPressure_check_lru cfg now st) as [_ [Hcache _]].
  destruct (memoryPressure_check cfg now st) as [st1 under]. cbn [fst] in *.
  apply orb_false_iff in Hg as [-> ->]. now rewrite Hcache, Hc.
Qed.

Lemma touch_refreshes (o : ObjId) (now : Z) (l : LRU) (i : nat) :
  findIndex o (keys l) = Some i -> i < length (timestamp l) ->
  timestamp (lru_touch o now l) !! i = Some now
  /\ keys (lru_touch o now l) = keys l.
Proof.
  intros Hf Hi. unfold lru_touch. rewrite Hf. cbn.
  split; [now apply list_lookup_insert_eq | reflexivity].
Qed.

(** Eviction only removes from the cache. *)
Lemma evictOldest_cache (st : State) (o w : ObjId) :
  proxyCache (evictOldest st) !! o = Some w -> proxyCache st !! o = Some w.
Proof.
  unfold evictOldest. cbv zeta.
  destruct (keys (proxyCacheLRU st)); [auto|].
  destruct (_ !! oldestIndex _) as [old|]; [|auto].
  destruct (decide _); [|auto]. cbn.
  intros H. apply lookup_delete_Some in H. tauto.
Qed.

Lemma lru_add_cache (key : ObjId) (now : Z) (st : State) (o w : ObjId) :
  proxyCache (lru_add key now st) !! o = Some w -> proxyCache st !! o = Some w.
Proof.
  unfold lru_add. cbv zeta.
  destruct (findIndex key _); [auto|].
  match goal with |- context [if ?c then _ else _] => destruct c end; [|auto].
  intros H. now apply evictOldest_cache in H.
Qed.

(** What a call that passes the two rules returns, when afterwards a
    wrapper is cached for the target. *)
Lemma createAdvancedProxy_returns_cached (cfg : ProxyConfig) (now : Z) (o w : ObjId)
    (path : list string) (depth : Z) (st : State) :
  enabled cfg = true ->
  gated cfg now path depth st = false ->
  o < nextId st ->
  proxyCache (fst (createAdvancedProxy cfg now (VObject o) path depth st)) !! o = Some w ->
  snd (createAdvancedProxy cfg now (VObject o) path depth st) = VObject w.
Proof.
  intros He Hg Ho. unfold createAdvancedProxy, gated in *. cbn [as_object].
  rewrite He. cbn [negb].
  destruct (memoryPressure_check_lru cfg now st) as [_ [Hcache _]].
  assert (Hnext : nextId (fst (memoryPressure_check cfg now st)) = nextId st).
  { unfold memoryPressure_check. cbv zeta.
    destruct (negb (forceMemoryCheck cfg) && _); [reflexivity|].
    destruct (aggressiveMemoryManagement cfg && _); reflexivity. }
  destruct (memoryPressure_check cfg now st) as [st1 under]. cbn [fst] in *.
  apply orb_false_iff in Hg as [-> ->].
  destruct (proxyCache st1 !! o) as [w0|] eqn:Ec.
  - cbn. rewrite Ec. now intros [= ->].
  - destruct (selectiveProxying cfg && _); [cbn; congruence|].
    unfold cache_miss. cbv zeta.
    destruct (isExtensible _); cbn [alloc fst snd].
    + intros H. cbn in H. apply lru_add_cache in H. cbn in H.
      rewrite lookup_insert_eq in H. injection H as H. now rewrite <- H.
    + intros H. cbn in H. apply lru_add_cache in H. cbn in H.
      rewrite lookup_insert_ne in H by lia. congruence.
Qed.

End WrapFacts.

Module WrapClaims.
Import Js Proxy Notions ProxyFacts WrapFacts.

(** C4, as stated, fails: with ultra-selective wrapping on, an object
    wrapped at depth 0 has a cached wrapper, and wrapping it again at
    depth 1 on a path no selector has read returns the object itself,
    not the wrapper, and touches neither the hit counter nor the recency
    index. *)
Lemma wrap_cached_counterexample :
  let cfg := ultraSelective defaultProxyConfig in
  let st0 := fst (new_object false true state_at_load) in
  let o := snd (new_object false true state_at_load) in
  let r1 := createAdvancedProxy cfg 10 (VObject o) ["user"] 0 st0 in
  let r2 := createAdvancedProxy cfg 20 (VObject o) ["user"] 1 (fst r1) in
  (exists w, proxyCache (fst r1) !! o = Some w /\ snd r1 = VObject w /\ w <> o)
  /\ snd r2 = VObject o
  /\ snd r2 <> snd r1
  /\ cacheHits (fst r2) = cacheHits (fst r1)
  /\ proxyCacheLRU (fst r2) = proxyCacheLRU (fst r1).
Proof.
  cbv zeta. split; [|split; [|split; [|split]]].
  - exists 1. vm_compute. repeat split. lia.
  - vm_compute. reflexivity.
  - vm_compute. discriminate.
  - vm_compute. reflexivity.
  - vm_compute. reflexivity.
Qed.

(** C4, amended. [createAdvancedProxy] returns its argument when that is
    not an object or when wrapping is disabled. Otherwise, when neither
    the memory-pressure rule nor the ultra-selective rule returns the
    argument first (they never do at depth 0), a wrapper cached for the
    identity of the argument is returned, the hit is counted and the
    recency marker of the entry is set to the current time. So two calls
    for the same existing object that both pass the two rules return the
    identical wrapper whenever one is cached for the object after the
    first call. *)
Theorem createAdvancedProxy_spec
    (cfg : ProxyConfig) (now : Z) (target : Value) (path : list string)
    (depth : Z) (st : State) :
  (as_object target = None ->
   createAdvancedProxy cfg now target path depth st = (st, target))
  /\ (enabled cfg = false ->
      createAdvancedProxy cfg now target path depth st = (st, target))
  /\ ((depth <= 0)%Z -> gated cfg now path depth st = false)
  /\ (forall o w,
        target = VObject o -> enabled cfg = true ->
        gated cfg now path depth st = false ->
        proxyCache st !! o = Some w ->
        let st' := fst (createAdvancedProxy cfg now target path depth st) in
        snd (createAdvancedProxy cfg now target path depth st) = VObject w
        /\ proxyCache st' = proxyCache st
        /\ cacheHits st' = (cacheHits st + 1)%Z
        /\ keys (proxyCacheLRU st') = keys (proxyCacheLRU st)
        /\ forall i, findIndex o (keys (proxyCacheLRU st)) = Some i ->
                     i < length (timestamp (proxyCacheLRU st)) ->
                     timestamp (proxyCacheLRU st') !! i = Some now)
  /\ (forall o w now2 path2 depth2,
        target = VObject o -> enabled cfg = true -> o < nextId st ->
        gated cfg now path depth st = false ->
        let r1 := createAdvancedProxy cfg now target path depth st in
        gated cfg now2 path2 depth2 (fst r1) = false ->
        proxyCache (fst r1) !! o = Some w ->
        snd r1 = VObject w
        /\ snd (createAdvancedProxy cfg now2 target path2 depth2 (fst r1)) = VObject w).
Proof.
  split; [|split; [|split; [|split]]].
  - intros H. unfold createAdvancedProxy. now rewrite H.
  - intros H. unfold createAdvancedProxy. rewrite H.
    now destruct (as_object target).
  - apply gates_closed_at_root.
  - intros o w -> He Hg Hc st'. subst st'.
    rewrite (createAdvancedProxy_hit cfg now o w path depth st He Hg Hc).
    destruct (memoryPressure_check_lru cfg now st) as [Hl [Hcache [_ Hhits]]].
    cbn [fst snd]. unfold cache_hit. cbn. rewrite Hl, Hcache, Hhits.
    split; [reflexivity|]. split; [reflexivity|]. split; [reflexivity|].
    split.
    + unfold lru_touch. now destruct (findIndex o _).
    + intros i Hf Hi. now apply touch_refreshes.
  - intros o w now2 path2 depth2 -> He Ho Hg r1 Hg2 Hc. subst r1. split.
    + now apply createAdvancedProxy_returns_cached.
    + now rewrite (createAdvancedProxy_hit cfg now2 o w path2 depth2 _ He Hg2 Hc).
Qed.

Lemma createAdvancedProxy_spec_witness :
  let st0 := fst (new_object false true state_at_load) in
  let r1 := createAdvancedProxy defaultProxyConfig 10 (VObject 0) ["user"] 0 st0 in
  snd r1 = VObject 1
  /\ snd (createAdvancedProxy defaultProxyConfig 20 (VObject 0) ["user"; "again"] 0 (fst r1))
     = VObject 1
  /\ createAdvancedProxy defaultProxyConfig 10 (VNumber 3) [] 0 st0 = (st0, VNumber 3).
Proof.
  cbv zeta.
  destruct (createAdvancedProxy_spec defaultProxyConfig 10 (VObject 0) ["user"] 0
              (fst (new_object false true state_at_load)))
    as [_ [_ [Hroot [_ Htwice]]]].
  destruct (createAdvancedProxy_spec defaultProxyConfig 10 (VNumber 3) [] 0
              (fst (new_object false true state_at_load)))
    as [Hprim _].
  assert (Hlt : 0 < nextId (fst (new_object false true state_at_load)))
    by (vm_compute; lia).
  destruct (Htwice 0 1 20%Z ["user"; "again"] 0%Z eq_refl eq_refl Hlt) as [H1 H2];
    [reflexivity | reflexivity | reflexivity |].
  split; [exact H1 | split; [exact H2 | apply Hprim; reflexivity]].
Defined.

(** Not part of C4: an object that is not extensible is cloned and the
    clone is the cache key, so each wrap of the same object makes a new
    wrapper. *)
Example frozen_object_wrapped_twice :
  let st0 := fst (new_object false false state_at_load) in
  let r1 := createAdvancedProxy defaultProxyConfig 10 (VObject 0) ["user"] 0 st0 in
  let r2 := createAdvancedProxy defaultProxyConfig 20 (VObject 0) ["user"] 0 (fst r1) in
  snd r1 = VObject 2 /\ snd r2 = VObject 4
  /\ proxyCache (fst r2) !! 0 = None.
Proof. vm_compute. auto. Qed.

End WrapClaims.

Module CacheClaims.
Import Js Proxy Notions ProxyFacts WrapFacts.

(** The recency index stays within the [maxSize] it was created with. *)
Lemma lru_within_maxSize (cfg : ProxyConfig) (now : Z) (targets : list Value) :
  (Z.of_nat (lru_size (wrap_all cfg now targets state_at_load))
   <= maxSize (proxyCacheLRU (wrap_all cfg now targets state_at_load)))%Z.
Proof.
  assert (H : lru_ok state_at_load) by (split; [reflexivity | cbn; lia]).
  apply (wrap_all_ok cfg now targets) in H. apply H.
Qed.

(** [evictOldest] on a non-empty index removes one entry, one that holds
    a smallest timestamp, from the index and from the cache. *)
Lemma evictOldest_spec (st : State) :
  length (keys (proxyCacheLRU st)) = length (timestamp (proxyCacheLRU st)) ->
  keys (proxyCacheLRU st) <> [] ->
  let i := oldestIndex (timestamp (proxyCacheLRU st)) in
  exists k t,
    keys (proxyCacheLRU st) !! i = Some k
    /\ timestamp (proxyCacheLRU st) !! i = Some t
    /\ (forall j t', timestamp (proxyCacheLRU st) !! j = Some t' -> (t <= t')%Z)
    /\ keys (proxyCacheLRU (evictOldest st)) = splice1 i (keys (proxyCacheLRU st))
    /\ timestamp (proxyCacheLRU (evictOldest st)) = splice1 i (timestamp (proxyCacheLRU st))
    /\ length (keys (proxyCacheLRU (evictOldest st))) = length (keys (proxyCacheLRU st)) - 1
    /\ proxyCache (evictOldest st) = delete k (proxyCache st).
Proof.
  intros Hlen Hne i.
  assert (Hts : timestamp (proxyCacheLRU st) <> []).
  { intros H. rewrite H in Hlen. destruct (keys (proxyCacheLRU st)); [congruence | discriminate]. }
  destruct (oldestIndex_min _ Hts) as [Hi [t [Ht Hmin]]]. fold i in Hi, Ht.
  assert (Hk : i < length (keys (proxyCacheLRU st))) by (rewrite Hlen; exact Hi).
  destruct (lookup_lt_is_Some_2 _ _ Hk) as [k Ek].
  exists k, t. split; [exact Ek|]. split; [exact Ht|]. split; [exact Hmin|].
  unfold evictOldest. cbv zeta. fold i.
  destruct (keys (proxyCacheLRU st)) as [|k0 ks] eqn:E; [congruence|].
  rewrite Ek.
  destruct (decide (is_Some (proxyCache st !! k))) as [Hs|Hn]; cbn.
  - rewrite length_splice1 by exact Hk. auto.
  - rewrite length_splice1 by exact Hk. repeat split.
    symmetry. apply delete_id. destruct (proxyCache st !! k) eqn:Ec; [|reflexivity].
    exfalso. apply Hn. eauto.
Qed.

(** C7. The bound the code keeps is not the configured one: after
    [configure({ proxy: { maxProxyCacheSize: 2 } })], wrapping three
    distinct objects leaves three entries in the recency index and
    evicts nothing, because [proxyCacheLRU.maxSize] still is the 5000
    read when the module was loaded. *)
Theorem lru_exceeds_configured_size :
  let cfg := configure_maxProxyCacheSize 2 proxyConfig_at_load in
  let st0 := fst (new_objects 3 state_at_load) in
  let objs := snd (new_objects 3 state_at_load) in
  let st := wrap_all cfg 0 objs st0 in
  maxProxyCacheSize cfg = 2%Z
  /\ lru_size st = 3
  /\ size (proxyCache st) = 3
  /\ maxSize (proxyCacheLRU st) = 5000%Z.
Proof. vm_compute. auto. Qed.

End CacheClaims.

Module FlushFacts.
Import Js Persistence FlushSpec FlushSpecMore Notions.

Lemma set_calls_app (a b : list Event) : set_calls (a ++ b) = set_calls a ++ set_calls b.
Proof. unfold set_calls. now rewrite flat_map_app. Qed.









Lemma in_set_add_str (x y : string) (l : list string) :
  In y (set_add_str x l) <-> y = x \/ In y l.
Proof.
  unfold set_add_str. destruct (existsb (String.eqb x) l) eqn:E.
  - split; [auto|]. intros [->|H]; [|assumption].
    apply existsb_exists in E as [z [Hz Hxz]]. apply String.eqb_eq in Hxz. now subst.
  - rewrite in_app_iff. cbn. intuition.
Qed.

Section Inside.
Variable cfg : PersistenceConfig.
Variable setItem : string -> Stored -> SetBehaviour.









(** ** Fuel *)





End Inside.
End FlushFacts.

Module FlushClaims.
Import Js Persistence FlushSpec FlushSpecMore Notions FlushFacts PersistenceExamples FlushExamples.



(** The flush of the example: the write of "user" throws in the adapter
    after the application wrote [todos.1] and called [flushBatch];
    "session" does not serialize; "todos" is written all the same, and
    "todos" is pending again with a new timer armed. *)
Example flush_example :
  option_map (fun s => (batch s, events s))
             (processPersistenceBatch defaultPersistenceConfig true adapter 1 pending)
  = Some ({| roots := ["todos"]; timeoutId := Some 2; isPersisting := false |},
          [EvFlushBegin ["user"; "session"; "todos"];
           EvSetItem "persisted_state_user" (SText (Some (obj [("name", JStr "Ann")])));
           EvTimerCleared 0; EvTimerSet 1; EvTimerCleared 1;
           EvSliceFailed "user";
           EvSliceFailed "session";
           EvSetItem "persisted_state_todos" (SText (Some (JObject true [("0", JStr "milk")])));
           EvFlushEnd;
           EvTimerSet 2]).
Proof. vm_compute. reflexivity. Qed.

End FlushClaims.

Module JsonFacts.
Import Js Listeners Persistence FanoutSpec Notions JsFacts ListenersFacts RegistryFacts.

Lemma map_get_app {V} (k : string) (m m' : list (string * V)) :
  map_get k (m ++ m') = match map_get k m with
                        | Some v => Some v
                        | None => map_get k m'
                        end.
Proof.
  induction m as [|[k' v] m IH]; [reflexivity|].
  cbn. destruct (String.eqb k' k); [reflexivity | assumption].
Qed.

Lemma map_get_set_same {V} (k : string) (v : V) (m : list (string * V)) :
  map_get k (map_set k v m) = Some v.
Proof.
  unfold map_set, map_has. destruct (map_get k m) as [x|] eqn:E.
  - now rewrite map_get_alter_same, E.
  - rewrite map_get_app, E. cbn. now rewrite String.eqb_refl.
Qed.

Lemma map_get_set_other {V} (k k' : string) (v : V) (m : list (string * V)) :
  k' <> k -> map_get k' (map_set k v m) = map_get k' m.
Proof.
  intros Hne. unfold map_set, map_has. destruct (map_get k m) as [x|] eqn:E.
  - now apply map_get_alter_other.
  - rewrite map_get_app. destruct (map_get k' m); [reflexivity|].
    cbn. destruct (String.eqb_spec k k'); [congruence | reflexivity].
Qed.

Lemma get_put_same (a : bool) (props : list (string * Json)) (k : string) (x : Json) :
  get_prop (put (JObject a props) k x) k = Some x.
Proof. cbn. apply map_get_set_same. Qed.

Lemma get_obj_set_same (a : bool) (props : list (string * Json)) (k : string) (x : Json) :
  get_prop (JObject a (map_set k x props)) k = Some x.
Proof. apply (get_put_same a props k x). Qed.

Ltac put_same := first [rewrite get_put_same | rewrite get_obj_set_same].

Lemma get_put_other (v : Json) (k k' : string) (x : Json) :
  k' <> k -> get_prop (put v k x) k' = get_prop v k'.
Proof.
  intros Hne. destruct v; try reflexivity. cbn. now apply map_get_set_other.
Qed.

Lemma get_prop_object (v c : Json) (k : string) :
  get_prop v k = Some c -> exists a props, v = JObject a props.
Proof. destruct v; try discriminate. eauto. Qed.

Lemma get_path_primitive (v : Json) (path : list string) :
  path <> [] -> is_object v = false -> get_path v path = None.
Proof.
  destruct path as [|s r]; [congruence|]. intros _ H.
  destruct v; try reflexivity. discriminate.
Qed.

Lemma get_path_empty_object (path : list string) :
  path <> [] -> get_path (obj []) path = None.
Proof. destruct path; [congruence | reflexivity]. Qed.

Lemma diverge_nonempty (l l' : list string) : diverge l l' -> l <> [] /\ l' <> [].
Proof. destruct 1; split; discriminate. Qed.

Lemma compare_paths (l1 l2 : list string) :
  (exists rest, l2 = l1 ++ rest)
  \/ (exists rest, rest <> [] /\ l1 = l2 ++ rest)
  \/ diverge l1 l2.
Proof.
  revert l2. induction l1 as [|s l1 IH]; intros l2.
  - left. now exists l2.
  - destruct l2 as [|s' l2].
    + right; left. exists (s :: l1). split; [discriminate | reflexivity].
    + destruct (string_dec s s') as [<-|Hne].
      * destruct (IH l2) as [[rest ->]|[[rest [Hr ->]]|Hd]].
        -- left. now exists rest.
        -- right; left. now exists rest.
        -- right; right. now constructor.
      * right; right. now constructor.
Qed.

(** ** The write of the synchronous merge *)

Lemma merge_write_cons (current : Json) (seg : string) (rest : list string) (v : Json) :
  rest <> [] ->
  merge_write current (seg :: rest) v
  = put current seg
      (merge_write (match get_prop current seg with
                    | Some (JObject a props) => JObject a props
                    | _ => obj []
                    end) rest v).
Proof. destruct rest; [congruence | reflexivity]. Qed.

Lemma merge_write_object (segs : list string) (a : bool)
    (props : list (string * Json)) (v : Json) :
  exists props', merge_write (JObject a props) segs v = JObject a props'.
Proof.
  destruct segs as [|s [|s' r]]; cbn; eauto.
Qed.

Lemma merge_write_same (segs : list string) (a : bool)
    (props : list (string * Json)) (v : Json) :
  segs <> [] ->
  get_path (merge_write (JObject a props) segs v) segs = Some v.
Proof.
  revert a props. induction segs as [|s r IH]; intros a props Hne; [congruence|].
  destruct r as [|s' r].
  - cbn [merge_write get_path]. now put_same.
  - rewrite merge_write_cons by discriminate.
    cbn [get_path]. put_same.
    destruct (get_prop (JObject a props) s) as [[]|]; apply IH; discriminate.
Qed.

Lemma merge_write_other (segs segs' : list string) (current v : Json) :
  diverge segs segs' ->
  get_path (merge_write current segs v) segs' = get_path current segs'.
Proof.
  intros Hd. revert current. induction Hd as [s s' r r' Hne|s r r' Hd IH]; intros current.
  - assert (H : exists x, merge_write current (s :: r) v = put current s x).
    { destruct r; cbn; eauto. }
    destruct H as [x ->]. cbn [get_path].
    rewrite get_put_other by congruence. reflexivity.
  - destruct (diverge_nonempty _ _ Hd) as [Hr Hr'].
    rewrite merge_write_cons by assumption. cbn [get_path].
    destruct current as [| | | | |a props];
      try (cbn; reflexivity).
    put_same; rewrite IH.
    destruct (get_prop (JObject a props) s) as [c|] eqn:E.
    + destruct c; try reflexivity;
        (rewrite get_path_empty_object by assumption;
         now rewrite get_path_primitive by (assumption || reflexivity)).
    + now apply get_path_empty_object.
Qed.

(** ** The write of the asynchronous hydration *)

Lemma hydrate_write_cons (current : Json) (seg : string) (rest : list string) (v : Json) :
  rest <> [] ->
  hydrate_write current (seg :: rest) v
  = match (match get_prop current seg with
           | None | Some JNull =>
               match set_prop current seg (obj []) with
               | Some c => Some (c, obj [])
               | None => None
               end
           | Some child => Some (current, child)
           end) with
    | None => (current, false)
    | Some (cur1, child) =>
        let '(child', ok) := hydrate_write child rest v in
        (put cur1 seg child', ok)
    end.
Proof. destruct rest; [congruence | reflexivity]. Qed.

Lemma set_prop_put (current : Json) (k : string) (x c : Json) :
  set_prop current k x = Some c ->
  c = put current k x /\ exists a props, current = JObject a props.
Proof. destruct current; try discriminate. cbn. intros [= <-]. eauto. Qed.

Lemma put_put (a : bool) (props : list (string * Json)) (k : string) (x y : Json) (k' : string) :
  get_prop (put (put (JObject a props) k x) k y) k'
  = get_prop (put (JObject a props) k y) k'.
Proof.
  destruct (string_dec k' k) as [->|Hne].
  - cbn. now rewrite !map_get_set_same.
  - rewrite !get_put_other by assumption. reflexivity.
Qed.

Lemma hydrate_write_same (segs : list string) (current t v : Json) :
  segs <> [] ->
  hydrate_write current segs v = (t, true) ->
  get_path t segs = Some v.
Proof.
  revert current t. induction segs as [|s r IH]; intros current t Hne; [congruence|].
  destruct r as [|s' r].
  - cbn [hydrate_write]. destruct (set_prop current s v) as [c|] eqn:E; [|discriminate].
    intros [= <-]. apply set_prop_put in E as [-> (a & props & ->)].
    cbn [get_path]. now put_same.
  - rewrite hydrate_write_cons by discriminate.
    destruct (get_prop current s) as [c|] eqn:E.
    + assert (Hobj := get_prop_object _ _ _ E). destruct Hobj as (a & props & ->).
      assert (Hgen : forall cur1 child,
                (let '(child', ok) := hydrate_write child (s' :: r) v in
                 (put cur1 s child', ok)) = (t, true) ->
                (exists a1 p1, cur1 = JObject a1 p1) ->
                get_path t (s :: s' :: r) = Some v).
      { intros cur1 child H (a1 & p1 & ->).
        destruct (hydrate_write child (s' :: r) v) as [child' ok] eqn:Eh.
        injection H as <- ->. cbn [get_path]. put_same.
        eapply IH; [discriminate | exact Eh]. }
      destruct c; intros H; (eapply Hgen; [exact H | eauto]).
    + destruct (set_prop current s (obj [])) as [c1|] eqn:Es; [|discriminate].
      apply set_prop_put in Es as [-> (a & props & ->)].
      destruct (hydrate_write (obj []) (s' :: r) v) as [child' ok] eqn:Eh.
      intros [= <- ->]. cbn [get_path]. put_same.
      eapply IH; [discriminate | exact Eh].
Qed.

Lemma hydrate_write_other (segs segs' : list string) (current v : Json) :
  diverge segs segs' ->
  get_path (fst (hydrate_write current segs v)) segs' = get_path current segs'.
Proof.
  intros Hd. revert current. induction Hd as [s s' r r' Hne|s r r' Hd IH]; intros current.
  - assert (H : get_prop (fst (hydrate_write current (s :: r) v)) s' = get_prop current s').
    { assert (Hne' : s' <> s) by congruence.
      destruct r as [|s2 r].
      - cbn [hydrate_write]. destruct (set_prop current s v) as [c|] eqn:E; [|reflexivity].
        apply set_prop_put in E as [-> _]. now apply get_put_other.
      - rewrite hydrate_write_cons by discriminate.
        assert (Hc : forall cur1 child,
                  get_prop cur1 s' = get_prop current s' ->
                  get_prop (fst (let '(child', ok) := hydrate_write child (s2 :: r) v in
                                 (put cur1 s child', ok))) s' = get_prop current s').
        { intros cur1 child H1. destruct (hydrate_write child (s2 :: r) v). cbn [fst].
          now rewrite get_put_other. }
        assert (Hn : get_prop
                       (fst match match set_prop current s (obj []) with
                                  | Some c => Some (c, obj [])
                                  | None => None
                                  end with
                            | Some (cur1, child) =>
                                let '(child', ok) := hydrate_write child (s2 :: r) v in
                                (put cur1 s child', ok)
                            | None => (current, false)
                            end) s' = get_prop current s').
        { destruct (set_prop current s (obj [])) as [c1|] eqn:Es; [|reflexivity].
          apply set_prop_put in Es as [-> _]. apply Hc. now apply get_put_other. }
        destruct (get_prop current s) as [c|] eqn:E; [|exact Hn].
        destruct c; try (now apply Hc). exact Hn. }
    cbn [get_path]. now rewrite H.
  - destruct (diverge_nonempty _ _ Hd) as [Hr Hr'].
    rewrite hydrate_write_cons by assumption.
    assert (Hgen : forall cur1 child,
              (exists a p, cur1 = JObject a p) ->
              get_path (fst (let '(child', ok) := hydrate_write child r v in
                             (put cur1 s child', ok))) (s :: r')
              = get_path child r').
    { intros cur1 child (a & p & ->). specialize (IH child).
      destruct (hydrate_write child r v) as [child' ok]. cbn [fst] in *.
      cbn [get_path]. now put_same. }
    assert (Hnew : get_path
                     (fst match match set_prop current s (obj []) with
                                | Some c => Some (c, obj [])
                                | None => None
                                end with
                          | Some (cur1, child) =>
                              let '(child', ok) := hydrate_write child r v in
                              (put cur1 s child', ok)
                          | None => (current, false)
                          end) (s :: r')
                   = match set_prop current s (obj []) with
                     | Some _ => None
                     | None => get_path current (s :: r')
                     end).
    { destruct (set_prop current s (obj [])) as [c1|] eqn:Es; [|reflexivity].
      apply set_prop_put in Es as [-> (a & p & ->)].
      rewrite Hgen by (cbn; eauto). now apply get_path_empty_object. }
    destruct (get_prop current s) as [c|] eqn:E.
    + destruct (get_prop_object _ _ _ E) as (a & props & ->).
      destruct c;
        try (rewrite Hgen by eauto; cbn [get_path]; now rewrite E).
      rewrite Hnew. cbn [set_prop get_path]. rewrite E.
      now rewrite get_path_primitive.
    + rewrite Hnew. destruct (set_prop current s (obj [])); [|reflexivity].
      cbn [get_path]. now rewrite E.
Qed.

Lemma hydrate_write_ok (segs : list string) (current v x : Json) :
  segs <> [] -> get_path current segs = Some x ->
  snd (hydrate_write current segs v) = true.
Proof.
  revert current. induction segs as [|s r IH]; intros current Hne; [congruence|].
  cbn [get_path]. destruct (get_prop current s) as [c|] eqn:E; [|discriminate].
  destruct (get_prop_object _ _ _ E) as (a & props & ->).
  destruct r as [|s' r].
  - intros _. reflexivity.
  - intros Hg. rewrite hydrate_write_cons by discriminate. rewrite E.
    assert (Hc : is_object c = true).
    { destruct c; try reflexivity; cbn in Hg; discriminate. }
    destruct c; try discriminate.
    specialize (IH (JObject array props0) ltac:(discriminate) Hg).
    destruct (hydrate_write (JObject array props0) (s' :: r) v). exact IH.
Qed.

End JsonFacts.

Module SliceFacts.
Import Js Listeners Persistence FanoutSpec Notions JsFacts ListenersFacts RegistryFacts JsonFacts.

(** ** Keys and paths *)

Lemma startsWith_drop (key p : string) :
  startsWith key p = true -> key = p +:+ drop_chars (String.length p) key.
Proof.
  revert key. induction p as [|c p IH]; intros key; cbn.
  - intros _. now destruct key.
  - destruct key as [|d key]; [discriminate|].
    destruct (Ascii.eqb_spec c d) as [->|]; [|discriminate].
    intros H. rewrite append_cons. f_equal. now apply IH.
Qed.

Lemma key_of_path (key : string) :
  startsWith key SLICE_PREFIX = true -> key = storage_key (path_of_key key).
Proof. intros H. now apply startsWith_drop in H. Qed.


Lemma split_no_dot_app (p r : string) :
  no_dot p = true ->
  split_dot (p +:+ r)
  = match split_dot r with
    | h :: t => (p +:+ h) :: t
    | [] => [p]
    end.
Proof.
  induction p as [|c p IH]; intros H.
  - rewrite append_nil_l. pose proof (split_dot_nonempty r).
    destruct (split_dot r); [congruence | reflexivity].
  - cbn in H. apply andb_true_iff in H as [Hc Hp].
    rewrite append_cons. cbn [split_dot].
    apply negb_true_iff in Hc. rewrite Hc, (IH Hp).
    pose proof (split_dot_nonempty r).
    destruct (split_dot r); [congruence | reflexivity].
Qed.

Lemma depth_storage_key (r : string) : depth_of (storage_key r) = depth_of r.
Proof.
  unfold depth_of.
  change (storage_key r) with (SLICE_PREFIX +:+ r).
  rewrite split_no_dot_app by reflexivity.
  pose proof (split_dot_nonempty r). destruct (split_dot r); [congruence | reflexivity].
Qed.

Lemma strict_descendant_deeper (r p : string) :
  strict_descendant r p -> depth_of p < depth_of r.
Proof.
  intros [rest ->]. unfold depth_of. rewrite split_dot_app, length_app.
  pose proof (split_dot_nonempty rest). destruct (split_dot rest); [congruence | cbn; lia].
Qed.

Lemma strict_descendant_split (r p : string) :
  strict_descendant r p <-> exists rest, rest <> [] /\ split_dot r = split_dot p ++ rest.
Proof.
  split.
  - intros [rest ->]. exists (split_dot rest). split; [apply split_dot_nonempty|].
    apply split_dot_app.
  - intros [rest [Hne H]]. exists (join_dot rest).
    rewrite <- (join_split r), H, join_dot_app, join_split; auto using split_dot_nonempty.
Qed.

Lemma is_child_spec (hyd : list string) (r : string) :
  is_child_of_hydrated hyd r = true <-> exists p, In p hyd /\ strict_descendant r p.
Proof.
  unfold is_child_of_hydrated. rewrite existsb_exists.
  split; intros [p [Hin H]]; exists p; (split; [assumption|]);
    now apply strict_descendantb_spec.
Qed.

(** Two paths are equal, one lies strictly below the other, or their
    segment arrays part ways. *)
Lemma compare_roots (r r0 : string) :
  r = r0 \/ strict_descendant r r0 \/ strict_descendant r0 r
  \/ diverge (split_dot r) (split_dot r0).
Proof.
  destruct (compare_paths (split_dot r) (split_dot r0)) as [[rest H]|[[rest [Hne H]]|H]].
  - destruct rest as [|x rest].
    + left. rewrite app_nil_r in H.
      now rewrite <- (join_split r), <- (join_split r0), H.
    + right; right; left. apply strict_descendant_split.
      exists (x :: rest). split; [discriminate | assumption].
  - right; left. apply strict_descendant_split. eauto.
  - auto.
Qed.

Lemma diverge_sym (l l' : list string) : diverge l l' -> diverge l' l.
Proof. induction 1; constructor; [congruence | assumption]. Qed.

(** ** The order of the slice keys *)

Lemma in_insert_by_depth (x y : string) (l : list string) :
  In y (insert_by_depth x l) <-> y = x \/ In y l.
Proof.
  induction l as [|z l IH]; cbn.
  - intuition.
  - destruct (depth_of x <=? depth_of z); cbn; [intuition|].
    rewrite IH. intuition.
Qed.

Lemma in_sort_by_depth (y : string) (l : list string) :
  In y (sort_by_depth l) <-> In y l.
Proof.
  induction l as [|x l IH]; cbn; [reflexivity|].
  rewrite in_insert_by_depth, IH. intuition.
Qed.

Lemma insert_sorted (x : string) (l : list string) :
  StronglySorted by_depth l -> StronglySorted by_depth (insert_by_depth x l).
Proof.
  induction 1 as [|z l Hs IH Hz]; cbn.
  - constructor; [constructor | constructor].
  - destruct (depth_of x <=? depth_of z) eqn:E.
    + apply Nat.leb_le in E. constructor; [now constructor|].
      constructor; [exact E|].
      apply List.Forall_forall. intros y Hy.
      rewrite List.Forall_forall in Hz. specialize (Hz y Hy).
      unfold by_depth in *. lia.
    + apply Nat.leb_gt in E. constructor; [assumption|].
      apply List.Forall_forall. intros y Hy. apply in_insert_by_depth in Hy as [->|Hy].
      * unfold by_depth. lia.
      * rewrite List.Forall_forall in Hz. now apply Hz.
Qed.

Lemma sort_sorted (l : list string) : StronglySorted by_depth (sort_by_depth l).
Proof. induction l; cbn; [constructor | now apply insert_sorted]. Qed.

Lemma slice_keys_spec (all : list string) :
  StronglySorted by_depth (slice_keys all)
  /\ forall k, In k (slice_keys all) <-> In k all /\ startsWith k SLICE_PREFIX = true.
Proof.
  unfold slice_keys. split; [apply sort_sorted|].
  intros k. now rewrite in_sort_by_depth, filter_In.
Qed.

End SliceFacts.

Module HydrationFacts.
Import Js Listeners Persistence FanoutSpec HydrationSpec Notions.
Import JsFacts ListenersFacts RegistryFacts JsonFacts SliceFacts FlushFacts.

Section Loop.
Variable a : Adapter.
Variable step : Hydration -> string -> Hydration.
Variable good : Json -> Prop.
Hypothesis step_spec : forall h k,
  startsWith k SLICE_PREFIX = true -> good (target h) ->
  outcome a h k (step h k) /\ good (target (step h k)).

Local Abbreviation inv := (Notions.inv a good).

Lemma depth_key (k : string) :
  startsWith k SLICE_PREFIX = true -> depth_of k = depth_of (path_of_key k).
Proof. intros H. rewrite (key_of_path k H) at 1. apply depth_storage_key. Qed.

Lemma step_inv (h : Hydration) (k : string) (rest : list string) :
  startsWith k SLICE_PREFIX = true ->
  (forall k', In k' rest -> depth_of (path_of_key k) <= depth_of (path_of_key k')) ->
  inv h (k :: rest) ->
  inv (step h k) rest /\ incl (hydratedRoots h) (hydratedRoots (step h k)).
Proof.
  intros Hk Hsorted (Hgood & Hwin & Hdepth & Hskip).
  destruct (step_spec h k Hk Hgood) as [Hout Hgood'].
  set (r := path_of_key k) in *.
  assert (Hold : forall r0, In r0 (hydratedRoots h) ->
            is_child_of_hydrated (hydratedRoots h) r = false ->
            r0 = r \/ diverge (split_dot r) (split_dot r0)).
  { intros r0 Hr0 Hchild.
    destruct (compare_roots r r0) as [->|[H|[H|H]]]; auto.
    - exfalso. apply not_true_iff_false in Hchild. apply Hchild.
      apply is_child_spec. eauto.
    - exfalso. apply strict_descendant_deeper in H.
      specialize (Hdepth r0 k Hr0 (or_introl eq_refl)). unfold r in *. lia. }
  destruct Hout as [->|v Hchild Hhyd Hget Hsame Hother|Hchild Hhyd Hnone Hother].
  - split; [|apply incl_refl].
    repeat split; auto. intros r0 k' Hr0 Hk'. apply Hdepth; [assumption | now right].
  - split; [|rewrite Hhyd; intros x Hx; apply in_set_add_str; now right].
    split; [exact Hgood'|]. split; [|split].
    + intros r0 Hr0. rewrite Hhyd in Hr0. apply in_set_add_str in Hr0.
      assert (Hr : exists v0, slice_entry a r v0
                              /\ get_path (target (step h k)) (split_dot r) = Some v0).
      { exists v. split; [|exact Hsame]. unfold slice_entry, r.
        now rewrite <- (key_of_path k Hk). }
      destruct Hr0 as [->|Hr0]; [exact Hr|].
      destruct (Hold r0 Hr0 Hchild) as [->|Hd]; [exact Hr|].
      destruct (Hwin r0 Hr0) as (v0 & Hv0 & Hg0). exists v0. split; [exact Hv0|].
      now rewrite Hother.
    + intros r0 k' Hr0 Hk'. rewrite Hhyd in Hr0. apply in_set_add_str in Hr0.
      destruct Hr0 as [->|Hr0]; [now apply Hsorted|].
      apply Hdepth; [assumption | now right].
    + intros r1 p Hp Hd Hr1. rewrite Hhyd in Hp, Hr1.
      apply in_set_add_str in Hp, Hr1.
      destruct Hp as [->|Hp], Hr1 as [->|Hr1].
      * apply strict_descendant_deeper in Hd. lia.
      * apply strict_descendant_deeper in Hd.
        specialize (Hdepth r1 k Hr1 (or_introl eq_refl)).
        unfold r in *. lia.
      * apply not_true_iff_false in Hchild. apply Hchild.
        apply is_child_spec. eauto.
      * now apply (Hskip r1 p).
  - split; [|rewrite Hhyd; apply incl_refl].
    split; [exact Hgood'|]. split; [|split].
    + intros r0 Hr0. rewrite Hhyd in Hr0.
      destruct (Hwin r0 Hr0) as (v0 & Hv0 & Hg0). exists v0. split; [exact Hv0|].
      destruct (Hold r0 Hr0 Hchild) as [Heq|Hd];
        [exfalso; unfold r in *; congruence|].
      now rewrite Hother.
    + intros r0 k' Hr0 Hk'. rewrite Hhyd in Hr0. apply Hdepth; [assumption | now right].
    + intros r1 p Hp Hd Hr1. rewrite Hhyd in Hp, Hr1. now apply (Hskip r1 p).
Qed.

Lemma loop_inv (ks : list string) (h : Hydration) :
  StronglySorted by_depth ks ->
  (forall k, In k ks -> startsWith k SLICE_PREFIX = true) ->
  inv h ks ->
  inv (fold_left step ks h) [] /\ incl (hydratedRoots h) (hydratedRoots (fold_left step ks h)).
Proof.
  revert h. induction ks as [|k ks IH]; intros h Hs Hp Hinv; cbn [fold_left].
  - split; [assumption | apply incl_refl].
  - apply StronglySorted_inv in Hs as [Hs Hk].
    rewrite List.Forall_forall in Hk.
    destruct (step_inv h k ks) as [Hinv' Hincl]; auto.
    { now apply Hp; left. }
    { intros k' Hk'. specialize (Hk k' Hk'). unfold by_depth in Hk.
      rewrite <- !depth_key; [exact Hk | apply Hp; now right | apply Hp; now left]. }
    destruct (IH (step h k) Hs) as [Hfin Hincl2]; auto.
    { intros k' Hk'. apply Hp. now right. }
    split; [exact Hfin | eapply incl_tran; eassumption].
Qed.

(** Keys whose entry the loop has to apply when no parent covers it. *)
Variable due : string -> Prop.
Hypothesis step_due : forall h k,
  startsWith k SLICE_PREFIX = true -> good (target h) -> due k ->
  covered (step h k) (path_of_key k).

Lemma covered_mono (h h' : Hydration) (r : string) :
  incl (hydratedRoots h) (hydratedRoots h') -> covered h r -> covered h' r.
Proof.
  intros Hi [H|[p [Hp Hd]]]; [left; auto | right; exists p; auto].
Qed.

Lemma loop_covers (ks : list string) (h : Hydration) (k : string) :
  StronglySorted by_depth ks ->
  (forall k, In k ks -> startsWith k SLICE_PREFIX = true) ->
  inv h ks ->
  In k ks -> due k ->
  covered (fold_left step ks h) (path_of_key k).
Proof.
  revert h. induction ks as [|k0 ks IH]; intros h Hs Hp Hinv Hin Hdue; [destruct Hin|].
  cbn [fold_left].
  assert (Hs' := Hs). apply StronglySorted_inv in Hs' as [Hs' Hk].
  rewrite List.Forall_forall in Hk.
  destruct (step_inv h k0 ks) as [Hinv' Hincl]; auto.
  { now apply Hp; left. }
  { intros k' Hk'. specialize (Hk k' Hk'). unfold by_depth in Hk.
    rewrite <- !depth_key; [exact Hk | apply Hp; now right | apply Hp; now left]. }
  assert (Hp' : forall k', In k' ks -> startsWith k' SLICE_PREFIX = true)
    by (intros k' Hk'; apply Hp; now right).
  destruct Hin as [->|Hin].
  - destruct (loop_inv ks (step h k) Hs' Hp' Hinv') as [_ Hincl2].
    eapply covered_mono; [exact Hincl2|].
    apply step_due; [apply Hp; now left | apply Hinv | assumption].
  - now apply IH.
Qed.

End Loop.

(** ** The two loops *)

Lemma put_is_obj (v : Json) (k : string) (x : Json) : is_obj v -> is_obj (put v k x).
Proof. intros (a & p & ->). cbn. unfold is_obj. eauto. Qed.

Lemma apply_blob_is_obj (entries : list (string * Json)) (t : Json) :
  is_obj t -> is_obj (apply_blob entries t).
Proof.
  unfold apply_blob. revert t. induction entries as [|e es IH]; intros t H; [assumption|].
  cbn [fold_left]. apply IH. destruct (has_prop t (fst e)); [now apply put_is_obj | assumption].
Qed.

Lemma merge_slice_spec (cfg : PersistenceConfig) (a : Adapter) (h : Hydration) (k : string) :
  startsWith k SLICE_PREFIX = true -> is_obj (target h) ->
  outcome a h k (merge_slice cfg a h k) /\ is_obj (target (merge_slice cfg a h k)).
Proof.
  intros Hk (a0 & props & Ht). unfold merge_slice.
  assert (Hsame : outcome a h k h /\ is_obj (target h))
    by (split; [now apply skipped | rewrite Ht; unfold is_obj; eauto]).
  destruct (shouldPersistPath cfg (path_of_key k)); [|exact Hsame]. cbn [negb].
  destruct (is_child_of_hydrated _ _) eqn:Ec; [exact Hsame|].
  destruct (getItem a k) as [[|[v|]]|] eqn:Eg; try exact Hsame.
  split.
  - apply (wrote a h k _ v); auto.
    + cbn. rewrite Ht. apply merge_write_same. apply split_dot_nonempty.
    + intros segs Hd. cbn. now apply merge_write_other.
  - cbn. rewrite Ht.
    destruct (merge_write_object (split_dot (path_of_key k)) a0 props v) as [p' ->].
    unfold is_obj. eauto.
Qed.

Lemma merge_slice_due (cfg : PersistenceConfig) (a : Adapter) (h : Hydration) (k : string) :
  (exists v, getItem a k = Some (SText (Some v))) ->
  shouldPersistPath cfg (path_of_key k) = true ->
  covered (merge_slice cfg a h k) (path_of_key k).
Proof.
  intros [v Hv] Hs. unfold merge_slice. rewrite Hs. cbn [negb].
  destruct (is_child_of_hydrated _ _) eqn:Ec.
  - right. now apply is_child_spec.
  - rewrite Hv. left. cbn. apply in_set_add_str. now left.
Qed.

Lemma hydrate_write_is_obj (segs : list string) (t v : Json) :
  is_obj t -> is_obj (fst (hydrate_write t segs v)).
Proof.
  intros (a0 & props & ->).
  destruct segs as [|s r]; [cbn; unfold is_obj; now eauto|].
  destruct r as [|s' r]; [cbn; unfold is_obj; now eauto|].
  rewrite hydrate_write_cons by discriminate.
  assert (H : forall cur1 child, is_obj cur1 ->
            is_obj (fst (let '(child', ok) := hydrate_write child (s' :: r) v in
                         (put cur1 s child', ok)))).
  { intros cur1 child H1. destruct (hydrate_write child (s' :: r) v). cbn [fst].
    now apply put_is_obj. }
  destruct (get_prop (JObject a0 props) s) as [c|];
    [destruct c|]; cbn [set_prop]; apply H; unfold is_obj; eauto.
Qed.

Lemma hydrate_slice_spec (a : Adapter) (h : Hydration) (k : string) :
  startsWith k SLICE_PREFIX = true -> is_obj (target h) ->
  outcome a h k (hydrate_slice a h k) /\ is_obj (target (hydrate_slice a h k)).
Proof.
  intros Hk Ht. unfold hydrate_slice.
  assert (Hsame : outcome a h k h /\ is_obj (target h))
    by (split; [now apply skipped | assumption]).
  destruct (is_child_of_hydrated _ _) eqn:Ec; [exact Hsame|].
  destruct (getItem a k) as [[|[v|]]|] eqn:Eg; try exact Hsame.
  pose proof (hydrate_write_is_obj (split_dot (path_of_key k)) (target h) v Ht) as Hobj.
  pose proof (fun segs Hd =>
                hydrate_write_other (split_dot (path_of_key k)) segs (target h) v Hd) as Hoth.
  pose proof (hydrate_write_same (split_dot (path_of_key k)) (target h)) as Hsm.
  pose proof (hydrate_write_ok (split_dot (path_of_key k)) (target h) v) as Hok.
  destruct (hydrate_write (target h) (split_dot (path_of_key k)) v) as [t ok] eqn:Ew.
  cbn [fst snd] in *. split; [|exact Hobj].
  destruct ok.
  - apply (wrote a h k _ v); auto. cbn.
    apply (Hsm t v); [apply split_dot_nonempty | exact Ew].
  - apply failed; auto. cbn.
    destruct (get_path (target h) (split_dot (path_of_key k))) as [x|] eqn:Eg'; [|reflexivity].
    specialize (Hok x (split_dot_nonempty _) eq_refl). discriminate.
Qed.

Lemma hydrate_slice_due (a : Adapter) (h : Hydration) (k : string) :
  is_obj (target h) ->
  (exists v, getItem a k = Some (SText (Some v))) ->
  depth_of (path_of_key k) = 1 ->
  covered (hydrate_slice a h k) (path_of_key k).
Proof.
  intros (a0 & props & Ht) [v Hv] Hd. unfold hydrate_slice.
  destruct (is_child_of_hydrated _ _) eqn:Ec.
  - right. now apply is_child_spec.
  - rewrite Hv. unfold depth_of in Hd.
    destruct (split_dot (path_of_key k)) as [|s [|s' r]] eqn:Es; try discriminate.
    rewrite Ht. cbn. left. apply in_set_add_str. now left.
Qed.

Lemma inv_start (a : Adapter) (good : Json -> Prop) (t : Json) (ks : list string) :
  good t -> inv a good {| target := t; hydratedRoots := [] |} ks.
Proof.
  intros H. split; [exact H|]. split; [intros r []|]. split; [intros r k []|].
  intros r p [].
Qed.

End HydrationFacts.

Module HydrationClaims.
Import Js Listeners Persistence FanoutSpec HydrationSpec Notions.
Import JsFacts ListenersFacts RegistryFacts JsonFacts SliceFacts FlushFacts HydrationFacts.
Import PersistFacts.

Lemma strict_descendant_trans (p c b : string) :
  strict_descendant p c -> strict_descendant c b -> strict_descendant p b.
Proof.
  intros [r1 ->] [r2 ->]. exists (r2 +:+ "." +:+ r1). now rewrite !append_assoc.
Qed.

Lemma first_segment (p : string) :
  let s := hd EmptyString (split_dot p) in p = s \/ strict_descendant p s.
Proof.
  cbv zeta. pose proof (join_split p) as H. pose proof (split_dot_nonempty p) as Hn.
  destruct (split_dot p) as [|s [|s' t]]; [congruence| |].
  - left. now rewrite <- H.
  - right. exists (join_dot (s' :: t)). now rewrite <- H.
Qed.

(** The root under which a persisted path is stored is itself a path
    that [shouldPersistPath] accepts. *)
Lemma persistence_root_persisted (cfg : PersistenceConfig) (p : string) :
  shouldPersistPath cfg p = true ->
  shouldPersistPath cfg (getPersistenceRoot cfg p) = true.
Proof.
  intros H. apply shouldPersistPath_cases in H as (He & Hb & Ha).
  apply shouldPersistPath_cases. split; [exact He|].
  assert (Hup : forall root, (p = root \/ strict_descendant p root) ->
                             ~ blacklisted cfg root).
  { intros root Hr [b [Hin Hbl]]. apply Hb. exists b. split; [assumption|].
    destruct Hr as [->|Hr]; [assumption|]. right.
    destruct Hbl as [->|Hbl]; [assumption | eapply strict_descendant_trans; eassumption]. }
  unfold getPersistenceRoot.
  destruct (List.find _ (configured_paths cfg)) as [c|] eqn:Ef.
  - apply find_some in Ef as [Hin Hc].
    assert (Hr : p = c \/ strict_descendant p c).
    { apply orb_true_iff in Hc as [Hc|Hc].
      - left. now apply String.eqb_eq.
      - right. now apply strict_descendantb_spec. }
    split; [now apply Hup|]. right. exists c. auto.
  - pose proof (first_segment p) as Hs. cbv zeta in Hs.
    split; [now apply Hup|].
    destruct Ha as [Ha|(a & Hin & Ha)]; [now left | right].
    exists a. split; [assumption|].
    pose proof (find_none _ _ Ef a Hin) as Hn. cbn in Hn.
    apply orb_false_iff in Hn as [Hn1 Hn2].
    destruct Ha as [->|[Ha|Ha]].
    + rewrite String.eqb_refl in Hn1. discriminate.
    + apply strict_descendantb_spec in Ha. unfold strict_descendantb in Ha. congruence.
    + right; right. destruct Hs as [<-|Hs]; [assumption|].
      eapply strict_descendant_trans; eassumption.
Qed.

(** C6. In both hydration paths the full-state blob is applied first and
    the slice entries after it, parents before children. So every root
    that hydration applies ends up with the value of its own slice
    entry, whatever the blob held for it, and no entry below an applied
    root is applied. In the synchronous merge every well-formed entry of
    a root that [shouldPersistPath] accepts is applied unless an applied
    parent covers it; in the asynchronous path every well-formed entry
    of a top-level root is applied. With the blob [{user:{name:"X"}}]
    and the entry [persisted_state_user = {name:"Y"}], [user.name] is
    "Y" after either path. *)
Theorem hydration_precedence :
  (forall cfg a initialState st st' h,
     mergePersistedIntoState cfg true a initialState st = (st', Some h) ->
     slices_win a h /\ children_skipped h
     /\ forall all k v,
          allKeys a = Some all -> In k all -> startsWith k SLICE_PREFIX = true ->
          getItem a k = Some (SText (Some v)) ->
          shouldPersistPath cfg (path_of_key k) = true ->
          covered h (path_of_key k))
  /\ (forall a array props st st' h ok,
        hydrateState a (Some (JObject array props)) st = (st', Some h, ok) ->
        slices_win a h /\ children_skipped h
        /\ forall all k v,
             ok = true ->
             allKeys a = Some all -> In k all -> startsWith k SLICE_PREFIX = true ->
             getItem a k = Some (SText (Some v)) ->
             depth_of (path_of_key k) = 1 ->
             In (path_of_key k) (hydratedRoots h))
  /\ option_map (fun h => get_path (target h) ["user"; "name"])
       (snd (mergePersistedIntoState defaultPersistenceConfig true example_adapter
               example_initial not_hydrated))
     = Some (Some (JStr "Y"))
  /\ option_map (fun h => get_path (target h) ["user"; "name"])
       (snd (fst (hydrateState example_adapter (Some (obj example_initial)) not_hydrated)))
     = Some (Some (JStr "Y")).
Proof.
  split; [|split; [|split; reflexivity]].
  - intros cfg a initialState st st' h H. unfold mergePersistedIntoState in H.
    cbn [negb] in H.
    destruct (hasWarmCache a); [discriminate|].
    destruct (returnsPromises a); [discriminate|].
    destruct (allKeys a) as [all|] eqn:Ea; [|discriminate].
    injection H as _ <-.
    destruct (slice_keys_spec all) as [Hsorted Hkeys].
    assert (Hpre : forall k, In k (slice_keys all) -> startsWith k SLICE_PREFIX = true)
      by (intros k Hk; now apply Hkeys in Hk).
    assert (Hobj : is_obj (merge_blob a (obj initialState))).
    { unfold merge_blob. destruct (getItem a PERSISTED_STATE_KEY) as [[|[parsed|]]|];
        try (unfold is_obj, obj; now eauto).
      destruct (own_entries parsed); [|unfold is_obj, obj; now eauto].
      apply apply_blob_is_obj. unfold is_obj, obj. eauto. }
    pose proof (inv_start a is_obj _ (slice_keys all) Hobj) as Hinv.
    destruct (loop_inv a (merge_slice cfg a) is_obj (merge_slice_spec cfg a)
                (slice_keys all) _ Hsorted Hpre Hinv) as [(_ & Hwin & _ & Hskip) _].
    split; [exact Hwin|]. split; [exact Hskip|].
    intros all' k v [= <-] Hin Hk Hv Hs.
    apply (loop_covers a (merge_slice cfg a) is_obj (merge_slice_spec cfg a)
             (fun k => (exists v, getItem a k = Some (SText (Some v)))
                       /\ shouldPersistPath cfg (path_of_key k) = true));
      auto.
    + intros h0 k0 _ _ [Hv0 Hs0]. now apply merge_slice_due.
    + apply Hkeys. auto.
    + eauto.
  - intros a array props st st' h ok H. unfold hydrateState in H.
    assert (Hempty : forall t, slices_win a {| target := t; hydratedRoots := [] |}
                               /\ children_skipped {| target := t; hydratedRoots := [] |}).
    { intros t. split; [intros r [] | intros r p []]. }
    set (blob := match getItem a PERSISTED_STATE_KEY with
                 | Some (SText None) => None
                 | Some (SText (Some parsed)) =>
                     match own_entries parsed with
                     | Some entries => Some (apply_blob entries (JObject array props))
                     | None => None
                     end
                 | _ => Some (JObject array props)
                 end) in H.
    assert (Hblob : forall t1, blob = Some t1 -> is_obj t1).
    { subst blob. intros t1.
      destruct (getItem a PERSISTED_STATE_KEY) as [[|[parsed|]]|];
        try (intros [= <-]; unfold is_obj; now eauto); try discriminate.
      destruct (own_entries parsed); [|discriminate].
      intros [= <-]. apply apply_blob_is_obj. unfold is_obj. eauto. }
    destruct blob as [t1|].
    2:{ injection H as _ <- <-. destruct (Hempty (JObject array props)) as [H1 H2].
        split; [exact H1 | split; [exact H2 | discriminate]]. }
    specialize (Hblob t1 eq_refl).
    destruct (allKeys a) as [all|] eqn:Ea.
    2:{ injection H as _ <- <-. destruct (Hempty t1) as [H1 H2].
        split; [exact H1 | split; [exact H2|]]. intros ? ? ? _ H. discriminate H. }
    injection H as _ <- <-.
    destruct (slice_keys_spec all) as [Hsorted Hkeys].
    assert (Hpre : forall k, In k (slice_keys all) -> startsWith k SLICE_PREFIX = true)
      by (intros k Hk; now apply Hkeys in Hk).
    pose proof (inv_start a is_obj _ (slice_keys all) Hblob) as Hinv.
    destruct (loop_inv a (hydrate_slice a) is_obj (hydrate_slice_spec a)
                (slice_keys all) _ Hsorted Hpre Hinv) as [(_ & Hwin & _ & Hskip) _].
    split; [exact Hwin|]. split; [exact Hskip|].
    intros all' k v _ [= <-] Hin Hk Hv Hd.
    assert (Hcov : covered (fold_left (hydrate_slice a) (slice_keys all)
                              {| target := t1; hydratedRoots := [] |}) (path_of_key k)).
    { apply (loop_covers a (hydrate_slice a) is_obj (hydrate_slice_spec a)
               (fun k => (exists v, getItem a k = Some (SText (Some v)))
                         /\ depth_of (path_of_key k) = 1));
        auto.
      - intros h0 k0 _ Ho [Hv0 Hd0]. now apply hydrate_slice_due.
      - apply Hkeys. auto.
      - eauto. }
    destruct Hcov as [Hc|(p & Hp & Hdesc)]; [exact Hc|].
    apply strict_descendant_deeper in Hdesc. rewrite Hd in Hdesc.
    unfold depth_of in Hdesc. pose proof (split_dot_nonempty p).
    destruct (split_dot p); [congruence | cbn in Hdesc; lia].
Qed.

Lemma hydration_precedence_witness :
  exists h,
    snd (mergePersistedIntoState defaultPersistenceConfig true example_adapter
           example_initial not_hydrated) = Some h
    /\ slices_win example_adapter h
    /\ In "user" (hydratedRoots h).
Proof.
  destruct hydration_precedence as [Hsync _].
  destruct (mergePersistedIntoState defaultPersistenceConfig true example_adapter
              example_initial not_hydrated) as [st' [h|]] eqn:E;
    [|vm_compute in E; discriminate E].
  destruct (Hsync _ _ _ _ _ _ E) as [Hwin [_ Hcov]].
  exists h. split; [reflexivity|]. split; [exact Hwin|].
  destruct (Hcov ["persisted_state"; "persisted_state_user"] "persisted_state_user"
              (obj [("name", JStr "Y")]) eq_refl) as [Hc|(p & Hp & Hd)];
    try reflexivity.
  - cbn. auto.
  - exact Hc.
  - exfalso. destruct Hd as [rest Hd]. vm_compute in E.
    injection E as _ <-. cbn in Hp. destruct Hp as [<-|[]]. discriminate Hd.
Defined.

End HydrationClaims.

Module RegistryMoreFacts.
Import Js Listeners FanoutSpec Notions JsFacts ListenersFacts RegistryFacts JsonFacts.
Import Registry RegistryNotions.

Lemma map_fst_alter {V} (f : V -> V) (k : string) (m : list (string * V)) :
  map fst (map_alter f k m) = map fst m.
Proof.
  induction m as [|[k' v] m IH]; [reflexivity|].
  cbn. destruct (String.eqb k' k); cbn; [reflexivity | now rewrite IH].
Qed.

Lemma map_get_None {V} (k : string) (m : list (string * V)) :
  map_get k m = None <-> ~ In k (map fst m).
Proof.
  induction m as [|[k' v] m IH]; cbn; [tauto|].
  destruct (String.eqb_spec k' k) as [->|Hne].
  - split; [discriminate | intros H; exfalso; apply H; now left].
  - rewrite IH. split; [intros H [E|E]; [congruence | auto] | intros H E; apply H; now right].
Qed.

Lemma map_alter_absent {V} (f : V -> V) (k : string) (m : list (string * V)) :
  map_get k m = None -> map_alter f k m = m.
Proof. intros H. apply map_alter_fixed. intros v Hv. congruence. Qed.

Lemma map_alter_app {V} (f : V -> V) (k : string) (m m' : list (string * V)) :
  map_get k m = None -> map_alter f k (m ++ m') = m ++ map_alter f k m'.
Proof.
  induction m as [|[k' v] m IH]; [reflexivity|].
  cbn. destruct (String.eqb k' k); [discriminate|]. intros H. now rewrite IH.
Qed.

Lemma map_alter_alter {V} (f g : V -> V) (k : string) (m : list (string * V)) :
  map_alter g k (map_alter f k m) = map_alter (fun v => g (f v)) k m.
Proof.
  induction m as [|[k' v] m IH]; [reflexivity|].
  cbn. destruct (String.eqb k' k) eqn:E; cbn; rewrite E; [reflexivity | now rewrite IH].
Qed.

Lemma map_delete_absent {V} (k : string) (m : list (string * V)) :
  map_get k m = None -> map_delete k m = m.
Proof.
  induction m as [|[k' v] m IH]; [reflexivity|].
  unfold map_delete in *. cbn. destruct (String.eqb k' k); [discriminate|].
  intros H. cbn. now rewrite IH.
Qed.

Lemma map_delete_app {V} (k : string) (m m' : list (string * V)) :
  map_delete k (m ++ m') = map_delete k m ++ map_delete k m'.
Proof. unfold map_delete. apply List.filter_app. Qed.

Lemma set_add_spec (l l' : Listener) (s : list Listener) :
  In l' (set_add l s) <-> In l' s \/ l' = l.
Proof.
  unfold set_add. destruct (existsb (Nat.eqb l) s) eqn:E.
  - apply existsb_exists in E as [x [Hx He]]. apply Nat.eqb_eq in He. subst x.
    split; [auto | intros [H| ->]; assumption].
  - rewrite in_app_iff. cbn. split; [intros [H|[H|[]]]; auto | intros [H|H]; auto].
Qed.

Lemma set_add_new (l : Listener) (s : list Listener) :
  ~ In l s -> set_add l s = s ++ [l].
Proof.
  intros H. unfold set_add. destruct (existsb (Nat.eqb l) s) eqn:E; [|reflexivity].
  apply existsb_exists in E as [x [Hx He]]. apply Nat.eqb_eq in He. now subst x.
Qed.

Lemma set_add_old (l : Listener) (s : list Listener) :
  In l s -> set_add l s = s.
Proof.
  intros H. unfold set_add. destruct (existsb (Nat.eqb l) s) eqn:E; [reflexivity|].
  exfalso. rewrite <- not_true_iff_false in E. apply E.
  apply existsb_exists. exists l. split; [assumption | apply Nat.eqb_refl].
Qed.

Lemma set_delete_absent (l : Listener) (s : list Listener) :
  ~ In l s -> set_delete l s = s.
Proof.
  unfold set_delete. induction s as [|x s IH]; [reflexivity|]. cbn. intros H.
  destruct (Nat.eqb_spec l x) as [->|Hne]; [exfalso; apply H; now left|].
  cbn. rewrite IH; [reflexivity | intros Hin; apply H; now right].
Qed.

Lemma set_delete_app (l : Listener) (s s' : list Listener) :
  set_delete l (s ++ s') = set_delete l s ++ set_delete l s'.
Proof. unfold set_delete. apply List.filter_app. Qed.

Lemma subscribe_registry (cfg : MonitoringConfig) (path : string) (l : Listener) (st : State) :
  pathListeners (subscribe cfg path l st)
  = match map_get path (pathListeners st) with
    | Some _ => map_alter (set_add l) path (pathListeners st)
    | None => pathListeners st ++ [(path, [l])]
    end.
Proof.
  unfold subscribe, map_has, map_set, map_has. cbn [pathListeners].
  destruct (map_get path (pathListeners st)) eqn:E; [reflexivity|].
  rewrite map_alter_app by assumption. cbn. now rewrite String.eqb_refl.
Qed.

(** Membership after [subscribe] and after the closure. *)
Lemma subscribed_subscribe (cfg : MonitoringConfig) (path : string) (l : Listener)
    (st : State) (k : string) (l' : Listener) :
  subscribed (pathListeners (subscribe cfg path l st)) k l'
  <-> subscribed (pathListeners st) k l' \/ (k = path /\ l' = l).
Proof.
  unfold subscribed. rewrite subscribe_registry.
  destruct (map_get path (pathListeners st)) as [ls|] eqn:E.
  - destruct (string_dec k path) as [->|Hne].
    + rewrite map_get_alter_same, E. cbn. rewrite set_add_spec. intuition congruence.
    + rewrite map_get_alter_other by assumption. intuition congruence.
  - rewrite map_get_app. destruct (string_dec k path) as [->|Hne].
    + rewrite E. cbn. rewrite String.eqb_refl. cbn. intuition congruence.
    + destruct (map_get k (pathListeners st)); [tauto|]. cbn.
      destruct (String.eqb_spec path k); [congruence|]. cbn. intuition congruence.
Qed.

Lemma subscribed_unsubscribe (cfg : MonitoringConfig) (path : string) (l : Listener)
    (st : State) (k : string) (l' : Listener) :
  subscribed (pathListeners (unsubscribe cfg path l st)) k l'
  <-> subscribed (pathListeners st) k l' /\ ~ (k = path /\ l' = l).
Proof.
  unfold subscribed. rewrite unsubscribe_registry.
  destruct (string_dec k path) as [->|Hne].
  - rewrite after_unsubscribe_same, in_set_delete. intuition congruence.
  - rewrite after_unsubscribe_other by assumption. intuition congruence.
Qed.

Lemma registry_ok_subscribe (cfg : MonitoringConfig) (path : string) (l : Listener) (st : State) :
  registry_ok (pathListeners st) -> registry_ok (pathListeners (subscribe cfg path l st)).
Proof.
  intros [Hk Hs]. rewrite subscribe_registry.
  destruct (map_get path (pathListeners st)) as [ls|] eqn:E; split.
  - now rewrite map_fst_alter.
  - clear Hk E. induction Hs as [|[k v] m [Hne Hnd] Hm IH]; [constructor|].
    cbn. destruct (String.eqb k path); constructor; auto; cbn in *.
    split.
    + unfold set_add. destruct (existsb (Nat.eqb l) v); [assumption | now destruct v].
    + unfold set_add. destruct (existsb (Nat.eqb l) v) eqn:Ex; [assumption|].
      apply NoDup_app. split; [assumption|]. split; [|apply NoDup_singleton].
      intros x Hx Hx'. apply list_elem_of_In in Hx, Hx'. destruct Hx' as [<-|[]].
      rewrite <- not_true_iff_false in Ex. apply Ex. apply existsb_exists.
      exists l. split; [assumption | apply Nat.eqb_refl].
  - rewrite map_app. cbn. apply NoDup_app. split; [assumption|].
    split; [|apply NoDup_singleton].
    intros x Hx Hx'. apply list_elem_of_In in Hx, Hx'. destruct Hx' as [<-|[]].
    now apply map_get_None in E.
  - apply Forall_app. split; [assumption|]. constructor; [|constructor].
    cbn. split; [discriminate | apply NoDup_singleton].
Qed.

Lemma NoDup_set_delete (l : Listener) (s : list Listener) :
  NoDup s -> NoDup (set_delete l s).
Proof.
  intros H. unfold set_delete.
  apply NoDup_ListNoDup, List.NoDup_filter. now apply NoDup_ListNoDup.
Qed.

Lemma registry_ok_unsubscribe (cfg : MonitoringConfig) (path : string) (l : Listener) (st : State) :
  registry_ok (pathListeners st) -> registry_ok (pathListeners (unsubscribe cfg path l st)).
Proof.
  intros [Hk Hs]. rewrite unsubscribe_registry. unfold after_unsubscribe. cbv zeta.
  set (m1 := map_alter (set_delete l) path (pathListeners st)).
  assert (Hk1 : NoDup (map fst m1)) by (unfold m1; now rewrite map_fst_alter).
  assert (Hs1 : List.Forall (fun e => (fst e <> path -> snd e <> []) /\ NoDup (snd e)) m1).
  { unfold m1. clear Hk Hk1 m1. induction Hs as [|[k v] m [Hne Hnd] Hm IH]; [constructor|].
    cbn. destruct (String.eqb_spec k path) as [->|Hkp]; constructor; cbn.
    - split; [congruence | now apply NoDup_set_delete].
    - eapply List.Forall_impl; [|exact Hm]. intros [k' v'] [H1 H2]. cbn in *. auto.
    - auto.
    - exact IH. }
  assert (Hdel : registry_ok (map_delete path m1)).
  { split.
    - unfold map_delete. clear Hs1. induction m1 as [|[k v] m IH]; [constructor|].
      cbn in *. apply NoDup_cons in Hk1 as [Hn Hk1].
      destruct (String.eqb k path); cbn; [auto|].
      apply NoDup_cons. split; [|auto].
      intros Hin. apply Hn. apply list_elem_of_In in Hin. apply list_elem_of_In.
      apply in_map_iff in Hin as [[k' v'] [Hf Hin]]. apply filter_In in Hin as [Hin _].
      apply in_map_iff. now exists (k', v').
    - unfold map_delete. apply List.Forall_forall. intros [k v] Hin.
      apply filter_In in Hin as [Hin Hf]. cbn in Hf.
      rewrite List.Forall_forall in Hs1. destruct (Hs1 _ Hin) as [H1 H2]. cbn in *.
      split; [|assumption]. apply H1. apply negb_true_iff in Hf.
      now apply String.eqb_neq in Hf. }
  destruct (map_get path m1) as [[|x r]|] eqn:E; [exact Hdel| |].
  - split; [assumption|]. apply List.Forall_forall. intros [k v] Hin.
    rewrite List.Forall_forall in Hs1. destruct (Hs1 _ Hin) as [H1 H2]. cbn in *.
    split; [|assumption]. destruct (string_dec k path) as [->|Hne]; [|auto].
    rewrite (In_map_get _ _ _ Hk1 Hin) in E. congruence.
  - rewrite map_delete_absent in Hdel by assumption. exact Hdel.
Qed.

Lemma registry_ok_ops (cfg : MonitoringConfig) (ops : list Op) (st : State) :
  registry_ok (pathListeners st) -> registry_ok (pathListeners (apply_ops cfg ops st)).
Proof.
  revert st. induction ops as [|[p l|p l] ops IH]; intros st H; [assumption| |];
    cbn; apply IH; [now apply registry_ok_subscribe | now apply registry_ok_unsubscribe].
Qed.

Lemma count_app (m m' : PathListeners) (n : nat) :
  fold_left (fun total e => total + length (snd e)) (m ++ m') n
  = fold_left (fun total e => total + length (snd e)) m n
    + fold_left (fun total e => total + length (snd e)) m' 0.
Proof.
  revert n. induction m as [|e m IH]; intros n; cbn.
  - revert n. induction m' as [|e m' IH']; intros n; cbn; [lia|].
    rewrite IH', (IH' (length (snd e))). lia.
  - apply IH.
Qed.

Lemma count_cons (e : string * list Listener) (m : PathListeners) :
  fold_left (fun total e => total + length (snd e)) (e :: m) 0
  = length (snd e) + fold_left (fun total e => total + length (snd e)) m 0.
Proof. change (e :: m) with ([e] ++ m). rewrite count_app. reflexivity. Qed.

End RegistryMoreFacts.

Module RegistryCountFacts.
Import Js Listeners FanoutSpec Notions JsFacts ListenersFacts RegistryFacts JsonFacts.
Import Registry RegistryNotions RegistryMoreFacts.

Local Abbreviation count := (fold_left (fun total e => total + length (snd e))).

Lemma count_alter (f : list Listener -> list Listener) (path : string)
    (m : PathListeners) (ls : list Listener) :
  map_get path m = Some ls ->
  count (map_alter f path m) 0 + length ls = count m 0 + length (f ls).
Proof.
  induction m as [|[k v] m IH]; [discriminate|].
  cbn [map_get map_alter]. destruct (String.eqb k path).
  - intros [= ->]. rewrite !count_cons. cbn. lia.
  - intros H. rewrite !count_cons. cbn. specialize (IH H). lia.
Qed.

Lemma count_delete_empty (path : string) (m : PathListeners) :
  NoDup (map fst m) -> map_get path m = Some [] ->
  count (map_delete path m) 0 = count m 0.
Proof.
  induction m as [|[k v] m IH]; [discriminate|].
  cbn [map fst]. intros Hnd. apply NoDup_cons in Hnd as [Hn Hnd].
  cbn [map_get]. unfold map_delete. cbn [List.filter fst].
  destruct (String.eqb_spec k path) as [->|Hne]; cbn [negb].
  - intros [= ->]. fold (map_delete path m).
    rewrite map_delete_absent; [now rewrite count_cons|].
    apply map_get_None. intros Hin. apply Hn. now apply list_elem_of_In.
  - intros H. fold (map_delete path m). rewrite !count_cons. cbn. now rewrite IH.
Qed.

Lemma length_set_add (l : Listener) (ls : list Listener) :
  length (set_add l ls) = length ls + (if existsb (Nat.eqb l) ls then 0 else 1).
Proof.
  unfold set_add. destruct (existsb (Nat.eqb l) ls); [lia|].
  rewrite length_app. reflexivity.
Qed.

Lemma length_set_delete (l : Listener) (ls : list Listener) :
  NoDup ls ->
  length ls = length (set_delete l ls) + (if existsb (Nat.eqb l) ls then 1 else 0).
Proof.
  unfold set_delete. induction ls as [|x ls IH]; [reflexivity|].
  intros Hnd. apply NoDup_cons in Hnd as [Hn Hnd]. specialize (IH Hnd).
  cbn. destruct (Nat.eqb_spec l x) as [->|Hne]; cbn.
  - assert (E : existsb (Nat.eqb x) ls = false).
    { apply not_true_iff_false. intros H. apply existsb_exists in H as [y [Hy He]].
      apply Nat.eqb_eq in He. subst y. apply Hn. now apply list_elem_of_In. }
    rewrite E in IH. unfold Listener in *. lia.
  - unfold Listener in *. lia.
Qed.


End RegistryCountFacts.

Module RegistryExtras.
Import Js Listeners FanoutSpec Notions JsFacts ListenersFacts RegistryFacts JsonFacts.
Import Registry RegistryNotions RegistryMoreFacts RegistryCountFacts ListenersExamples.

(** Whatever calls of [subscribe] and of the closures it returned are
    made, in any order and any number of times, the registry never holds
    a path with an empty listener set, a listener twice in a set, or a
    path twice. *)
Theorem registry_always_ok (cfg : MonitoringConfig) (ops : list Op) :
  registry_ok (pathListeners (apply_ops cfg ops at_load)).
Proof.
  apply registry_ok_ops. split; constructor.
Qed.

(** [subscribe(path, l)] followed by the closure it returned gives the
    registry back as it was, order of paths and of listeners included,
    when [l] was not yet subscribed on [path]. *)
Theorem subscribe_unsubscribe_roundtrip
    (cfg : MonitoringConfig) (path : string) (l : Listener) (st : State) :
  registry_ok (pathListeners st) ->
  ~ subscribed (pathListeners st) path l ->
  pathListeners (unsubscribe cfg path l (subscribe cfg path l st)) = pathListeners st.
Proof.
  intros [Hk Hs] Hnot. rewrite unsubscribe_registry, subscribe_registry.
  unfold subscribed in Hnot. unfold after_unsubscribe. cbv zeta.
  destruct (map_get path (pathListeners st)) as [ls|] eqn:E; cbn [default] in Hnot.
  - rewrite map_alter_alter.
    assert (Hfix : map_alter (fun v => set_delete l (set_add l v)) path (pathListeners st)
                   = pathListeners st).
    { apply map_alter_fixed. intros v Hv. rewrite E in Hv. injection Hv as <-.
      rewrite set_add_new by assumption.
      rewrite set_delete_app, set_delete_absent by assumption.
      cbn. rewrite Nat.eqb_refl. cbn. apply app_nil_r. }
    rewrite Hfix, E.
    destruct ls as [|x r]; [|reflexivity].
    exfalso. apply map_get_In in E. rewrite List.Forall_forall in Hs.
    destruct (Hs _ E) as [Hne _]. now apply Hne.
  - rewrite map_alter_app by assumption. cbn [map_alter].
    rewrite String.eqb_refl. cbn [set_delete List.filter]. rewrite Nat.eqb_refl. cbn [negb].
    rewrite map_get_app, E. cbn [map_get]. rewrite String.eqb_refl.
    rewrite map_delete_app, map_delete_absent by assumption.
    unfold map_delete. cbn. rewrite String.eqb_refl. cbn. apply app_nil_r.
Qed.

Lemma subscribe_unsubscribe_roundtrip_witness :
  pathListeners (unsubscribe quiet "items" 9 (subscribe quiet "items" 9 items_state))
  = pathListeners items_state.
Proof.
  apply subscribe_unsubscribe_roundtrip.
  - split; [compute_done | repeat constructor; cbn; try discriminate; compute_done].
  - cbn. intros H. repeat (destruct H as [H|H]; [discriminate H|]). exact H.
Defined.

(** [getListenerCount] counts registrations: [subscribe] adds one when
    the listener was not yet on the path and none when it was (a second
    [subscribe] of the same callback on the same path changes nothing in
    the registry), and the closure takes one away when the listener was
    on the path and none otherwise. *)
Theorem getListenerCount_counts_registrations
    (cfg : MonitoringConfig) (path : string) (l : Listener) (st : State) :
  getListenerCount (subscribe cfg path l st)
  = getListenerCount st + (if subscribedb (pathListeners st) path l then 0 else 1)
  /\ pathListeners (subscribe cfg path l (subscribe cfg path l st))
     = pathListeners (subscribe cfg path l st)
  /\ (registry_ok (pathListeners st) ->
      getListenerCount st
      = getListenerCount (unsubscribe cfg path l st)
        + (if subscribedb (pathListeners st) path l then 1 else 0)).
Proof.
  unfold getListenerCount, subscribedb. split; [|split].
  - rewrite subscribe_registry.
    destruct (map_get path (pathListeners st)) as [ls|] eqn:E; cbn [default]; unfold id.
    + pose proof (count_alter (set_add l) path _ ls E) as H.
      rewrite length_set_add in H. unfold Listener in *; lia.
    + rewrite count_app. cbn. unfold Listener in *; lia.
  - rewrite (subscribe_registry cfg path l (subscribe cfg path l st)).
    rewrite subscribe_registry.
    destruct (map_get path (pathListeners st)) as [ls|] eqn:E.
    + rewrite map_get_alter_same, E. cbn [option_map].
      rewrite map_alter_alter. clear E.
      induction (pathListeners st) as [|[k v] m IH]; [reflexivity|].
      cbn. destruct (String.eqb k path); [|now rewrite IH].
      f_equal. f_equal. apply set_add_old. apply set_add_spec. now right.
    + rewrite map_get_app, E. cbn [map_get]. rewrite String.eqb_refl.
      rewrite map_alter_app by assumption. cbn. rewrite String.eqb_refl.
      unfold set_add. cbn. now rewrite Nat.eqb_refl.
  - intros [Hk Hs]. rewrite unsubscribe_registry. unfold after_unsubscribe. cbv zeta.
    destruct (map_get path (pathListeners st)) as [ls|] eqn:E; cbn [default]; unfold id.
    + pose proof (count_alter (set_delete l) path _ ls E) as H.
      assert (Hnd : NoDup ls).
      { apply map_get_In in E. rewrite List.Forall_forall in Hs. now destruct (Hs _ E). }
      pose proof (length_set_delete l ls Hnd) as Hl.
      rewrite map_get_alter_same, E. cbn [option_map].
      destruct (set_delete l ls) as [|x r] eqn:Ed.
      * rewrite count_delete_empty.
        -- cbn in *. unfold Listener in *; lia.
        -- now rewrite map_fst_alter.
        -- now rewrite map_get_alter_same, E, <- Ed.
      * cbn in *. unfold Listener in *; lia.
    + rewrite map_alter_absent by assumption. rewrite E. cbn. unfold Listener in *; lia.
Qed.

Lemma getListenerCount_counts_registrations_witness :
  getListenerCount items_state
  = getListenerCount (unsubscribe quiet "items" 1 items_state) + 1.
Proof.
  destruct (getListenerCount_counts_registrations quiet "items" 1 items_state)
    as [_ [_ H]].
  apply H. split; [compute_done | repeat constructor; cbn; try discriminate; compute_done].
Defined.

(** A subscriber on the empty path (the key [useScope] uses when its
    selector read nothing) is called by every notification of a
    non-empty path, when no callback throws. *)
Theorem root_subscriber_hears_every_write
    (throws : Listener -> bool) (cfg : MonitoringConfig)
    (P : list string) (l : Listener) (st : State) :
  P <> [] ->
  subscribed (pathListeners st) "" l ->
  (forall c, In c (fanout (pathListeners st) P) -> throws (snd c) = false) ->
  In ("", l) (fst (snd (notifyListeners throws cfg true P st))).
Proof.
  intros HP Hsub Hq. rewrite notifyListeners_run, (until_throw_quiet _ _ Hq). cbn [fst].
  unfold fanout. rewrite !in_app_iff. right; right; left.
  apply in_flat_map. exists []. split.
  - rewrite strict_ancestors_firstn. apply in_map_iff. exists 0. split; [reflexivity|].
    apply in_rev. rewrite rev_involutive. apply in_seq. destruct P; [congruence | cbn; lia].
  - unfold subscribers_on. cbn [join_dot]. apply in_map_iff. now exists l.
Qed.

Lemma root_subscriber_hears_every_write_witness :
  In ("", 5) (fst (snd (notifyListeners nobody_throws quiet true ["todos"; "3"; "done"]
                          items_state))).
Proof.
  apply root_subscriber_hears_every_write.
  - discriminate.
  - cbn. now left.
  - reflexivity.
Defined.

End RegistryExtras.

Module MonitoringFacts.
Import Js Listeners FanoutSpec Notions JsFacts ListenersFacts RegistryFacts JsonFacts.
Import Registry RegistryNotions RegistryMoreFacts RegistryCountFacts Monitoring.














Lemma cleanup_from_spec (entries pre : PathListeners) (c : nat) :
  NoDup (map fst (pre ++ entries)) ->
  cleanup_from entries (pre ++ entries) c
  = (pre ++ List.filter (fun e => negb (length (snd e) =? 0)) entries,
     c + length (List.filter (fun e => length (snd e) =? 0) entries)).
Proof.
  revert pre c. induction entries as [|[path ls] r IH]; intros pre c Hnd.
  - cbn. rewrite !app_nil_r. f_equal. lia.
  - cbn [cleanup_from].
    assert (Hhas : map_has path (pre ++ (path, ls) :: r) = true).
    { unfold map_has.
      destruct (map_get path (pre ++ (path, ls) :: r)) eqn:E; [reflexivity|].
      apply map_get_None in E. exfalso. apply E. rewrite map_app, in_app_iff.
      right. now left. }
    rewrite Hhas. cbn [andb List.filter snd].
    rewrite map_app in Hnd. cbn [map fst] in Hnd.
    apply NoDup_app in Hnd as (Hpre & Hdis & Hr).
    apply NoDup_cons in Hr as [Hnr Hr].
    destruct (length ls =? 0) eqn:El; cbn [negb].
    + assert (Hdel : map_delete path (pre ++ (path, ls) :: r) = pre ++ r).
      { rewrite map_delete_app. rewrite (map_delete_absent path pre).
        - unfold map_delete. cbn [List.filter fst]. rewrite String.eqb_refl. cbn [negb].
          fold (map_delete path r). rewrite map_delete_absent; [reflexivity|].
          apply map_get_None. intros Hin. apply Hnr. now apply list_elem_of_In.
        - apply map_get_None. intros Hin. apply (Hdis path).
          + now apply list_elem_of_In.
          + apply list_elem_of_In. now left. }
      rewrite Hdel, IH.
      * cbn [length]. f_equal. lia.
      * rewrite map_app. apply NoDup_app. split; [assumption|]. split; [|assumption].
        intros x Hx Hx'. apply (Hdis x Hx). apply list_elem_of_In. right.
        now apply list_elem_of_In.
    + change (pre ++ (path, ls) :: r) with (pre ++ [(path, ls)] ++ r).
      rewrite app_assoc, IH.
      * rewrite <- app_assoc. reflexivity.
      * rewrite <- app_assoc, map_app. cbn [app map fst].
        apply NoDup_app. split; [assumption|]. split; [assumption|].
        apply NoDup_cons. split; assumption.
Qed.

Lemma map_get_filter_nonempty (m : PathListeners) (k : string) :
  NoDup (map fst m) ->
  default [] (map_get k (List.filter (fun e => negb (length (snd e) =? 0)) m))
  = default [] (map_get k m).
Proof.
  induction m as [|[k' v] m IH]; [reflexivity|].
  cbn [map fst]. intros Hnd. apply NoDup_cons in Hnd as [Hn Hnd].
  cbn [List.filter snd map_get]. destruct v as [|x v]; cbn [length Nat.eqb negb].
  - destruct (String.eqb_spec k' k) as [->|Hne]; [|auto].
    cbn. assert (E : map_get k (List.filter (fun e => negb (length (snd e) =? 0)) m) = None).
    { apply map_get_None. intros Hin. apply Hn. apply list_elem_of_In.
      apply in_map_iff in Hin as [e [He Hin]]. apply filter_In in Hin as [Hin _].
      apply in_map_iff. now exists e. }
    now rewrite E.
  - cbn [map_get]. destruct (String.eqb k' k); [reflexivity | auto].
Qed.

End MonitoringFacts.

Module MonitoringExtras.
Import Js Listeners FanoutSpec Notions JsFacts ListenersFacts RegistryFacts JsonFacts.
Import Registry RegistryNotions RegistryMoreFacts RegistryCountFacts Monitoring.
Import MonitoringFacts RegistryExamples ListenersExamples.







(** A closure called a second time breaks the count: the listener that
    is left is reported as orphaned although logging was on throughout. *)
Example closure_called_twice_false_alarm :
  option_map orphanedListeners
    (checkForLeaks true (apply_ops development closure_twice at_load)) = Some 1.
Proof. reflexivity. Qed.

(** [cleanupEmptyListeners()] removes the paths whose listener set is
    empty and returns their number; the other entries keep their order,
    the counters are not touched, every notification calls the same
    callbacks as before, and a second call removes nothing. *)
Theorem cleanupEmptyListeners_spec (st : State) :
  NoDup (map fst (pathListeners st)) ->
  let st' := fst (cleanupEmptyListeners st) in
  pathListeners st'
  = List.filter (fun e => negb (length (snd e) =? 0)) (pathListeners st)
  /\ snd (cleanupEmptyListeners st)
     = length (List.filter (fun e => length (snd e) =? 0) (pathListeners st))
  /\ monitoringStats st' = monitoringStats st
  /\ (forall P, fanout (pathListeners st') P = fanout (pathListeners st) P)
  /\ cleanupEmptyListeners st' = (st', 0).
Proof.
  intros Hnd. unfold cleanupEmptyListeners.
  pose proof (cleanup_from_spec (pathListeners st) [] 0 Hnd) as Hc.
  cbn [app Nat.add] in Hc. rewrite Hc. clear Hc. cbn [fst snd].
  cbn [pathListeners with_listeners monitoringStats].
  set (m' := List.filter (fun e => negb (length (snd e) =? 0)) (pathListeners st)).
  assert (Hnd' : NoDup (map fst m')).
  { subst m'. clear -Hnd. induction (pathListeners st) as [|[k v] m IH]; [constructor|].
    cbn in *. apply NoDup_cons in Hnd as [Hn Hnd].
    destruct (negb (length v =? 0)); cbn; [|auto].
    apply NoDup_cons. split; [|auto]. intros Hin. apply Hn.
    apply list_elem_of_In in Hin. apply list_elem_of_In.
    apply in_map_iff in Hin as [e [He Hin]]. apply filter_In in Hin as [Hin _].
    apply in_map_iff. now exists e. }
  split; [reflexivity|]. split; [reflexivity|]. split; [reflexivity|]. split.
  - intros P. subst m'. unfold fanout, subscribers_on.
    rewrite !(map_get_filter_nonempty _ _ Hnd). f_equal. f_equal. f_equal.
    + apply flat_map_ext. intros A. now rewrite map_get_filter_nonempty.
    + unfold descendant_subscribers. clear.
      induction (pathListeners st) as [|[k v] m IH]; [reflexivity|].
      cbn [List.filter snd flat_map fst]. destruct v as [|x v]; cbn [length Nat.eqb negb].
      * rewrite IH. now destruct (strict_descendantb k (join_dot P)).
      * cbn [flat_map fst snd]. now rewrite IH.
  - pose proof (cleanup_from_spec m' [] 0 Hnd') as Hc.
    cbn [app Nat.add] in Hc. rewrite Hc. clear Hc.
    assert (Hf : List.filter (fun e => negb (length (snd e) =? 0)) m' = m'
                 /\ List.filter (fun e : string * list Listener => length (snd e) =? 0) m' = []).
    { subst m'. clear. induction (pathListeners st) as [|[k v] m [IH1 IH2]]; [auto|].
      cbn [List.filter snd]. destruct (length v =? 0) eqn:E; cbn [negb]; [auto|].
      cbn [List.filter snd]. rewrite E. cbn [negb]. rewrite IH1, IH2. auto. }
    destruct Hf as [-> ->]. reflexivity.
Qed.

Lemma cleanupEmptyListeners_spec_witness :
  cleanupEmptyListeners {| pathListeners := [("a", []); ("b", [1]); ("c", [])];
                           monitoringStats := no_stats |}
  = ({| pathListeners := [("b", [1])]; monitoringStats := no_stats |}, 2).
Proof.
  destruct (cleanupEmptyListeners_spec
              {| pathListeners := [("a", []); ("b", [1]); ("c", [])];
                 monitoringStats := no_stats |}) as (H1 & H2 & _).
  - compute_done.
  - reflexivity.
Defined.

(** After [clearAllListeners()] no notification calls anybody, the
    closures returned before it leave the registry empty, and the
    counters still hold what they held. *)
Theorem clearAllListeners_silences
    (throws : Listener -> bool) (cfg : MonitoringConfig) (st : State)
    (P : list string) (path : string) (l : Listener) :
  snd (notifyListeners throws cfg true P (clearAllListeners st)) = ([], Returned)
  /\ getListenerCount (clearAllListeners st) = 0
  /\ getActivePaths (clearAllListeners st) = []
  /\ pathListeners (unsubscribe cfg path l (clearAllListeners st)) = []
  /\ monitoringStats (clearAllListeners st) = monitoringStats st.
Proof.
  split; [|repeat split].
  rewrite notifyListeners_run. cbn [clearAllListeners with_listeners pathListeners].
  assert (H : fanout [] P = []).
  { unfold fanout, subscribers_on, descendant_subscribers. cbn.
    destruct (numeric_index P); cbn; rewrite app_nil_r;
      induction (strict_ancestors P); auto. }
  now rewrite H.
Qed.

End MonitoringExtras.

Module HooksFacts.
Import Js Listeners FanoutSpec Notions JsFacts ListenersFacts RegistryFacts.
Import Registry RegistryNotions RegistryMoreFacts Hooks.

Lemma subscribe_each (cfg : MonitoringConfig) (h : Listener) (keys : list string)
    (s : State * gset string) (k : string) (l' : Listener) :
  subscribed
    (pathListeners
       (fst (fold_left (fun s pathKey =>
                          (subscribe cfg pathKey h (fst s), {[pathKey]} ∪ snd s))
                       keys s))) k l'
  <-> subscribed (pathListeners (fst s)) k l' \/ (In k keys /\ l' = h).
Proof.
  revert s. induction keys as [|key keys IH]; intros s; cbn [fold_left].
  - cbn. tauto.
  - rewrite IH. cbn [fst]. rewrite subscribed_subscribe. cbn [In].
    intuition congruence.
Qed.

Lemma unsubscribe_each (cfg : MonitoringConfig) (h : Listener) (keys : list string)
    (st : State) (k : string) (l' : Listener) :
  subscribed
    (pathListeners (fold_left (fun st pathKey => unsubscribe cfg pathKey h st) keys st))
    k l'
  <-> subscribed (pathListeners st) k l' /\ ~ (In k keys /\ l' = h).
Proof.
  revert st. induction keys as [|key keys IH]; intros st; cbn [fold_left].
  - cbn. tauto.
  - rewrite IH, subscribed_unsubscribe. cbn [In]. split.
    + intros [[H1 H2] H3]. split; [assumption|].
      intros [[<-|H4] H5]; [apply H2; auto | apply H3; auto].
    + intros [H1 H2]. split; [split; [assumption|] |].
      * intros [-> H5]. apply H2; auto.
      * intros [H4 H5]. apply H2; auto.
Qed.

Lemma pathKeys_first (s : string) (rest : list string) :
  In s (pathKeys (s :: rest)).
Proof.
  unfold pathKeys. cbn [length Nat.ltb Nat.leb seq map]. left. reflexivity.
Qed.

End HooksFacts.

Module HooksExtras.
Import Js Listeners FanoutSpec Notions JsFacts ListenersFacts RegistryFacts.
Import Registry RegistryNotions RegistryMoreFacts Hooks HooksFacts ListenersExamples.

(** A component whose selector read at least one property is subscribed
    on the first tracked segment, so its handler is called by the
    notification of every path that begins with that segment (when no
    callback throws), whatever else the selector read. *)
Theorem useScope_hears_writes_under_first_segment
    (throws : Listener -> bool) (cfg : MonitoringConfig) (handleChange : Listener)
    (segment : string) (rest more : list string) (st : State) (sp : gset string) :
  let st' := fst (effect cfg handleChange (segment :: rest) (st, sp)) in
  (forall c, In c (fanout (pathListeners st') (segment :: more)) -> throws (snd c) = false) ->
  In (segment, handleChange)
     (fst (snd (notifyListeners throws cfg true (segment :: more) st'))).
Proof.
  intros st' Hq. rewrite notifyListeners_run, (until_throw_quiet _ _ Hq). cbn [fst].
  assert (Hsub : subscribed (pathListeners st') segment handleChange).
  { subst st'. unfold effect. apply subscribe_each. right.
    split; [apply pathKeys_first | reflexivity]. }
  assert (Hin : In (segment, handleChange) (subscribers_on (pathListeners st') segment)).
  { unfold subscribers_on. apply in_map_iff. now exists handleChange. }
  unfold fanout. rewrite !in_app_iff. destruct more as [|m more].
  - left. exact Hin.
  - right; right; left. apply in_flat_map. exists [segment]. split; [|exact Hin].
    rewrite strict_ancestors_firstn. apply in_map_iff. exists 1. split; [reflexivity|].
    apply in_rev. rewrite rev_involutive. apply in_seq. cbn. lia.
Qed.

Lemma useScope_hears_writes_under_first_segment_witness :
  In ("user", 7)
     (fst (snd (notifyListeners nobody_throws quiet true ["user"; "age"]
                  (fst (effect quiet 7 ["user"; "name"] (empty_state, ∅)))))).
Proof.
  apply (useScope_hears_writes_under_first_segment nobody_throws quiet 7 "user"
           ["name"] ["age"] empty_state ∅).
  reflexivity.
Defined.

(** The cleanup of the effect of [useScope] takes the handler off every
    key the effect subscribed it on and leaves every other subscription
    as it was before the effect. *)
Theorem useScope_cleanup_restores
    (cfg : MonitoringConfig) (handleChange : Listener) (trackedPaths : list string)
    (st : State) (sp : gset string) (k : string) (l : Listener) :
  subscribed
    (pathListeners
       (cleanup cfg handleChange trackedPaths
          (fst (effect cfg handleChange trackedPaths (st, sp))))) k l
  <-> subscribed (pathListeners st) k l
      /\ ~ (In k (pathKeys trackedPaths) /\ l = handleChange).
Proof.
  unfold cleanup, effect. rewrite unsubscribe_each, subscribe_each. cbn [fst].
  tauto.
Qed.

End HooksExtras.

Module SelectorFacts.
Import Js Tracking Notions TrackingFacts Selectors.

Section Facts.
Variable maxPathLength : Z.

Lemma captured_recorded (path : list string) :
  captured_by maxPathLength path
  = if recorded maxPathLength path then [List.last path EmptyString] else [].
Proof.
  unfold captured_by, recorded.
  assert (H : forall d, List.last (map Some path) d
              = match path with [] => d | _ => Some (List.last path EmptyString) end).
  { induction path as [|x [|y r] IH]; intros d; [reflexivity | reflexivity|].
    change (List.last (map Some (x :: y :: r)) d) with (List.last (map Some (y :: r)) d).
    rewrite IH. reflexivity. }
  rewrite H. destruct path; [reflexivity|].
  now destruct (truthy_str _ && _).
Qed.

Lemma trackPathAccess_off (path : list string) (st : State) :
  isTracking st = false \/ (0 < skipTrackingDepth st)%Z ->
  trackPathAccess maxPathLength path st = st.
Proof.
  intros [H|H]; unfold trackPathAccess.
  - now rewrite H.
  - apply Z.ltb_lt in H. rewrite H. now rewrite orb_true_r.
Qed.



Lemma run_reads_then {V} (ps : list (list string)) (k : Selector V) (st : State) :
  run maxPathLength (reads_then ps k) st
  = run maxPathLength k
      (fold_left (fun s p => trackPathAccess maxPathLength p s) ps st).
Proof.
  revert st. induction ps as [|p ps IH]; intros st; [reflexivity|].
  cbn [reads_then run fold_left]. apply IH.
Qed.

Lemma run_reads_off {V} (ps : list (list string)) (v : V) (st : State) :
  isTracking st = false ->
  run maxPathLength (reads ps v) st = (st, Some v).
Proof.
  intros H. induction ps as [|p ps IH]; [reflexivity|].
  cbn [reads run]. rewrite trackPathAccess_off by (now left). exact IH.
Qed.

Lemma trackPathAccess_sets (path : list string) (st : State) (x : string) :
  isTracking st = true -> skipTrackingDepth st = 0%Z ->
  let st' := trackPathAccess maxPathLength path st in
  isTracking st' = true /\ skipTrackingDepth st' = 0%Z
  /\ (x ∈ accessedPaths st'
      <-> x ∈ accessedPaths st \/ (recorded maxPathLength path = true /\ x = join_dot path))
  /\ (x ∈ selectorPaths st'
      <-> x ∈ selectorPaths st \/ (recorded maxPathLength path = true /\ x = join_dot path)).
Proof.
  intros Ht Hd. cbv zeta. unfold trackPathAccess, recorded. rewrite Ht, Hd.
  cbn [negb orb Z.ltb Z.compare].
  destruct (List.last (map Some path) None) as [prop|].
  - destruct (truthy_str prop && (Z.of_nat (length path) <=? maxPathLength)%Z); cbn.
    + split; [auto|]. split; [auto|].
      rewrite !elem_of_union, !elem_of_singleton. split; intuition.
    + split; [auto|]. split; [auto|]. split; intuition discriminate.
  - cbn. split; [auto|]. split; [auto|]. split; intuition discriminate.
Qed.

Lemma run_reads_sets {V} (ps : list (list string)) (v : V) (st : State) (x : string) :
  isTracking st = true -> skipTrackingDepth st = 0%Z ->
  let st' := fst (run maxPathLength (reads ps v) st) in
  (x ∈ accessedPaths st'
   <-> x ∈ accessedPaths st
       \/ exists p, In p ps /\ recorded maxPathLength p = true /\ x = join_dot p)
  /\ (x ∈ selectorPaths st'
      <-> x ∈ selectorPaths st
          \/ exists p, In p ps /\ recorded maxPathLength p = true /\ x = join_dot p)
  /\ isTracking st' = true /\ skipTrackingDepth st' = 0%Z.
Proof.
  revert st. induction ps as [|p ps IH]; intros st Ht Hd; cbv zeta.
  - cbn. repeat split; auto; intros [H|[p [[] _]]]; assumption.
  - cbn [reads run].
    destruct (trackPathAccess_sets p st x Ht Hd) as (Ht' & Hd' & Ha & Hs).
    destruct (IH _ Ht' Hd') as (Ha' & Hs' & Ht'' & Hd'').
    split; [|split; [|split; assumption]].
    + rewrite Ha', Ha. cbn [In]. split.
      * intros [[H|[H1 H2]]|[q [H1 H2]]]; eauto 6.
      * intros [H|[q [[<-|H1] H2]]]; eauto 6.
    + rewrite Hs', Hs. cbn [In]. split.
      * intros [[H|[H1 H2]]|[q [H1 H2]]]; eauto 6.
      * intros [H|[q [[<-|H1] H2]]]; eauto 6.
Qed.

End Facts.
End SelectorFacts.

Module SelectorExtras.
Import Js Tracking Notions TrackingFacts Selectors SelectorFacts TrackingExamples.

(** For a selector that only reads, [trackDependencies] returns its
    value with one dependency per recorded read, in reading order and
    with repetitions: the last segment of the path read, when that
    segment has fewer than 100 characters. Tracking is off afterwards,
    and the full dot-joined path of every recorded read (also of one
    whose segment was dropped for its length) has been added to
    [accessedPaths] and to [selectorPaths], which lose nothing. *)
Theorem trackDependencies_of_reads
    (maxPathLength : Z) {V} (ps : list (list string)) (v : V) (st : State) :
  exists st',
    trackDependencies maxPathLength (reads ps v) st
    = (st', Some {| value := v;
                    paths := List.filter (fun s => String.length s <? 100)
                               (map (fun p => List.last p EmptyString)
                                    (List.filter (recorded maxPathLength) ps)) |})
    /\ isTracking st' = false /\ currentPath st' = []
    /\ (forall x,
          x ∈ accessedPaths st'
          <-> x ∈ accessedPaths st
              \/ exists p, In p ps /\ recorded maxPathLength p = true /\ x = join_dot p)
    /\ (forall x,
          x ∈ selectorPaths st'
          <-> x ∈ selectorPaths st
              \/ exists p, In p ps /\ recorded maxPathLength p = true /\ x = join_dot p).
Proof.
  assert (Ht : isTracking (start_tracking st) = true) by reflexivity.
  assert (Hd : skipTrackingDepth (start_tracking st) = 0%Z) by reflexivity.
  destruct (run_reads maxPathLength ps v (start_tracking st) Ht Hd) as [Hv Hp].
  assert (H0 : all_truthy (start_tracking st)) by constructor.
  pose proof (run_truthy maxPathLength (reads ps v) (start_tracking st) H0) as Htr.
  unfold trackDependencies, track_with.
  destruct (run maxPathLength (reads ps v) (start_tracking st)) as [st1 r] eqn:E.
  cbn [fst snd] in *. subst r. unfold stop_tracking. cbn [currentPath].
  assert (Hsets := fun x => run_reads_sets maxPathLength ps v (start_tracking st) x Ht Hd).
  rewrite E in Hsets. cbn [fst] in Hsets.
  assert (Hpaths : List.filter keep_segment (currentPath st1)
                   = List.filter (fun s => String.length s <? 100)
                       (map (fun p => List.last p EmptyString)
                            (List.filter (recorded maxPathLength) ps))).
  { rewrite (filter_keep_truthy _ Htr), Hp. cbn [currentPath start_tracking app].
    f_equal. clear. induction ps as [|p ps IH]; [reflexivity|].
    cbn [flat_map List.filter]. rewrite captured_recorded, IH.
    now destruct (recorded maxPathLength p). }
  rewrite Hpaths.
  eexists. split; [reflexivity|]. cbn [isTracking currentPath accessedPaths selectorPaths].
  split; [reflexivity|]. split; [reflexivity|].
  split; intros x; destruct (Hsets x) as (Ha & Hs & _); [exact Ha | exact Hs].
Qed.



(** [trackDependencies] is not re-entrant: when the selector itself
    calls [trackDependencies] and that inner call returns, the outer
    call returns no dependency at all, whatever the selector read before
    and after the inner call (reads only, after it). *)
Theorem nested_trackDependencies_loses_outer
    (maxPathLength : Z) {V} (before after : list (list string))
    (inner : Selector V) (v : V) (st : State) :
  let selector := reads_then before (Track inner (reads after v)) in
  snd (trackDependencies maxPathLength selector st) = None
  \/ snd (trackDependencies maxPathLength selector st)
     = Some {| value := v; paths := [] |}.
Proof.
  intros selector. subst selector. unfold trackDependencies at 1 2, track_with at 1 2.
  rewrite run_reads_then. cbn [run]. unfold track_with.
  set (s1 := fold_left _ before (start_tracking st)).
  destruct (run maxPathLength inner (start_tracking s1)) as [s2 [x|]]; [|left; reflexivity].
  right. unfold stop_tracking at 1. 
  rewrite run_reads_off by reflexivity. reflexivity.
Qed.

End SelectorExtras.

Module ProxyMemoryFacts.
Import Js Proxy Notions ProxyFacts WrapFacts ProxyMemory ProxyNotions.

Section Sorting.
Variable ts : list Z.

Local Abbreviation older := (fun a b => (time_at ts a <= time_at ts b)%Z).

Lemma insert_by_time_perm (a : nat) (l : list nat) :
  Permutation (insert_by_time ts a l) (a :: l).
Proof.
  induction l as [|b l IH]; [reflexivity|].
  cbn. destruct (time_at ts a <=? time_at ts b)%Z; [reflexivity|].
  rewrite IH. apply perm_swap.
Qed.

Lemma sort_by_time_perm (l : list nat) : Permutation (sort_by_time ts l) l.
Proof.
  induction l as [|a l IH]; [reflexivity|].
  cbn. rewrite insert_by_time_perm. now constructor.
Qed.

Lemma insert_by_time_sorted (a : nat) (l : list nat) :
  StronglySorted older l -> StronglySorted older (insert_by_time ts a l).
Proof.
  induction 1 as [|b l Hs IH Hb]; cbn.
  - repeat constructor.
  - destruct (time_at ts a <=? time_at ts b)%Z eqn:E.
    + apply Z.leb_le in E. constructor; [now constructor|].
      constructor; [assumption|].
      eapply List.Forall_impl; [|exact Hb]. cbn. intros c Hc. lia.
    + apply Z.leb_gt in E. constructor; [assumption|].
      apply List.Forall_forall. intros c Hc.
      apply (Permutation_in _ (insert_by_time_perm a l)) in Hc.
      destruct Hc as [<-|Hc]; [lia|].
      rewrite List.Forall_forall in Hb. now apply Hb.
Qed.

Lemma sort_by_time_sorted (l : list nat) : StronglySorted older (sort_by_time ts l).
Proof.
  induction l as [|a l IH]; [constructor|]. cbn. now apply insert_by_time_sorted.
Qed.

Lemma sorted_split (l1 l2 : list nat) (a b : nat) :
  StronglySorted older (l1 ++ l2) -> In a l1 -> In b l2 ->
  (time_at ts a <= time_at ts b)%Z.
Proof.
  induction l1 as [|x l1 IH]; [intros _ []|].
  cbn. intros Hs [<-|Ha] Hb; apply StronglySorted_inv in Hs as [Hs Hx].
  - rewrite List.Forall_forall in Hx. apply Hx, in_app_iff. now right.
  - now apply IH.
Qed.

End Sorting.

Lemma at_indices_app {A} (a : list A) (i1 i2 : list nat) :
  at_indices a (i1 ++ i2) = at_indices a i1 ++ at_indices a i2.
Proof. apply omap_app. Qed.

Lemma at_indices_seq {A} (a : list A) (j n : nat) :
  j + n <= length a -> at_indices a (seq j n) = firstn n (skipn j a).
Proof.
  unfold at_indices. revert j. induction n as [|n IH]; intros j Hj; [reflexivity|].
  assert (Hlt : j < length a) by lia.
  destruct (lookup_lt_is_Some_2 a j Hlt) as [x E].
  rewrite (drop_S a x j E). cbn. rewrite E, IH by lia. reflexivity.
Qed.

Lemma at_indices_all {A} (a : list A) : at_indices a (seq 0 (length a)) = a.
Proof.
  rewrite at_indices_seq by lia. cbn [skipn]. apply firstn_all.
Qed.

Lemma at_indices_length {A} (a : list A) (idx : list nat) :
  List.Forall (fun i => i < length a) idx -> length (at_indices a idx) = length idx.
Proof.
  induction 1 as [|i idx Hi Hidx IH]; [reflexivity|].
  unfold at_indices in *. cbn. destruct (lookup_lt_is_Some_2 a i Hi) as [x ->].
  cbn. now rewrite IH.
Qed.

Lemma lookup_combine {A B} (a : list A) (b : list B) (i : nat) :
  combine a b !! i = match a !! i, b !! i with
                     | Some x, Some y => Some (x, y)
                     | _, _ => None
                     end.
Proof.
  revert b i. induction a as [|x a IH]; intros [|y b] [|i]; cbn; try reflexivity.
  - now destruct (a !! i).
  - apply IH.
Qed.

Lemma at_indices_combine {A B} (a : list A) (b : list B) (idx : list nat) :
  at_indices (combine a b) idx
  = omap (fun i => match a !! i, b !! i with
                   | Some x, Some y => Some (x, y)
                   | _, _ => None
                   end) idx.
Proof.
  unfold at_indices. induction idx as [|i idx IH]; [reflexivity|].
  cbn. now rewrite lookup_combine, IH.
Qed.

Lemma combine_at_indices {A B} (a : list A) (b : list B) (idx : list nat) :
  length a = length b ->
  List.Forall (fun i => i < length a) idx ->
  combine (at_indices a idx) (at_indices b idx) = at_indices (combine a b) idx.
Proof.
  intros Hl Hidx. rewrite at_indices_combine. unfold at_indices.
  induction Hidx as [|i idx Hi Hidx IH]; [reflexivity|].
  cbn. destruct (lookup_lt_is_Some_2 a i Hi) as [x ->].
  assert (Hi' : i < length b) by lia.
  destruct (lookup_lt_is_Some_2 b i Hi') as [y ->]. cbn. now rewrite IH.
Qed.

Lemma in_at_indices_time (ks : list ObjId) (ts : list Z) (idx : list nat) (e : ObjId * Z) :
  In e (at_indices (combine ks ts) idx) ->
  exists i, In i idx /\ ks !! i = Some (fst e) /\ snd e = time_at ts i.
Proof.
  rewrite at_indices_combine. intros H. apply list_elem_of_In in H.
  apply list_elem_of_omap in H as [i [Hi He]]. exists i.
  split; [now apply list_elem_of_In|].
  unfold time_at. destruct (ks !! i) as [k|]; [|discriminate].
  destruct (ts !! i) as [t|]; [|discriminate]. injection He as <-. auto.
Qed.

(** The first loop: the visited keys are gone from the cache, the other
    entries stay, and no more entries are counted than keys visited. *)
Lemma evict_keys_spec (ks : list ObjId) (cache : gmap ObjId ObjId) :
  (forall k, In k ks -> fst (evict_keys ks cache) !! k = None)
  /\ (forall k, ~ In k ks -> fst (evict_keys ks cache) !! k = cache !! k)
  /\ (0 <= snd (evict_keys ks cache) <= Z.of_nat (length ks))%Z.
Proof.
  unfold evict_keys.
  assert (H : forall ce : gmap ObjId ObjId * Z,
            let r := fold_left (fun ce key =>
                        if decide (is_Some (fst ce !! key))
                        then (delete key (fst ce), (snd ce + 1)%Z) else ce) ks ce in
            (forall k, In k ks -> fst r !! k = None)
            /\ (forall k, ~ In k ks -> fst r !! k = fst ce !! k)
            /\ (forall k, fst ce !! k = None -> fst r !! k = None)
            /\ (snd ce <= snd r <= snd ce + Z.of_nat (length ks))%Z).
  { induction ks as [|key ks IH]; intros ce; cbv zeta.
    - cbn. repeat split; auto; try lia; try (intros k []).
    - cbn [fold_left].
      set (ce1 := if decide (is_Some (fst ce !! key))
                  then (delete key (fst ce), (snd ce + 1)%Z) else ce).
      assert (H1 : fst ce1 !! key = None).
      { subst ce1. destruct (decide (is_Some (fst ce !! key))) as [Hs|Hn]; cbn.
        - apply lookup_delete_eq.
        - destruct (fst ce !! key) eqn:E; [|reflexivity]. exfalso. apply Hn. eauto. }
      assert (H2 : forall k, k <> key -> fst ce1 !! k = fst ce !! k).
      { intros k Hk. subst ce1. destruct (decide _); cbn; [|reflexivity].
        now apply lookup_delete_ne. }
      assert (H3 : forall k, fst ce !! k = None -> fst ce1 !! k = None).
      { intros k Hk. subst ce1. destruct (decide _); cbn; [|assumption].
        apply lookup_delete_None. now right. }
      assert (H4 : (snd ce <= snd ce1 <= snd ce + 1)%Z).
      { subst ce1. destruct (decide _); cbn; lia. }
      destruct (IH ce1) as (I1 & I2 & I3 & I4). cbv zeta in *.
      repeat split.
      + intros k [<-|Hk]; [now apply I3 | now apply I1].
      + intros k Hk. rewrite I2 by (intros Hin; apply Hk; now right).
        apply H2. intros ->. apply Hk. now left.
      + intros k Hk. apply I3. now apply H3.
      + lia.
      + cbn [length]. lia. }
  destruct (H (cache, 0%Z)) as (H1 & H2 & _ & H4). cbv zeta in *. cbn [fst snd] in *.
  repeat split; auto; lia.
Qed.

Lemma evict_count_tenths (len : nat) (a : Z) :
  evict_count len (a # 10) = (- ((- (Z.of_nat len * a)) / 10))%Z.
Proof.
  unfold evict_count, Qceiling, Qfloor. cbn. reflexivity.
Qed.

End ProxyMemoryFacts.

Module EvictionFacts.
Import Js Proxy Notions ProxyFacts WrapFacts ProxyMemory ProxyNotions ProxyMemoryFacts.

Lemma map_fst_combine {A B} (a : list A) (b : list B) :
  length a = length b -> map fst (combine a b) = a.
Proof.
  revert b. induction a as [|x a IH]; intros [|y b] H; try discriminate; [reflexivity|].
  cbn. f_equal. apply IH. now injection H.
Qed.

Lemma sorted_indices_lt (ts : list Z) (n : nat) :
  List.Forall (fun i => i < n) (sort_by_time ts (seq 0 n)).
Proof.
  apply List.Forall_forall. intros i Hi.
  apply (Permutation_in _ (sort_by_time_perm ts (seq 0 n))) in Hi.
  apply in_seq in Hi. lia.
Qed.

Lemma Forall_firstn_skipn {A} (P : A -> Prop) (n : nat) (l : list A) :
  List.Forall P l -> List.Forall P (firstn n l) /\ List.Forall P (skipn n l).
Proof.
  intros H. rewrite <- (firstn_skipn n l) in H. now apply List.Forall_app in H.
Qed.

(** What [evictPercentage] does when it evicts. *)
Lemma evictPercentage_unfold (percent : Q) (st : State) :
  (0 < evict_count (lru_size st) percent)%Z ->
  let l := proxyCacheLRU st in
  let indices := sort_by_time (timestamp l) (seq 0 (length (keys l))) in
  let n := Z.to_nat (evict_count (lru_size st) percent) in
  let ek := evict_keys (at_indices (keys l) (firstn n indices)) (proxyCache st) in
  evictPercentage percent st
  = (set_cache (fst ek) (activeCachedProxies st - snd ek)
       (set_lru {| keys := at_indices (keys l) (skipn n indices);
                   timestamp := at_indices (timestamp l) (skipn n indices);
                   maxSize := maxSize l |} st),
     snd ek).
Proof.
  intros Hc. cbv zeta. unfold evictPercentage. cbv zeta. unfold lru_size in *.
  assert (E : (evict_count (length (keys (proxyCacheLRU st))) percent <=? 0)%Z = false)
    by (apply Z.leb_gt; lia).
  rewrite E. now destruct (evict_keys _ _).
Qed.

Lemma evictPercentage_idle (percent : Q) (st : State) :
  (evict_count (lru_size st) percent <= 0)%Z ->
  evictPercentage percent st = (st, 0%Z).
Proof.
  intros Hc. unfold evictPercentage. cbv zeta. unfold lru_size in *.
  apply Z.leb_le in Hc. now rewrite Hc.
Qed.

(** The index after [evictPercentage]. *)
Lemma evictPercentage_index (percent : Q) (st : State) :
  aligned st ->
  let st' := fst (evictPercentage percent st) in
  aligned st'
  /\ lru_size st'
     = lru_size st - Nat.min (Z.to_nat (evict_count (lru_size st) percent)) (lru_size st)
  /\ maxSize (proxyCacheLRU st') = maxSize (proxyCacheLRU st)
  /\ accessedPaths st' = accessedPaths st /\ modifiedPaths st' = modifiedPaths st
  /\ subscribedPaths st' = subscribedPaths st /\ selectorPaths st' = selectorPaths st.
Proof.
  intros Ha. cbv zeta.
  destruct (Z_lt_le_dec 0 (evict_count (lru_size st) percent)) as [Hc|Hc].
  - rewrite (evictPercentage_unfold percent st Hc). cbn [fst].
    unfold aligned, lru_size in *. cbn.
    set (n := Z.to_nat _).
    pose proof (sorted_indices_lt (timestamp (proxyCacheLRU st))
                  (length (keys (proxyCacheLRU st)))) as Hlt.
    destruct (Forall_firstn_skipn _ n _ Hlt) as [_ Hrest].
    assert (Hlen : length (sort_by_time (timestamp (proxyCacheLRU st))
                             (seq 0 (length (keys (proxyCacheLRU st)))))
                   = length (keys (proxyCacheLRU st))).
    { rewrite (Permutation_length (sort_by_time_perm _ _)). apply length_seq. }
    rewrite !at_indices_length; [|now rewrite <- Ha|assumption].
    rewrite length_skipn, Hlen. repeat split; lia.
  - rewrite (evictPercentage_idle percent st Hc). cbn [fst].
    repeat split; try assumption. lia.
Qed.

End EvictionFacts.

Module EvictionExtras.
Import Js Proxy Notions ProxyFacts WrapFacts ProxyMemory ProxyNotions ProxyMemoryFacts.
Import EvictionFacts.

(** [evictPercentage(percent)] evicts the least recently touched
    entries: with [n] the smaller of [ceil(size * percent)] and the size,
    exactly [n] entries leave the index, none of them touched later than
    an entry that stays; their keys are no longer in the cache, the rest
    of the cache is untouched, the number returned counts the cache
    entries deleted (at most [n]) and is taken off
    [activeCachedProxies]; keys and timestamps stay paired. *)
Theorem evictPercentage_evicts_oldest (percent : Q) (st : State) :
  aligned st ->
  (0 < evict_count (lru_size st) percent)%Z ->
  let n := Nat.min (Z.to_nat (evict_count (lru_size st) percent)) (lru_size st) in
  let st' := fst (evictPercentage percent st) in
  let evicted := snd (evictPercentage percent st) in
  aligned st' /\ lru_size st' = lru_size st - n
  /\ maxSize (proxyCacheLRU st') = maxSize (proxyCacheLRU st)
  /\ (0 <= evicted <= Z.of_nat n)%Z
  /\ activeCachedProxies st' = (activeCachedProxies st - evicted)%Z
  /\ exists gone,
       length gone = n
       /\ Permutation (entries st) (gone ++ entries st')
       /\ (forall e e', In e gone -> In e' (entries st') -> (snd e <= snd e')%Z)
       /\ (forall k, In k (map fst gone) -> proxyCache st' !! k = None)
       /\ (forall k, ~ In k (map fst gone) -> proxyCache st' !! k = proxyCache st !! k).
Proof.
  intros Ha Hc. cbv zeta.
  destruct (evictPercentage_index percent st Ha) as (Ha' & Hsize & Hmax & _).
  split; [exact Ha'|]. split; [exact Hsize|]. split; [exact Hmax|].
  rewrite (evictPercentage_unfold percent st Hc). cbn [fst snd].
  unfold aligned, lru_size, entries in *.
  set (ks := keys (proxyCacheLRU st)) in *.
  set (ts := timestamp (proxyCacheLRU st)) in *.
  set (n := Z.to_nat (evict_count (length ks) percent)).
  set (idx := sort_by_time ts (seq 0 (length ks))).
  pose proof (sorted_indices_lt ts (length ks)) as Hlt. fold idx in Hlt.
  destruct (Forall_firstn_skipn _ n _ Hlt) as [Hfirst Hrest].
  assert (Hlen : length idx = length ks).
  { subst idx. rewrite (Permutation_length (sort_by_time_perm _ _)). apply length_seq. }
  assert (Hgone : length (at_indices ks (firstn n idx)) = Nat.min n (length ks)).
  { rewrite at_indices_length by assumption. rewrite length_firstn. lia. }
  destruct (evict_keys_spec (at_indices ks (firstn n idx)) (proxyCache st))
    as (Hdel & Hkeep & Hcount).
  split; [rewrite Hgone in Hcount; lia|].
  split; [reflexivity|].
  exists (at_indices (combine ks ts) (firstn n idx)).
  assert (Hfst : map fst (at_indices (combine ks ts) (firstn n idx))
                 = at_indices ks (firstn n idx)).
  { rewrite <- combine_at_indices by assumption.
    apply map_fst_combine. rewrite !at_indices_length; [reflexivity| |assumption].
    now rewrite <- Ha. }
  cbn [proxyCacheLRU proxyCache set_cache set_lru keys timestamp].
  split; [|split; [|split; [|split]]].
  - rewrite <- Hgone, <- Hfst. now rewrite length_map.
  - rewrite combine_at_indices by assumption.
    rewrite <- at_indices_app, firstn_skipn.
    rewrite <- (at_indices_all (combine ks ts)) at 1.
    unfold at_indices. apply omap_Permutation.
    rewrite length_combine, <- Ha, Nat.min_id. subst idx.
    symmetry. apply sort_by_time_perm.
  - intros e e' He He'. rewrite combine_at_indices in He' by assumption.
    apply in_at_indices_time in He as (i & Hi & _ & ->).
    apply in_at_indices_time in He' as (j & Hj & _ & ->).
    apply (sorted_split ts (firstn n idx) (skipn n idx)); try assumption.
    rewrite firstn_skipn. apply sort_by_time_sorted.
  - intros k Hk. rewrite Hfst in Hk. now apply Hdel.
  - intros k Hk. rewrite Hfst in Hk. now apply Hkeep.
Qed.

Lemma evictPercentage_evicts_oldest_witness :
  keys (proxyCacheLRU (fst (evictPercentage (4 # 10) five_entries))) = [14; 12; 10]
  /\ lru_size (fst (evictPercentage (4 # 10) five_entries)) = 3.
Proof.
  split; [reflexivity|].
  destruct (evictPercentage_evicts_oldest (4 # 10) five_entries) as (_ & H & _).
  - reflexivity.
  - reflexivity.
  - rewrite H. reflexivity.
Defined.

(** [optimizeMemoryUsage(aggressive)] empties [accessedPaths] and
    [modifiedPaths], leaves [selectorPaths] and [subscribedPaths] alone,
    and shrinks the recency index to a fifth of its size when aggressive
    and to three fifths otherwise (rounded down); the estimate it
    reports is the one of the state it leaves. *)
Theorem optimizeMemoryUsage_shrinks (aggressive : bool) (st : State) :
  aligned st ->
  let st' := fst (optimizeMemoryUsage aggressive st) in
  let r := snd (optimizeMemoryUsage aggressive st) in
  accessedPaths st' = ∅ /\ modifiedPaths st' = ∅
  /\ selectorPaths st' = selectorPaths st
  /\ subscribedPaths st' = subscribedPaths st
  /\ aligned st'
  /\ lru_size st' = (if aggressive then lru_size st / 5 else 3 * lru_size st / 5)
  /\ currentMemoryEstimate r = estimateMemoryUsage st'
  /\ selectorPathsRemaining r = size (selectorPaths st).
Proof.
  intros Ha. cbv zeta. unfold optimizeMemoryUsage.
  set (st1 := {| heap := heap st; nextId := nextId st; proxyCache := proxyCache st;
                 proxyPathMap := proxyPathMap st; cacheHits := cacheHits st;
                 cacheMisses := cacheMisses st;
                 totalProxiesCreated := totalProxiesCreated st;
                 activeCachedProxies := activeCachedProxies st;
                 proxyCacheLRU := proxyCacheLRU st; memoryPressure := memoryPressure st;
                 accessedPaths := ∅; modifiedPaths := ∅;
                 subscribedPaths := subscribedPaths st;
                 selectorPaths := selectorPaths st |}).
  assert (Ha1 : aligned st1) by exact Ha.
  assert (Hsz : lru_size st1 = lru_size st) by reflexivity.
  destruct aggressive.
  - destruct (evictPercentage_index (8 # 10) st1 Ha1) as (H1 & H2 & _ & H3 & H4 & H5 & H6).
    destruct (evictPercentage (8 # 10) st1) as [st2 ev]. cbn [fst snd] in *.
    cbn [currentMemoryEstimate selectorPathsRemaining].
    rewrite H3, H4, H5, H6. repeat split; try assumption.
    rewrite H2, Hsz, evict_count_tenths.
    pose proof (Z.div_mod (- (Z.of_nat (lru_size st) * 8)) 10 ltac:(lia)) as Hd.
    pose proof (Z.mod_pos_bound (- (Z.of_nat (lru_size st) * 8)) 10 ltac:(lia)) as Hm.
    pose proof (Nat.div_mod_eq (lru_size st) 5) as Hn.
    pose proof (Nat.mod_upper_bound (lru_size st) 5 ltac:(lia)) as Hu.
    lia.
  - destruct (evictPercentage_index (4 # 10) st1 Ha1) as (H1 & H2 & _ & H3 & H4 & H5 & H6).
    destruct (evictPercentage (4 # 10) st1) as [st2 ev]. cbn [fst snd] in *.
    cbn [currentMemoryEstimate selectorPathsRemaining].
    rewrite H3, H4, H5, H6. repeat split; try assumption.
    rewrite H2, Hsz, evict_count_tenths.
    pose proof (Z.div_mod (- (Z.of_nat (lru_size st) * 4)) 10 ltac:(lia)) as Hd.
    pose proof (Z.mod_pos_bound (- (Z.of_nat (lru_size st) * 4)) 10 ltac:(lia)) as Hm.
    pose proof (Nat.div_mod_eq (3 * lru_size st) 5) as Hn.
    pose proof (Nat.mod_upper_bound (3 * lru_size st) 5 ltac:(lia)) as Hu.
    lia.
Qed.

Lemma optimizeMemoryUsage_shrinks_witness :
  lru_size (fst (optimizeMemoryUsage true five_entries)) = 1
  /\ lru_size (fst (optimizeMemoryUsage false five_entries)) = 3.
Proof.
  split.
  - destruct (optimizeMemoryUsage_shrinks true five_entries) as (_ & _ & _ & _ & _ & H & _);
      [reflexivity | rewrite H; reflexivity].
  - destruct (optimizeMemoryUsage_shrinks false five_entries) as (_ & _ & _ & _ & _ & H & _);
      [reflexivity | rewrite H; reflexivity].
Defined.

End EvictionExtras.

Module WrapperFacts.
Import Js Proxy Notions ProxyFacts WrapFacts ProxyMemory ProxyNotions.

Lemma set_pressure_same (st : State) : set_pressure (memoryPressure st) st = st.
Proof. now destruct st. Qed.

(** [memoryPressure.check()] writes [memoryPressure] only. *)
Lemma memoryPressure_check_frame (cfg : ProxyConfig) (now : Z) (st : State) :
  exists mp, fst (memoryPressure_check cfg now st) = set_pressure mp st.
Proof.
  unfold memoryPressure_check. cbv zeta.
  destruct (negb (forceMemoryCheck cfg) && _).
  - exists (memoryPressure st). cbn. symmetry. apply set_pressure_same.
  - destruct (aggressiveMemoryManagement cfg && _); cbn; eauto.
Qed.

Lemma findIndex_None (key : ObjId) (ks : list ObjId) :
  findIndex key ks = None <-> ~ In key ks.
Proof.
  induction ks as [|k ks IH]; cbn; [tauto|].
  destruct (Nat.eqb_spec k key) as [->|Hne].
  - split; [discriminate | intros H; exfalso; apply H; now left].
  - destruct (findIndex key ks) eqn:E; cbn.
    + split; [discriminate|]. intros H. exfalso.
      destruct (in_dec Nat.eq_dec key ks) as [Hin|Hn]; [apply H; now right|].
      apply IH in Hn. discriminate Hn.
    + split; [|reflexivity]. intros _ [H|H]; [congruence|]. now apply IH.
Qed.

(** The loop of [evictOldest] moves on only to a strictly older entry. *)
Lemma oldest_from_first (ts : list Z) (i best : nat) (bt : Z) :
  let r := oldest_from ts i best bt in
  r = best \/ exists t, ts !! (r - i) = Some t /\ i <= r /\ (t < bt)%Z.
Proof.
  revert i best bt. induction ts as [|t ts IH]; intros i best bt; cbv zeta; cbn [oldest_from].
  - now left.
  - destruct (t <? bt)%Z eqn:E.
    + apply Z.ltb_lt in E. destruct (IH (S i) i t) as [H|(t' & H1 & H2 & H3)]; cbv zeta in *.
      * right. exists t. rewrite H, Nat.sub_diag. cbn. repeat split; [lia | assumption].
      * right. exists t'. replace (oldest_from ts (S i) i t - i)
          with (S (oldest_from ts (S i) i t - S i)) by lia.
        cbn. repeat split; [assumption | lia | lia].
    + destruct (IH (S i) best bt) as [H|(t' & H1 & H2 & H3)]; cbv zeta in *.
      * now left.
      * right. exists t'. replace (oldest_from ts (S i) best bt - i)
          with (S (oldest_from ts (S i) best bt - S i)) by lia.
        cbn. repeat split; [assumption | lia | lia].
Qed.

Lemma oldestIndex_not_last (ts : list Z) (now : Z) :
  ts <> [] -> List.Forall (fun t => (t <= now)%Z) ts ->
  oldestIndex (ts ++ [now]) < length ts.
Proof.
  intros Hne Hall. destruct ts as [|t0 ts]; [congruence|].
  assert (Hlen : oldestIndex ((t0 :: ts) ++ [now]) < length ((t0 :: ts) ++ [now])).
  { apply oldestIndex_min. discriminate. }
  rewrite length_app in Hlen. cbn [length] in *.
  destruct (Nat.eq_dec (oldestIndex ((t0 :: ts) ++ [now])) (S (length ts))) as [E|E]; [|lia].
  exfalso. cbn [app oldestIndex] in E.
  destruct (oldest_from_first (ts ++ [now]) 1 0 t0) as [H|(t & H1 & H2 & H3)]; cbv zeta in *.
  - lia.
  - rewrite E in H1. replace (S (length ts) - 1) with (length ts + 0) in H1 by lia.
    rewrite lookup_app_r in H1 by lia.
    replace (length ts + 0 - length ts) with 0 in H1 by lia. cbn in H1.
    injection H1 as <-. apply List.Forall_inv in Hall. lia.
Qed.

(** Inserting a key does not evict that key's cache entry, when the
    clock has not run backwards and the bound is at least one. *)
Lemma lru_add_keeps_new (key : ObjId) (now : Z) (st : State) (p : ObjId) :
  aligned st -> not_after now st -> (1 <= maxSize (proxyCacheLRU st))%Z ->
  proxyCache st !! key = Some p ->
  proxyCache (lru_add key now st) !! key = Some p.
Proof.
  unfold aligned, not_after. intros Ha Hn Hm Hc. unfold lru_add. cbv zeta.
  destruct (findIndex key (keys (proxyCacheLRU st))) as [i|] eqn:Ef; [exact Hc|].
  cbn [maxSize keys].
  destruct (maxSize (proxyCacheLRU st) <? _)%Z eqn:El; [|exact Hc].
  apply Z.ltb_lt in El. rewrite length_app in El. cbn [length] in El.
  unfold evictOldest. cbv zeta. cbn [proxyCacheLRU set_lru keys timestamp].
  destruct (keys (proxyCacheLRU st) ++ [key]) as [|k0 ks0] eqn:Ek.
  { now destruct (keys (proxyCacheLRU st)). }
  rewrite <- Ek. clear Ek k0 ks0.
  assert (Hts : timestamp (proxyCacheLRU st) <> []).
  { intros H. rewrite H in Ha. cbn in Ha. lia. }
  pose proof (oldestIndex_not_last _ now Hts Hn) as Hi.
  rewrite lookup_app_l by lia.
  destruct (lookup_lt_is_Some_2 (keys (proxyCacheLRU st)) _ ltac:(rewrite Ha; exact Hi))
    as [k Ek]. rewrite Ek.
  assert (Hk : k <> key).
  { intros ->. apply findIndex_None in Ef. apply Ef.
    apply list_elem_of_In. eapply list_elem_of_lookup_2. exact Ek. }
  cbn [proxyCache set_lru].
  destruct (decide (is_Some (proxyCache st !! k))); cbn [proxyCache set_lru set_cache].
  - rewrite lookup_delete_ne by assumption. exact Hc.
  - exact Hc.
Qed.

Lemma evictOldest_frame (st : State) :
  cacheHits (evictOldest st) = cacheHits st
  /\ cacheMisses (evictOldest st) = cacheMisses st
  /\ totalProxiesCreated (evictOldest st) = totalProxiesCreated st
  /\ proxyPathMap (evictOldest st) = proxyPathMap st.
Proof.
  unfold evictOldest. cbv zeta.
  destruct (keys (proxyCacheLRU st)) as [|k ks]; [auto|].
  destruct ((k :: ks) !! oldestIndex (timestamp (proxyCacheLRU st))) as [old|]; [|cbn; auto].
  destruct (decide (is_Some (proxyCache st !! old))); cbn; auto.
Qed.

Lemma lru_add_frame (key : ObjId) (now : Z) (st : State) :
  cacheHits (lru_add key now st) = cacheHits st
  /\ cacheMisses (lru_add key now st) = cacheMisses st
  /\ totalProxiesCreated (lru_add key now st) = totalProxiesCreated st
  /\ proxyPathMap (lru_add key now st) = proxyPathMap st.
Proof.
  unfold lru_add. cbv zeta.
  destruct (findIndex key (keys (proxyCacheLRU st))); [cbn; auto|].
  match goal with |- context [if ?c then _ else _] => destruct c end; [|cbn; auto].
  match goal with |- context [evictOldest ?s] => destruct (evictOldest_frame s) as (H1 & H2 & H3 & H4) end.
  rewrite H1, H2, H3, H4. cbn. auto.
Qed.

(** A cache miss on an extensible object. *)
Lemma cache_miss_extensible (now : Z) (o : ObjId) (path : list string) (st : State) :
  isExtensible (info_of o st) = true ->
  o < nextId st ->
  aligned st -> not_after now st -> (1 <= maxSize (proxyCacheLRU st))%Z ->
  let r := cache_miss now o path st in
  snd r = VObject (nextId st)
  /\ proxyCache (fst r) !! o = Some (nextId st)
  /\ proxyPathMap (fst r) = <[nextId st := path]> (proxyPathMap st)
  /\ cacheHits (fst r) = cacheHits st
  /\ cacheMisses (fst r) = (cacheMisses st + 1)%Z
  /\ totalProxiesCreated (fst r) = (totalProxiesCreated st + 1)%Z.
Proof.
  intros Hext Ho Ha Hn Hm. cbv zeta. unfold cache_miss. cbv zeta.
  unfold info_of in *. cbn [heap set_counters]. rewrite Hext.
  cbn [alloc fst snd nextId set_heap set_counters heap].
  match goal with
  | |- context [lru_add o now ?s] => set (s0 := s)
  end.
  assert (Hkeep : proxyCache (lru_add o now s0) !! o = Some (nextId st)).
  { apply lru_add_keeps_new; try assumption.
    subst s0. cbn. apply lookup_insert_eq. }
  assert (Hframe : cacheHits (lru_add o now s0) = cacheHits st
                   /\ cacheMisses (lru_add o now s0) = (cacheMisses st + 1)%Z
                   /\ totalProxiesCreated (lru_add o now s0) = (totalProxiesCreated st + 1)%Z
                   /\ proxyPathMap (lru_add o now s0) = proxyPathMap st).
  { destruct (lru_add_frame o now s0) as (F1 & F2 & F3 & F4).
    rewrite F1, F2, F3, F4. subst s0. cbn. auto. }
  destruct Hframe as (H1 & H2 & H3 & H4).
  cbn [fst snd proxyCache proxyPathMap cacheHits cacheMisses totalProxiesCreated set_pathMap].
  rewrite H4. repeat split; auto.
Qed.




Lemma add_selectors (path : list string) (idx : list nat) (st : State) (x : string) :
  let st' := fold_left (fun s i => add_selector (join_dot (slice0 i path)) s) idx st in
  (x ∈ selectorPaths st'
   <-> x ∈ selectorPaths st \/ exists i, In i idx /\ x = join_dot (slice0 i path))
  /\ proxyPathMap st' = proxyPathMap st /\ proxyCache st' = proxyCache st.
Proof.
  revert st. induction idx as [|i idx IH]; intros st; cbv zeta; cbn [fold_left].
  - split; [|auto]. split; [auto | intros [H|[i [[] _]]]; assumption].
  - destruct (IH (add_selector (join_dot (slice0 i path)) st)) as (H1 & H2 & H3).
    cbv zeta in *. rewrite H1, H2, H3. split; [|auto].
    cbn [selectorPaths add_selector]. rewrite elem_of_union, elem_of_singleton. cbn [In].
    split.
    + intros [[->|H]|[j [Hj ->]]]; eauto.
    + intros [H|[j [[<-|Hj] ->]]]; eauto.
Qed.

End WrapperFacts.

Module WrapperMissFacts.
Import Js Proxy Notions ProxyFacts WrapFacts ProxyMemory ProxyNotions WrapperFacts.

(** A call that passes the two rules and the depth limit, for an
    extensible object that has no cached wrapper. *)
Lemma createAdvancedProxy_miss (cfg : ProxyConfig) (now : Z) (o : ObjId)
    (path : list string) (depth : Z) (st : State) :
  enabled cfg = true ->
  gated cfg now path depth st = false ->
  selectiveProxying cfg && (maxDepth cfg <? depth)%Z = false ->
  proxyCache st !! o = None ->
  isExtensible (info_of o st) = true -> o < nextId st ->
  aligned st -> not_after now st -> (1 <= maxSize (proxyCacheLRU st))%Z ->
  let r := createAdvancedProxy cfg now (VObject o) path depth st in
  snd r = VObject (nextId st)
  /\ proxyCache (fst r) !! o = Some (nextId st)
  /\ proxyPathMap (fst r) = <[nextId st := path]> (proxyPathMap st)
  /\ cacheHits (fst r) = cacheHits st
  /\ cacheMisses (fst r) = (cacheMisses st + 1)%Z
  /\ totalProxiesCreated (fst r) = (totalProxiesCreated st + 1)%Z.
Proof.
  intros He Hg Hsel Hc Hext Ho Ha Hn Hm. cbv zeta.
  unfold createAdvancedProxy, gated in *. cbn [as_object]. rewrite He. cbn [negb].
  destruct (memoryPressure_check_frame cfg now st) as [mp Hmp].
  destruct (memoryPressure_check cfg now st) as [st1 under]. cbn [fst] in Hmp. subst st1.
  apply orb_false_iff in Hg as [-> ->].
  cbn [proxyCache set_pressure]. rewrite Hc, Hsel.
  apply (cache_miss_extensible now o path (set_pressure mp st)); assumption.
Qed.

End WrapperMissFacts.

Module WrapperExtras.
Import Js Proxy Notions ProxyFacts WrapFacts ProxyMemory ProxyNotions WrapperFacts.
Import WrapperMissFacts.

(** A wrapper that has just been created is in the cache: wrapping an
    existing extensible object that has no cached wrapper, in a call that
    passes the two rules and the depth limit, returns a new object, which
    is cached for the target, has the path of the call recorded, and is
    not evicted by its own insertion in the recency index, as long as the
    clock has not run backwards and the bound of the index is at least
    one. *)
Theorem new_wrapper_is_cached (cfg : ProxyConfig) (now : Z) (o : ObjId)
    (path : list string) (depth : Z) (st : State) :
  enabled cfg = true ->
  gated cfg now path depth st = false ->
  selectiveProxying cfg && (maxDepth cfg <? depth)%Z = false ->
  proxyCache st !! o = None ->
  isExtensible (info_of o st) = true -> o < nextId st ->
  aligned st -> not_after now st -> (1 <= maxSize (proxyCacheLRU st))%Z ->
  let r := createAdvancedProxy cfg now (VObject o) path depth st in
  exists w,
    snd r = VObject w /\ nextId st <= w
    /\ proxyCache (fst r) !! o = Some w
    /\ proxyPathMap (fst r) !! w = Some path
    /\ cacheMisses (fst r) = (cacheMisses st + 1)%Z
    /\ totalProxiesCreated (fst r) = (totalProxiesCreated st + 1)%Z.
Proof.
  intros He Hg Hsel Hc Hext Ho Ha Hn Hm r.
  destruct (createAdvancedProxy_miss cfg now o path depth st He Hg Hsel Hc Hext Ho Ha Hn Hm)
    as (H1 & H2 & H3 & _ & H5 & H6).
  exists (nextId st). fold r in H1, H2, H3, H5, H6.
  repeat split; try assumption; [lia|].
  rewrite H3. apply lookup_insert_eq.
Qed.

Lemma new_wrapper_is_cached_witness :
  let st0 := fst (new_object false true state_at_load) in
  let r := createAdvancedProxy defaultProxyConfig 10 (VObject 0) ["user"] 0 st0 in
  proxyCache (fst r) !! 0 = Some 1 /\ proxyPathMap (fst r) !! 1 = Some ["user"].
Proof.
  cbv zeta.
  destruct (new_wrapper_is_cached defaultProxyConfig 10 0 ["user"] 0
              (fst (new_object false true state_at_load)))
    as (w & H1 & _ & H2 & H3 & _); try reflexivity.
  - cbn. lia.
  - constructor.
  - cbn. lia.
  - assert (E : w = 1) by (vm_compute in H1; now injection H1).
    subst w. auto.
Defined.

(** A wrapper keeps the path of the call that created it: a later call
    for the same object at another path returns the same wrapper and
    leaves [proxyPathMap] as it is, so the helper methods of the wrapper
    go on notifying the first path. *)
Theorem wrapper_keeps_first_path (cfg : ProxyConfig) (now now2 : Z) (o : ObjId)
    (path path2 : list string) (depth depth2 : Z) (st : State) :
  enabled cfg = true ->
  gated cfg now path depth st = false ->
  selectiveProxying cfg && (maxDepth cfg <? depth)%Z = false ->
  proxyCache st !! o = None ->
  isExtensible (info_of o st) = true -> o < nextId st ->
  aligned st -> not_after now st -> (1 <= maxSize (proxyCacheLRU st))%Z ->
  let r1 := createAdvancedProxy cfg now (VObject o) path depth st in
  gated cfg now2 path2 depth2 (fst r1) = false ->
  let r2 := createAdvancedProxy cfg now2 (VObject o) path2 depth2 (fst r1) in
  snd r2 = snd r1
  /\ proxyPathMap (fst r2) = proxyPathMap (fst r1)
  /\ (forall w, snd r1 = VObject w -> proxyPathMap (fst r2) !! w = Some path)
  /\ cacheHits (fst r2) = (cacheHits (fst r1) + 1)%Z
  /\ cacheMisses (fst r2) = cacheMisses (fst r1).
Proof.
  intros He Hg Hsel Hc Hext Ho Ha Hn Hm r1 Hg2 r2.
  destruct (createAdvancedProxy_miss cfg now o path depth st He Hg Hsel Hc Hext Ho Ha Hn Hm)
    as (H1 & H2 & H3 & _). fold r1 in H1, H2, H3.
  assert (Hhit := createAdvancedProxy_hit cfg now2 o (nextId st) path2 depth2 (fst r1)
                    He Hg2 H2).
  fold r2 in Hhit.
  destruct (memoryPressure_check_frame cfg now2 (fst r1)) as [mp Hmp].
  rewrite Hmp in Hhit. rewrite Hhit, H1. cbn [fst snd].
  assert (Hmap : proxyPathMap (cache_hit now2 o (set_pressure mp (fst r1)))
                 = proxyPathMap (fst r1)) by reflexivity.
  split; [reflexivity|]. split; [exact Hmap|]. split; [|split; reflexivity].
  intros w [= <-]. rewrite Hmap, H3. apply lookup_insert_eq.
Qed.

Lemma wrapper_keeps_first_path_witness :
  let st0 := fst (new_object false true state_at_load) in
  let r1 := createAdvancedProxy defaultProxyConfig 10 (VObject 0) ["user"] 0 st0 in
  let r2 := createAdvancedProxy defaultProxyConfig 20 (VObject 0) ["profile"; "owner"] 1
              (fst r1) in
  snd r2 = VObject 1 /\ proxyPathMap (fst r2) !! 1 = Some ["user"].
Proof.
  cbv zeta.
  destruct (wrapper_keeps_first_path defaultProxyConfig 10 20 0 ["user"]
              ["profile"; "owner"] 0 1 (fst (new_object false true state_at_load)))
    as (H1 & _ & H3 & _); try reflexivity.
  - cbn. lia.
  - constructor.
  - cbn. lia.
  - split; [rewrite H1; reflexivity | apply H3; reflexivity].
Defined.

(** [clearProxyCache()] forgets the wrappers: wrapping, at depth 0, an
    extensible object that had a cached wrapper [w] creates a new
    wrapper, different from [w]; the hit and miss counters restart from
    zero while [totalProxiesCreated] goes on counting. *)
Theorem clearProxyCache_forgets_wrappers (cfg : ProxyConfig) (now : Z) (o w : ObjId)
    (path : list string) (st : State) :
  enabled cfg = true ->
  selectiveProxying cfg && (maxDepth cfg <? 0)%Z = false ->
  proxyCache st !! o = Some w -> w < nextId st ->
  isExtensible (info_of o st) = true -> o < nextId st ->
  (1 <= maxSize (proxyCacheLRU st))%Z ->
  let r := createAdvancedProxy cfg now (VObject o) path 0 (clearProxyCache st) in
  exists w',
    snd r = VObject w' /\ w' <> w
    /\ proxyCache (fst r) !! o = Some w'
    /\ cacheHits (fst r) = 0%Z /\ cacheMisses (fst r) = 1%Z
    /\ totalProxiesCreated (fst r) = (totalProxiesCreated st + 1)%Z.
Proof.
  intros He Hsel Hc Hw Hext Ho Hm r.
  assert (Hg : gated cfg now path 0 (clearProxyCache st) = false)
    by (apply gates_closed_at_root; lia).
  assert (Hnone : proxyCache (clearProxyCache st) !! o = None) by apply lookup_empty.
  assert (Ha : aligned (clearProxyCache st)) by reflexivity.
  assert (Hn : not_after now (clearProxyCache st)) by constructor.
  destruct (createAdvancedProxy_miss cfg now o path 0 (clearProxyCache st)
              He Hg Hsel Hnone Hext Ho Ha Hn Hm)
    as (H1 & H2 & _ & H4 & H5 & H6).
  fold r in H1, H2, H4, H5, H6. exists (nextId st).
  cbn [nextId clearProxyCache cacheHits cacheMisses totalProxiesCreated] in *.
  repeat split; try assumption; lia.
Qed.

Lemma clearProxyCache_forgets_wrappers_witness :
  let st0 := fst (new_object false true state_at_load) in
  let r1 := createAdvancedProxy defaultProxyConfig 10 (VObject 0) ["user"] 0 st0 in
  let r2 := createAdvancedProxy defaultProxyConfig 20 (VObject 0) ["user"] 0
              (clearProxyCache (fst r1)) in
  snd r1 = VObject 1 /\ snd r2 = VObject 2.
Proof.
  cbv zeta. split; [reflexivity|].
  destruct (clearProxyCache_forgets_wrappers defaultProxyConfig 20 0 1 ["user"]
              (fst (createAdvancedProxy defaultProxyConfig 10 (VObject 0) ["user"] 0
                      (fst (new_object false true state_at_load)))))
    as (w' & H1 & Hne & _);
    [reflexivity | reflexivity | reflexivity | vm_compute; lia | reflexivity
    | vm_compute; lia | vm_compute; discriminate |].
  rewrite H1. vm_compute in H1. injection H1 as <-. reflexivity.
Defined.



(** [activate(wrapper)] makes the path of the wrapper and every
    non-empty parent path a selector path, so that under ultra-selective
    wrapping no object on the way to the wrapper is returned unwrapped
    for not being selected; selector paths are only added. *)
Theorem activate_selects_ancestors (cfg : ProxyConfig) (w : ObjId)
    (path A rest : list string) (depth : Z) (st : State) :
  proxyPathMap st !! w = Some path ->
  path = A ++ rest -> A <> [] ->
  let st' := activate (VObject w) st in
  join_dot A ∈ selectorPaths st'
  /\ skips_unselected cfg st' A depth = false
  /\ selectorPaths st ⊆ selectorPaths st'
  /\ proxyCache st' = proxyCache st.
Proof.
  intros Hp -> HA. cbv zeta. unfold activate. cbn [as_object]. rewrite Hp.
  set (s1 := add_selector (join_dot (A ++ rest)) st).
  assert (Hin : join_dot A ∈
            selectorPaths (fold_left (fun s i => add_selector
                                        (join_dot (slice0 i (A ++ rest))) s)
                                     (seq 1 (length (A ++ rest) - 1)) s1)).
  { apply add_selectors. destruct rest as [|x rest].
    - left. subst s1. rewrite app_nil_r. cbn. set_solver.
    - right. exists (length A). split.
      + apply in_seq. rewrite length_app. cbn. destruct A; [congruence | cbn; lia].
      + unfold slice0. rewrite firstn_app, firstn_all, Nat.sub_diag. cbn.
        now rewrite app_nil_r. }
  split; [exact Hin|]. split; [|split].
  - unfold skips_unselected. cbv zeta. rewrite (bool_decide_eq_true_2 _ Hin).
    cbn [negb andb]. now rewrite andb_false_r.
  - intros x Hx. apply add_selectors. left. subst s1. cbn. set_solver.
  - destruct (add_selectors (A ++ rest) (seq 1 (length (A ++ rest) - 1)) s1 "")
      as (_ & _ & H). cbv zeta in H. rewrite H. reflexivity.
Qed.

Lemma activate_selects_ancestors_witness :
  skips_unselected (ultraSelective defaultProxyConfig)
    (activate (VObject 1)
       (fst (createAdvancedProxy defaultProxyConfig 10 (VObject 0) ["user"; "prefs"] 0
               (fst (new_object false true state_at_load)))))
    ["user"] 1 = false.
Proof.
  destruct (activate_selects_ancestors (ultraSelective defaultProxyConfig) 1
              ["user"; "prefs"] ["user"] ["prefs"] 1
              (fst (createAdvancedProxy defaultProxyConfig 10 (VObject 0) ["user"; "prefs"] 0
                      (fst (new_object false true state_at_load)))))
    as (_ & H & _); [reflexivity | reflexivity | discriminate | exact H].
Defined.

End WrapperExtras.

Module AdapterFacts.
Import Js Listeners Notions JsFacts ListenersFacts RegistryFacts JsonFacts.
Import RegistryMoreFacts Adapters AdapterNotions.

Lemma memory_lawful {V} : lawful V (MemoryStore V).
Proof.
  split; cbn.
  - intros. apply map_get_set_same.
  - intros. now apply map_get_set_other.
  - intros. apply map_get_delete_same.
  - intros. now apply map_get_delete_other.
  - intros key s H. destruct (in_dec string_dec key (map fst s)) as [Hin|Hn]; [assumption|].
    apply map_get_None in Hn. congruence.
Qed.

Lemma map_fst_set {V} (k : string) (v : V) (m : list (string * V)) :
  map fst (map_set k v m) = if map_has k m then map fst m else map fst m ++ [k].
Proof.
  unfold map_set. destruct (map_has k m).
  - apply map_fst_alter.
  - now rewrite map_app.
Qed.

Lemma map_has_In {V} (k : string) (m : list (string * V)) :
  map_has k m = true <-> In k (map fst m).
Proof.
  unfold map_has. pose proof (map_get_None k m) as H.
  destruct (map_get k m).
  - split; [intros _|reflexivity].
    destruct (in_dec string_dec k (map fst m)) as [Hin|Hn]; [assumption|].
    apply H in Hn. discriminate.
  - split; [discriminate|]. intros Hin. exfalso. now apply (proj1 H).
Qed.

Lemma NoDup_map_set {V} (k : string) (v : V) (m : list (string * V)) :
  NoDup (map fst m) -> NoDup (map fst (map_set k v m)).
Proof.
  intros Hnd. rewrite map_fst_set. destruct (map_has k m) eqn:E; [assumption|].
  apply NoDup_app. split; [assumption|]. split; [|apply NoDup_singleton].
  intros x Hx Hk. apply list_elem_of_In in Hx, Hk. destruct Hk as [<-|[]].
  apply map_has_In in Hx. congruence.
Qed.

Lemma map_fst_delete {V} (k : string) (m : list (string * V)) :
  map fst (map_delete k m) = List.filter (fun x => negb (String.eqb x k)) (map fst m).
Proof.
  unfold map_delete. induction m as [|[k' v] m IH]; [reflexivity|].
  cbn. destruct (String.eqb k' k); cbn; now rewrite IH.
Qed.

Lemma NoDup_map_delete {V} (k : string) (m : list (string * V)) :
  NoDup (map fst m) -> NoDup (map fst (map_delete k m)).
Proof.
  intros Hnd. rewrite map_fst_delete. apply NoDup_ListNoDup, List.NoDup_filter.
  now apply NoDup_ListNoDup.
Qed.

(** For an adapter that keeps the laws, a read gives the last write. *)
Lemma lawful_last_write {V S} `{StorageAdapter V S} :
  lawful V S ->
  forall (ws : list (Write V)) (s : S) (key : string),
    getItem key (apply_writes ws s) = last_write key ws (getItem key s).
Proof.
  intros L ws. unfold apply_writes.
  induction ws as [|[k v|k] ws IH]; intros s key; [reflexivity| |]; cbn.
  - rewrite IH. f_equal. cbn. destruct (String.eqb_spec k key) as [->|Hne].
    + apply (get_set_same L).
    + apply (get_set_other L). congruence.
  - rewrite IH. f_equal. cbn. destruct (String.eqb_spec k key) as [->|Hne].
    + apply (get_remove_same L).
    + apply (get_remove_other L). congruence.
Qed.

Section Warm.
Context {V S : Type} `{A : StorageAdapter V S}.

Lemma warm_fold (b : S) (ks : list string) (cache : MemoryStore V) (key : string) :
  map_get key
    (fold_left (fun cache key =>
                  match getItem key b with
                  | Some value => map_set key value cache
                  | None => cache
                  end) ks cache)
  = if existsb (String.eqb key) ks
    then match getItem key b with
         | Some value => Some value
         | None => map_get key cache
         end
    else map_get key cache.
Proof.
  revert cache. induction ks as [|k ks IH]; intros cache; [reflexivity|].
  cbn [fold_left existsb]. rewrite IH.
  destruct (String.eqb_spec key k) as [->|Hne]; cbn [orb].
  - destruct (getItem k b) as [v|] eqn:E.
    + rewrite map_get_set_same. now destruct (existsb _ ks).
    + now destruct (existsb _ ks).
  - destruct (getItem k b) as [v|] eqn:E; [|reflexivity].
    now rewrite map_get_set_other by assumption.
Qed.

Lemma coherent_write (s : Cached V S) (w : Write V) :
  lawful V S -> coherent s -> coherent (apply_write s w).
Proof.
  intros L Hc key. specialize (Hc key). destruct s as [c b].
  cbn [getItem createCachedAdapter fst snd] in *.
  destruct w as [k v|k];
    cbn [apply_write getItem setItem removeItem createCachedAdapter fst snd].
  - destruct (String.eqb_spec key k) as [->|Hne].
    + now rewrite map_get_set_same, (get_set_same L).
    + now rewrite map_get_set_other, (get_set_other L).
  - destruct (String.eqb_spec key k) as [->|Hne].
    + now rewrite map_get_delete_same, (get_remove_same L).
    + now rewrite map_get_delete_other, (get_remove_other L).
Qed.

Lemma coherent_writes (ws : list (Write V)) (s : Cached V S) :
  lawful V S -> coherent s -> coherent (apply_writes ws s).
Proof.
  intros L. unfold apply_writes. revert s.
  induction ws as [|w ws IH]; intros s Hc; [exact Hc|].
  cbn. apply IH. now apply coherent_write.
Qed.

Lemma snd_writes (ws : list (Write V)) (s : Cached V S) :
  snd (apply_writes ws s) = apply_writes ws (snd s).
Proof.
  unfold apply_writes. revert s. induction ws as [|w ws IH]; intros s; [reflexivity|].
  cbn. rewrite IH. now destruct w.
Qed.

Lemma coherent_warm (backing : S) :
  lawful V S -> coherent (warmCache (cold backing)).
Proof.
  intros L key. cbn. rewrite warm_fold. cbn.
  destruct (existsb (String.eqb key) (keys backing)) eqn:E.
  - now destruct (getItem key backing).
  - destruct (getItem key backing) as [v|] eqn:Eg; [|reflexivity].
    exfalso. assert (Hin : In key (keys backing)).
    { apply (keys_listed L). congruence. }
    assert (existsb (String.eqb key) (keys backing) = true).
    { apply existsb_exists. exists key. split; [assumption | apply String.eqb_refl]. }
    congruence.
Qed.
End Warm.

(** ** Keys in the browser store *)

Lemma slice_from_app (p r : string) : slice_from (String.length p) (p +:+ r) = r.
Proof.
  induction p as [|c p IH]; [now destruct r|].
  rewrite append_cons. cbn. exact IH.
Qed.

Lemma map_get_delete_all {V} (ks : list string) (m : list (string * V)) (full : string) :
  map_get full (fold_left (fun e key => map_delete key e) ks m)
  = if existsb (String.eqb full) ks then None else map_get full m.
Proof.
  revert m. induction ks as [|k ks IH]; intros m; [reflexivity|].
  cbn [fold_left existsb]. rewrite IH.
  destruct (String.eqb_spec full k) as [->|Hne]; cbn [orb].
  - rewrite map_get_delete_same. now destruct (existsb _ ks).
  - now rewrite map_get_delete_other by assumption.
Qed.

End AdapterFacts.

Module AdapterExtras.
Import Js Listeners Notions JsFacts ListenersFacts RegistryFacts JsonFacts.
Import RegistryMoreFacts Adapters AdapterNotions AdapterFacts.

(** The memory adapter reads back the last write: after any writes and
    removals on a new adapter, [getItem(key)] is the value last set for
    [key], and [null] when the key was never set or removed since;
    [keys()] lists exactly the keys that read non-null, each once; after
    [clear()] there is no key. *)
Theorem memory_adapter_reads_last_write
    {V} (ws : list (Write V)) (key : string) :
  let store : MemoryStore V := apply_writes ws [] in
  getItem key store = last_write key ws None
  /\ NoDup (keys store)
  /\ (In key (keys store) <-> getItem key store <> None)
  /\ keys (clear_if_any store) = [].
Proof.
  cbv zeta. split; [|split; [|split]].
  - exact (lawful_last_write memory_lawful ws [] key).
  - unfold apply_writes. cbn [keys createMemoryAdapter].
    assert (G : forall (s : MemoryStore V),
               NoDup (map fst s) -> NoDup (map fst (fold_left apply_write ws s))).
    { induction ws as [|w ws IH]; intros s Hs; [exact Hs|].
      cbn [fold_left]. apply IH. destruct w as [k v|k]; cbn.
      - now apply NoDup_map_set.
      - now apply NoDup_map_delete. }
    apply G. constructor.
  - cbn [keys getItem createMemoryAdapter].
    pose proof (map_get_None key (apply_writes ws ([] : MemoryStore V))) as H.
    split.
    + intros Hin Hn. now apply (proj1 H).
    + intros Hn. destruct (in_dec string_dec key
                             (map fst (apply_writes ws ([] : MemoryStore V))))
        as [Hin|Hout]; [assumption|].
      exfalso. apply Hn. now apply H.
  - reflexivity.
Qed.

(** The cached adapter reads from its cache only. As created, every
    read is [null] and there is no key, whatever the backing store
    holds. [warmCache()] copies every non-null entry the backing
    adapter lists and leaves the other cache entries alone: a key the
    backing adapter does not list, or reads as [null], keeps the value
    the cache had. The backing store is not written. *)
Theorem warmCache_spec {V S} `{StorageAdapter V S} (s : Cached V S) (backing : S)
    (key : string) :
  getItem key (warmCache s)
  = (if existsb (String.eqb key) (keys (snd s))
     then match getItem key (snd s) with
          | Some value => Some value
          | None => getItem key s
          end
     else getItem key s)
  /\ snd (warmCache s) = snd s
  /\ getItem key (cold backing : Cached V S) = None
  /\ keys (cold backing : Cached V S) = [].
Proof.
  split; [|repeat split]. cbn. apply warm_fold.
Qed.

(** Write-through keeps the cache exact: over a backing adapter that
    reads back what was written and lists the keys it holds, after
    [warmCache()] and any writes and removals through the cached
    adapter, every read of the cache is what the backing adapter
    holds, the backing adapter has received the same writes, and a read
    gives the last write or else what the backing store held at
    warm-up. *)
Theorem cached_adapter_write_through {V S} `{StorageAdapter V S}
    (backing : S) (ws : list (Write V)) (key : string) :
  lawful V S ->
  let s := apply_writes ws (warmCache (cold backing)) in
  getItem key s = getItem key (snd s)
  /\ snd s = apply_writes ws backing
  /\ getItem key s = last_write key ws (getItem key backing).
Proof.
  intros L s.
  assert (Hc : coherent s).
  { subst s. apply coherent_writes; [assumption | now apply coherent_warm]. }
  assert (Hs : snd s = apply_writes ws backing).
  { subst s. now rewrite snd_writes. }
  split; [apply Hc | split; [exact Hs|]].
  rewrite (Hc key), Hs. now apply lawful_last_write.
Qed.

Lemma cached_adapter_write_through_witness :
  let s : Cached string (MemoryStore string) :=
    apply_writes [Put "b" "2"; Remove "a"] (warmCache (cold [("a", "1")])) in
  getItem "a" s = None /\ getItem "b" s = Some "2"
  /\ snd s = [("b", "2")].
Proof.
  pose proof (cached_adapter_write_through
                ([("a", "1")] : MemoryStore string)
                [Put "b" "2"; Remove "a"] "a" memory_lawful) as (_ & H2 & H3).
  cbv zeta. split; [exact H3|]. split; [reflexivity | exact H2].
Defined.

(** The [localStorage] adapter keeps to its namespace. When access is
    not denied, [keys()] lists exactly the non-empty stored keys that
    start with the prefix, without the prefix; [clear()] removes those
    entries and leaves every other entry of the browser store as it is;
    [setItem] and [removeItem] touch the prefixed key only, and a value
    set is read back when the store takes it. *)
Theorem localStorage_adapter_namespace (prefix : string) (ws : WebStorage) :
  denied ws = false ->
  let A := localStorageAdapter prefix in
  (forall key,
     In key (keys ws)
     <-> In (prefix +:+ key) (map fst (entries ws)) /\ prefix +:+ key <> "")
  /\ (forall full,
        map_get full (entries (clear_if_any ws))
        = if ours prefix full && map_has full (entries ws) then None
          else map_get full (entries ws))
  /\ (forall key value full,
        noRoom ws = false ->
        getItem key (setItem key value ws) = Some value
        /\ (full <> prefix +:+ key ->
            map_get full (entries (setItem key value ws)) = map_get full (entries ws)))
  /\ (forall key full,
        getItem key (removeItem key ws) = None
        /\ (full <> prefix +:+ key ->
            map_get full (entries (removeItem key ws)) = map_get full (entries ws))).
Proof.
  intros Hd A. subst A. split; [|split; [|split]].
  - intros key. cbn. rewrite Hd. rewrite in_map_iff. split.
    + intros (full & <- & Hin). apply filter_In in Hin as [Hin Ho].
      unfold ours in Ho. apply andb_true_iff in Ho as [Ht Hs].
      apply startsWith_spec in Hs as [r ->]. rewrite slice_from_app.
      split; [assumption|]. intros E. rewrite E in Ht. discriminate.
    + intros [Hin Hne]. exists (prefix +:+ key). split; [apply slice_from_app|].
      apply filter_In. split; [assumption|]. unfold ours. apply andb_true_iff. split.
      * unfold truthy_str. destruct (prefix +:+ key); [congruence | reflexivity].
      * apply startsWith_spec. now exists key.
  - intros full. unfold clear_if_any. cbn. rewrite Hd. cbn.
    rewrite map_get_delete_all.
    destruct (existsb (String.eqb full) _) eqn:E.
    + apply existsb_exists in E as (x & Hx & He). apply String.eqb_eq in He. subst x.
      apply filter_In in Hx as [Hin Ho]. rewrite Ho.
      apply map_has_In in Hin. now rewrite Hin.
    + destruct (ours prefix full) eqn:Eo; [|reflexivity].
      destruct (map_has full (entries ws)) eqn:Eh; [|reflexivity].
      exfalso. apply map_has_In in Eh.
      assert (existsb (String.eqb full)
                (List.filter (ours prefix) (map fst (entries ws))) = true).
      { apply existsb_exists. exists full. split; [|apply String.eqb_refl].
        apply filter_In. auto. }
      congruence.
  - intros key value full Hr. cbn. rewrite Hd, Hr. cbn. rewrite Hd. split.
    + apply map_get_set_same.
    + intros Hne. now apply map_get_set_other.
  - intros key full. cbn. rewrite Hd. cbn. rewrite Hd. split.
    + apply map_get_delete_same.
    + intros Hne. now apply map_get_delete_other.
Qed.

Lemma localStorage_adapter_namespace_witness :
  let A := localStorageAdapter "scope_state:" in
  In "persisted_state_user" (keys shared_storage)
  /\ map_get "other:token" (entries (clear_if_any shared_storage)) = Some "t".
Proof.
  destruct (localStorage_adapter_namespace "scope_state:" shared_storage eq_refl)
    as (Hk & Hc & _).
  cbv zeta. split.
  - apply Hk. split; [cbn; auto | discriminate].
  - rewrite Hc. reflexivity.
Defined.

End AdapterExtras.

Module RootFacts.
Import Js Listeners Persistence FanoutSpec Notions.
Import JsFacts ListenersFacts RegistryFacts JsonFacts SliceFacts PersistFacts.
Import PersistenceApi PersistenceNotions.

Lemma split_dot_no_dot (p : string) :
  List.Forall (fun s => no_dot s = true) (split_dot p).
Proof.
  induction p as [|c p IH]; cbn [split_dot]; [repeat constructor|].
  destruct (Ascii.eqb c ".") eqn:E.
  - constructor; [reflexivity | assumption].
  - pose proof (split_dot_nonempty p) as Hn.
    destruct (split_dot p) as [|h t]; [congruence|].
    inversion IH as [|? ? Hh Ht]; subst. constructor; [|assumption].
    cbn. now rewrite E, Hh.
Qed.

Lemma split_dot_single (s : string) : no_dot s = true -> split_dot s = [s].
Proof.
  induction s as [|c s IH]; [reflexivity|].
  cbn. intros H. apply andb_true_iff in H as [Hc Hs].
  apply negb_true_iff in Hc. now rewrite Hc, (IH Hs).
Qed.

Lemma no_dot_app (a r : string) : no_dot (a +:+ "." +:+ r) = false.
Proof.
  induction a as [|c a IH]; [reflexivity|].
  rewrite append_cons. cbn. rewrite IH. apply andb_false_r.
Qed.

Lemma first_segment_single (p : string) :
  split_dot (hd EmptyString (split_dot p)) = [hd EmptyString (split_dot p)].
Proof.
  apply split_dot_single. pose proof (split_dot_no_dot p) as H.
  destruct (split_dot p); [reflexivity|]. now inversion H.
Qed.

Lemma under_trans (p q r : string) : under p q -> under q r -> under p r.
Proof.
  intros [->|H1] [->|H2]; [now left | now right | now right|].
  right. destruct H1 as [r1 ->], H2 as [r2 ->]. exists (r2 +:+ "." +:+ r1).
  now rewrite !append_assoc.
Qed.

Lemma covers_spec (p c : string) :
  String.eqb p c || startsWith p (c +:+ ".") = true <-> under p c.
Proof.
  rewrite orb_true_iff, String.eqb_eq.
  change (startsWith p (c +:+ ".")) with (strict_descendantb p c).
  rewrite strict_descendantb_spec. reflexivity.
Qed.

Lemma find_first {A} (f g : A -> bool) (l : list A) (x : A) :
  List.find f l = Some x ->
  (forall y, g y = true -> f y = true) -> g x = true ->
  List.find g l = Some x.
Proof.
  intros Hf Himp Hg. induction l as [|y l IH]; [discriminate|].
  cbn in *. destruct (f y) eqn:Ef.
  - injection Hf as ->. now rewrite Hg.
  - destruct (g y) eqn:Eg; [|auto]. rewrite (Himp y Eg) in Ef. discriminate.
Qed.

Lemma root_under (cfg : PersistenceConfig) (p : string) :
  under p (getPersistenceRoot cfg p).
Proof.
  unfold getPersistenceRoot.
  destruct (List.find _ (configured_paths cfg)) as [c|] eqn:Ef.
  - apply find_some in Ef as [_ Hc]. now apply covers_spec.
  - exact (HydrationClaims.first_segment p).
Qed.

Lemma root_of_first_segment (cfg : PersistenceConfig) (p : string) :
  List.find (fun configPath => String.eqb p configPath
                               || startsWith p (configPath +:+ "."))
            (configured_paths cfg) = None ->
  getPersistenceRoot cfg (hd EmptyString (split_dot p)) = hd EmptyString (split_dot p).
Proof.
  intros Ef. pose proof (HydrationClaims.first_segment p) as Hu. cbv zeta in Hu.
  assert (Hs : no_dot (hd EmptyString (split_dot p)) = true).
  { pose proof (split_dot_no_dot p) as H.
    destruct (split_dot p); [reflexivity|]. now inversion H. }
  set (s := hd EmptyString (split_dot p)) in *.
  unfold getPersistenceRoot.
  destruct (List.find (fun configPath => String.eqb s configPath
                                         || startsWith s (configPath +:+ "."))
                      (configured_paths cfg)) as [c|] eqn:Ef2.
  - exfalso. apply find_some in Ef2 as [Hin Hc]. apply covers_spec in Hc.
    destruct Hc as [Hc|[r Hr]].
    + pose proof (find_none _ _ Ef c Hin) as Hn. cbn in Hn.
      assert (String.eqb p c || startsWith p (c +:+ ".") = true).
      { apply covers_spec. rewrite <- Hc. exact Hu. }
      congruence.
    + rewrite Hr, no_dot_app in Hs. discriminate.
  - now rewrite (split_dot_single s Hs).
Qed.

Lemma root_idempotent (cfg : PersistenceConfig) (p : string) :
  getPersistenceRoot cfg (getPersistenceRoot cfg p) = getPersistenceRoot cfg p.
Proof.
  pose proof (root_under cfg p) as Hu. unfold getPersistenceRoot at 2 3.
  unfold getPersistenceRoot in Hu.
  destruct (List.find _ (configured_paths cfg)) as [c|] eqn:Ef.
  - unfold getPersistenceRoot. erewrite find_first; [reflexivity | exact Ef | |].
    + intros y Hy. apply covers_spec in Hy. apply covers_spec.
      eapply under_trans; eassumption.
    + apply covers_spec. now left.
  - now apply root_of_first_segment.
Qed.

Lemma root_kind (cfg : PersistenceConfig) (p : string) :
  In (getPersistenceRoot cfg p) (configured_paths cfg)
  \/ split_dot (getPersistenceRoot cfg p) = [getPersistenceRoot cfg p].
Proof.
  unfold getPersistenceRoot.
  destruct (List.find _ (configured_paths cfg)) as [c|] eqn:Ef.
  - left. now apply find_some in Ef as [H _].
  - right. apply first_segment_single.
Qed.

End RootFacts.

Module RootExtras.
Import Js Listeners Persistence FanoutSpec Notions.
Import JsFacts ListenersFacts RegistryFacts JsonFacts SliceFacts PersistFacts.
Import PersistenceApi PersistenceNotions RootFacts.

(** The persistence root of a path is the path itself or a path above
    it; it is its own root; it is a configured path or else a single
    segment (a top-level key); and when the path is accepted by
    [shouldPersistPath], so is its root. *)
Theorem getPersistenceRoot_spec (cfg : PersistenceConfig) (p : string) :
  let r := getPersistenceRoot cfg p in
  under p r
  /\ getPersistenceRoot cfg r = r
  /\ (In r (configured_paths cfg) \/ split_dot r = [r])
  /\ (shouldPersistPath cfg p = true -> shouldPersistPath cfg r = true).
Proof.
  cbv zeta. split; [apply root_under|]. split; [apply root_idempotent|].
  split; [apply root_kind|].
  apply HydrationClaims.persistence_root_persisted.
Qed.

End RootExtras.

Module BatchFacts.
Import Js Listeners Persistence FanoutSpec FlushSpec Notions.
Import JsFacts ListenersFacts RegistryFacts JsonFacts SliceFacts PersistFacts FlushFacts.
Import PersistenceApi PersistenceNotions RootFacts.

Lemma armed_app (a b : list Event) : armed (a ++ b) = fold_left armed_step b (armed a).
Proof. unfold armed. apply fold_left_app. Qed.

Lemma schedule_armed (s : State) :
  armed (events s) = held s ->
  armed (events (schedulePersistenceBatch s)) = held (schedulePersistenceBatch s)
  /\ timeoutId (batch (schedulePersistenceBatch s)) = Some (nextTimer s)
  /\ nextTimer (schedulePersistenceBatch s) = S (nextTimer s)
  /\ set_calls (events (schedulePersistenceBatch s)) = set_calls (events s)
  /\ roots (batch (schedulePersistenceBatch s)) = roots (batch s)
  /\ isHydrating (schedulePersistenceBatch s) = isHydrating s
  /\ hasHydrated (schedulePersistenceBatch s) = hasHydrated s.
Proof.
  unfold schedulePersistenceBatch, held. intros H.
  destruct (timeoutId (batch s)) as [old|] eqn:E; unfold emit;
    cbn [events batch timeoutId nextTimer roots isHydrating hasHydrated].
  - rewrite !armed_app, H. cbn [fold_left armed_step List.filter].
    rewrite Nat.eqb_refl. cbn [negb app].
    rewrite !set_calls_app. cbn. rewrite !app_nil_r. repeat split.
  - rewrite armed_app, H. cbn [fold_left armed_step app].
    rewrite set_calls_app. cbn. rewrite app_nil_r. repeat split.
Qed.

Lemma add_closed (cfg : PersistenceConfig) (path : list string) (st : State) :
  gate_open cfg st = false -> addToPersistenceBatch cfg path st = st.
Proof.
  unfold gate_open, addToPersistenceBatch. intros H.
  destruct (enabled cfg), (isHydrating st), (hasHydrated st); cbn in *;
    try reflexivity; discriminate.
Qed.

Lemma add_open (cfg : PersistenceConfig) (path : list string) (st : State) :
  gate_open cfg st = true ->
  addToPersistenceBatch cfg path st
  = if accepted cfg path
    then schedulePersistenceBatch
           (set_batch {| roots := set_add_str (getPersistenceRoot cfg (join_dot path))
                                              (roots (batch st));
                         timeoutId := timeoutId (batch st);
                         isPersisting := isPersisting (batch st) |} st)
    else st.
Proof.
  unfold gate_open, addToPersistenceBatch, accepted. intros H.
  destruct (enabled cfg), (isHydrating st), (hasHydrated st); cbn in *;
    try discriminate; reflexivity.
Qed.

Lemma writes_closed (cfg : PersistenceConfig) (paths : list (list string)) (st : State) :
  gate_open cfg st = false -> writes cfg paths st = st.
Proof.
  intros H. unfold writes. induction paths as [|p ps IH]; [reflexivity|].
  cbn. now rewrite add_closed.
Qed.

Lemma writes_open (cfg : PersistenceConfig) (paths : list (list string)) (st : State) :
  gate_open cfg st = true ->
  armed (events st) = held st ->
  let st' := writes cfg paths st in
  gate_open cfg st' = true
  /\ armed (events st') = held st'
  /\ roots (batch st') = roots_of cfg paths (roots (batch st))
  /\ set_calls (events st') = set_calls (events st)
  /\ nextTimer st <= nextTimer st'
  /\ (existsb (accepted cfg) paths = true ->
      timeoutId (batch st') = Some (Nat.pred (nextTimer st'))
      /\ nextTimer st < nextTimer st')
  /\ (existsb (accepted cfg) paths = false -> st' = st).
Proof.
  cbv zeta. unfold writes, roots_of. revert st.
  induction paths as [|p ps IH]; intros st Hg Ha.
  - cbn. repeat split; auto; discriminate.
  - cbn [fold_left existsb]. rewrite (add_open cfg p st Hg).
    fold (accepted cfg p).
    destruct (accepted cfg p) eqn:Ep; cbn [orb].
    + set (s1 := set_batch _ st).
      assert (Ha1 : armed (events s1) = held s1) by exact Ha.
      destruct (schedule_armed s1 Ha1) as (Hb & Ht & Hn & Hc & Hr & Hh1 & Hh2).
      assert (Hg2 : gate_open cfg (schedulePersistenceBatch s1) = true).
      { unfold gate_open in *. now rewrite Hh1, Hh2. }
      destruct (IH _ Hg2 Hb) as (G1 & G2 & G3 & G4 & G5 & G6 & G7).
      split; [exact G1|]. split; [exact G2|].
      split; [rewrite G3, Hr; reflexivity|].
      split; [rewrite G4, Hc; reflexivity|].
      rewrite Hn in G5. change (nextTimer s1) with (nextTimer st) in *.
      split; [lia|]. split; [|discriminate].
      intros _. destruct (existsb (accepted cfg) ps) eqn:Eps.
      * destruct (G6 eq_refl) as [Gt Gn]. split; [exact Gt|]. rewrite Hn in Gn. lia.
      * rewrite (G7 eq_refl), Ht, Hn. split; [reflexivity | lia].
    + exact (IH st Hg Ha).
Qed.

End BatchFacts.

Module BatchExtras.
Import Js Listeners Persistence FanoutSpec FlushSpec Notions.
Import JsFacts ListenersFacts RegistryFacts JsonFacts SliceFacts PersistFacts FlushFacts.
Import PersistenceApi PersistenceNotions RootFacts BatchFacts PersistenceExamples.

(** Writes are debounced. While persistence is disabled, hydration is
    running or has not happened yet, writes leave the batch alone.
    Otherwise, after any run of writes, the pending roots are the roots
    of the accepted writes, each once, after those that were pending;
    the only timer still armed is the one the batch holds, which is the
    newest one when a write was accepted; nothing has been written to
    storage; and writes that are not accepted change nothing. *)
Theorem writes_are_debounced
    (cfg : PersistenceConfig) (paths : list (list string)) (st : State) :
  armed (events st) = held st ->
  let st' := writes cfg paths st in
  (if gate_open cfg st
   then roots (batch st') = roots_of cfg paths (roots (batch st))
   else st' = st)
  /\ armed (events st') = held st'
  /\ set_calls (events st') = set_calls (events st)
  /\ (gate_open cfg st = true -> existsb (accepted cfg) paths = true ->
      timeoutId (batch st') = Some (Nat.pred (nextTimer st'))
      /\ nextTimer st < nextTimer st')
  /\ (existsb (accepted cfg) paths = false -> st' = st).
Proof.
  intros Ha st'. subst st'. destruct (gate_open cfg st) eqn:Eg.
  - destruct (writes_open cfg paths st Eg Ha) as (G1 & G2 & G3 & G4 & G5 & G6 & G7).
    repeat split; auto; now apply G6.
  - rewrite (writes_closed cfg paths st Eg).
    repeat split; auto; discriminate.
Qed.

Lemma writes_are_debounced_witness :
  let st' := writes defaultPersistenceConfig
               [["user"; "name"]; ["todos"; "0"]; ["user"; "age"]]
               (hydrated profile_store) in
  roots (batch st') = ["user"; "todos"]
  /\ armed (events st') = [2]
  /\ timeoutId (batch st') = Some 2.
Proof.
  destruct (writes_are_debounced defaultPersistenceConfig
              [["user"; "name"]; ["todos"; "0"]; ["user"; "age"]]
              (hydrated profile_store) eq_refl) as (H1 & H2 & _ & H4 & _).
  cbv zeta. split; [exact H1|]. split.
  - rewrite H2. reflexivity.
  - destruct (H4 eq_refl eq_refl) as [Ht _]. exact Ht.
Defined.

End BatchExtras.

Module SessionFacts.
Import Js Listeners Adapters Persistence FanoutSpec FlushSpec HydrationSpec Notions.
Import JsFacts ListenersFacts RegistryFacts JsonFacts SliceFacts PersistFacts FlushFacts.
Import HydrationFacts RegistryMoreFacts AdapterFacts.
Import PersistenceApi PersistenceNotions RootFacts BatchFacts.

(** ** The store of the adapter after the recorded calls *)



Lemma fold_set_other (calls : list (string * Stored)) (k : string)
    (s : Adapters.MemoryStore Stored) :
  (forall c, In c calls -> fst c <> k) ->
  map_get k (fold_left (fun s c => map_set (fst c) (snd c) s) calls s) = map_get k s.
Proof.
  revert s. induction calls as [|c cs IH]; intros s Hall; [reflexivity|].
  cbn [fold_left]. rewrite IH by (intros c' Hc'; apply Hall; now right).
  apply map_get_set_other. intros E. apply (Hall c); [now left | congruence].
Qed.

(** ** A flush with the memory adapter *)

Section Memory.
Variable cfg : PersistenceConfig.
Variable fb : State -> option State.


End Memory.




(** ** The synchronous merge over a store of the memory adapter *)

Lemma merge_over_memory (cfg : PersistenceConfig) (s : Adapters.MemoryStore Stored)
    (initialState : list (string * Json)) (st0 : State) :
  exists st0' h,
    mergePersistedIntoState cfg true (reads_of s) initialState st0 = (st0', Some h)
    /\ hasHydrated st0' = true
    /\ h = fold_left (merge_slice cfg (reads_of s)) (slice_keys (map fst s))
             {| target := merge_blob (reads_of s) (obj initialState);
                hydratedRoots := [] |}.
Proof. eexists. eexists. split; [reflexivity|]. split; reflexivity. Qed.




End SessionFacts.

Module SessionExtras.
Import Js Listeners Adapters Persistence FanoutSpec FlushSpec HydrationSpec Notions.
Import JsFacts ListenersFacts RegistryFacts JsonFacts SliceFacts PersistFacts FlushFacts.
Import HydrationFacts RegistryMoreFacts AdapterFacts.
Import PersistenceApi PersistenceNotions RootFacts BatchFacts SessionFacts.



End SessionExtras.

Module ApiFacts.
Import Js Listeners Adapters Persistence FanoutSpec FlushSpec HydrationSpec Notions.
Import JsFacts ListenersFacts RegistryFacts JsonFacts SliceFacts PersistFacts FlushFacts.
Import HydrationFacts RegistryMoreFacts AdapterFacts.
Import PersistenceApi PersistenceNotions RootFacts BatchFacts SessionFacts.

(** ** The full-state blob *)



(** ** The configuration entry and the slices removed *)

Lemma save_frame (x : Session) :
  config (savePersistenceConfig x) = config x
  /\ pstate (savePersistenceConfig x) = pstate x
  /\ forall key, key <> PERSISTENCE_CONFIG_KEY ->
                 map_get key (storage (savePersistenceConfig x)) = map_get key (storage x).
Proof.
  unfold savePersistenceConfig. destruct (stringify _); cbn; repeat split; auto.
  intros key Hne. now apply map_get_set_other.
Qed.

Lemma remove_slices_get (ps : list string) (s : MemoryStore Stored) (key : string) :
  map_get key (remove_slices ps s)
  = if existsb (fun p => String.eqb key (storage_key p)) ps then None
    else map_get key s.
Proof.
  unfold remove_slices. revert s. induction ps as [|p ps IH]; intros s; [reflexivity|].
  cbn [fold_left existsb]. rewrite IH. cbn [removeItem createMemoryAdapter].
  destruct (String.eqb_spec key (storage_key p)) as [->|Hne]; cbn [orb].
  - rewrite map_get_delete_same. now destruct (existsb _ ps).
  - now rewrite map_get_delete_other by assumption.
Qed.

Lemma storage_key_not_config (p : string) : storage_key p <> PERSISTENCE_CONFIG_KEY.
Proof.
  intros H. assert (Hs : startsWith (storage_key p) SLICE_PREFIX = true).
  { apply startsWith_spec. now exists p. }
  rewrite H in Hs. discriminate Hs.
Qed.

Lemma in_fold_set_add (l acc : list string) (p : string) :
  In p (fold_left (fun acc x => set_add_str x acc) l acc) <-> In p acc \/ In p l.
Proof.
  revert acc. induction l as [|x l IH]; intros acc; cbn [fold_left].
  - cbn. tauto.
  - rewrite IH, in_set_add_str. cbn. intuition congruence.
Qed.

Lemma in_dedupe (l : list string) (p : string) : In p (dedupe l) <-> In p l.
Proof. unfold dedupe. rewrite in_fold_set_add. cbn. tauto. Qed.

Lemma blacklisted_under (cfg : PersistenceConfig) (p q : string) :
  In p (blacklist cfg) -> under q p -> shouldPersistPath cfg q = false.
Proof.
  intros Hin Hu. destruct (shouldPersistPath cfg q) eqn:E; [|reflexivity].
  apply shouldPersistPath_cases in E as (_ & Hb & _). exfalso. apply Hb.
  exists p. split; [exact Hin|]. destruct Hu as [->|H]; [now left | now right].
Qed.

Lemma merged_roots_accepted (cfg : PersistenceConfig) (a : Adapter)
    (ks : list string) (h : Hydration) (r : string) :
  (forall r, In r (hydratedRoots h) -> shouldPersistPath cfg r = true) ->
  In r (hydratedRoots (fold_left (merge_slice cfg a) ks h)) ->
  shouldPersistPath cfg r = true.
Proof.
  revert h. induction ks as [|k ks IH]; intros h Hh Hin; [now apply Hh|].
  cbn [fold_left] in Hin. apply (IH _ ) in Hin; [exact Hin|].
  intros r0. unfold merge_slice.
  destruct (shouldPersistPath cfg (path_of_key k)) eqn:Es; cbn [negb]; [|apply Hh].
  destruct (is_child_of_hydrated _ _); [apply Hh|].
  destruct (getItem a k) as [[|[v|]]|]; try apply Hh.
  cbn. intros H0. apply in_set_add_str in H0 as [->|H0]; [exact Es | now apply Hh].
Qed.

End ApiFacts.

Module ApiExtras.
Import Js Listeners Adapters Persistence FanoutSpec FlushSpec HydrationSpec Notions.
Import JsFacts ListenersFacts RegistryFacts JsonFacts SliceFacts PersistFacts FlushFacts.
Import HydrationFacts RegistryMoreFacts AdapterFacts.
Import PersistenceApi PersistenceNotions RootFacts BatchFacts SessionFacts ApiFacts.



(** [blacklistPaths(paths)] stops persistence at the paths given and
    below them: such a path is refused by [shouldPersistPath], a write
    to it leaves the batch alone, the stored slice of each path given
    is removed, and the synchronous merge applies no stored slice at or
    below a path given. Nothing else is removed from storage (the slice
    of a parent path stays, and so does the slice of a path below), the
    batch is not touched, and the blacklist holds what it held and the
    paths given. *)
Theorem blacklistPaths_spec (ps : list string) (x : Session) (p q : string) :
  In p ps -> under q p ->
  let x' := blacklistPaths ps x in
  shouldPersistPath (config x') q = false
  /\ (forall st, addToPersistenceBatch (config x') (split_dot q) st = st)
  /\ Adapters.getItem (storage_key p) (storage x') = None
  /\ (forall initialState st st' h,
        mergePersistedIntoState (config x') true (reads_of (storage x')) initialState st
        = (st', Some h) ->
        ~ In q (hydratedRoots h))
  /\ (forall key,
        key <> PERSISTENCE_CONFIG_KEY ->
        (forall p', In p' ps -> key <> storage_key p') ->
        Adapters.getItem key (storage x') = Adapters.getItem key (storage x))
  /\ pstate x' = pstate x
  /\ (forall b, In b (blacklist (config x'))
                <-> In b (blacklist (config x)) \/ In b ps).
Proof.
  intros Hin Hu x'. subst x'. unfold blacklistPaths.
  set (cfg' := {| enabled := enabled (config x); paths := paths (config x);
                  blacklist := dedupe (blacklist (config x) ++ ps);
                  batchDelay := batchDelay (config x) |}).
  destruct (save_frame (with_config cfg' x)) as (Hc & Hp & Hf).
  set (x1 := savePersistenceConfig (with_config cfg' x)) in *.
  cbn [config pstate storage with_storage with_config] in *.
  assert (Hbl : forall b, In b (blacklist cfg') <-> In b (blacklist (config x)) \/ In b ps).
  { intros b. cbn. now rewrite in_dedupe, in_app_iff. }
  assert (Hq : shouldPersistPath cfg' q = false).
  { apply (blacklisted_under cfg' p q); [|exact Hu]. apply Hbl. now right. }
  rewrite Hc. split; [exact Hq|]. split.
  { intros st. unfold addToPersistenceBatch. rewrite join_split, Hq.
    now destruct (negb (enabled cfg') || isHydrating st || negb (hasHydrated st)). }
  split.
  { cbn [Adapters.getItem createMemoryAdapter]. rewrite remove_slices_get.
    assert (E : existsb (fun p0 => String.eqb (storage_key p) (storage_key p0)) ps = true).
    { apply existsb_exists. exists p. split; [exact Hin | apply String.eqb_refl]. }
    now rewrite E. }
  split.
  { intros initialState st st' h Hm Hroot.
    destruct (merge_over_memory cfg' (remove_slices ps (storage x1)) initialState st)
      as (st1 & h1 & Hm1 & _ & Hdef).
    rewrite Hm in Hm1. injection Hm1 as _ ->. subst h1.
    apply merged_roots_accepted in Hroot; [congruence|]. intros r []. }
  split.
  { intros key Hk Hps. cbn [Adapters.getItem createMemoryAdapter].
    rewrite remove_slices_get.
    assert (E : existsb (fun p0 => String.eqb key (storage_key p0)) ps = false).
    { apply not_true_iff_false. intros E. apply existsb_exists in E as (p' & Hp' & E).
      apply String.eqb_eq in E. now apply (Hps p'). }
    rewrite E. now apply Hf. }
  split; [exact Hp | exact Hbl].
Qed.

Lemma blacklistPaths_spec_witness :
  let x' := blacklistPaths ["user.password"] old_storage in
  shouldPersistPath (config x') "user.password" = false
  /\ Adapters.getItem "persisted_state_user.password" (storage x') = None
  /\ Adapters.getItem "persisted_state_user" (storage x')
     = Some (SText (Some (obj [("name", JStr "Bob")]))).
Proof.
  destruct (blacklistPaths_spec ["user.password"] old_storage
              "user.password" "user.password")
    as (H1 & _ & H3 & _ & H5 & _); [left; reflexivity | left; reflexivity |].
  cbv zeta. split; [exact H1|]. split; [exact H3|].
  rewrite H5; [reflexivity | discriminate |].
  intros p' [<-|[]]. discriminate.
Defined.

End ApiExtras.
